(** * The permission-boundary scanner of [gum.py]

    A shallow embedding of [AWSAccountScanner]: every method of the class is a
    computation over an explicit [World] (the scanner's mutable fields together
    with what the run has printed and which provider calls it has issued), and
    the cloud provider is a record of oracles.  An exception is a value: each
    computation returns [Ok v] or [Raise e] next to the new world.

    The methods come twice.  They are given first over a console that takes
    every line it is handed, which is all that the records, the requests and
    the collection of a run depend on.  The methods that print are then given
    again in [Rich], over the console of rich, which refuses a text whose
    markup it cannot read; what a run prints, returns to its caller and raises
    is stated there.  The workers are followed as one task after the other in
    [run_workers] and thread by thread in [Pool]. *)

From Stdlib Require Import String Ascii List ZArith Lia Bool Permutation.
From Stdlib Require Import DecimalString DecimalPos DecimalZ.
From Stdlib Require Import Sorted.
From Stdlib Require OrderedTypeEx.
Import ListNotations.
Local Open Scope string_scope.
Local Open Scope list_scope.

Set Implicit Arguments.

(** ** Python values the scanner handles *)

(** The exceptions the scanner can meet, each an instance of [Exception]: a
    missing dictionary key, a pool created with no worker, an error reported
    by the provider's client library (denial, throttling, transport), or the
    error of rich's console when it is given a text whose markup it cannot
    read. *)
Inductive exn : Type :=
| KeyError (key : string)
| ValueError (message : string)
| ClientError (message : string)
| MarkupError (message : string).

(** [str(e)] *)
Definition str_exn (e : exn) : string :=
  match e with
  | KeyError key => "'" ++ key ++ "'"
  | ValueError message => message
  | ClientError message => message
  | MarkupError message => message
  end.

Inductive result (A : Type) : Type :=
| Ok (a : A)
| Raise (e : exn).
Arguments Ok {A} a.
Arguments Raise {A} e.

(** [d[key]] on a dictionary whose entry may be absent *)
Definition getitem {A : Type} (key : string) (entry : option A) : result A :=
  match entry with
  | Some v => Ok v
  | None => Raise (KeyError key)
  end.

(** [str(n)] for a Python integer, as an f-string renders it *)
Definition str_int (n : Z) : string := NilZero.string_of_int (Z.to_int n).

(** [s[:n]] *)
Definition str_prefix (n : nat) (s : string) : string := substring 0 n s.

(** [s.split(sep)] for a one-character separator: the segments between the
    occurrences of [sep], in order; never the empty list. *)
Fixpoint split (sep : ascii) (s : string) : list string :=
  match s with
  | EmptyString => [EmptyString]
  | String c s' =>
      if Ascii.eqb c sep then EmptyString :: split sep s'
      else match split sep s' with
           | seg :: segs => String c seg :: segs
           | [] => [String c EmptyString]
           end
  end.

(** [l[-1]] on a list of strings known to be non-empty *)
Definition last_item (l : list string) : string := last l EmptyString.

(** ** Data model *)

(** [@dataclass RoleInfo] *)
Record RoleInfo : Type := mkRoleInfo {
  account_id : string;
  account_name : string;
  role_name : string;
  has_permission_boundary : string
}.

(** An entry of [get_all_active_accounts]'s result: the three keys are always
    present, since the method builds the dictionary itself. *)
Record Account : Type := mkAccount {
  Id : string;
  Name : string;
  Email : string
}.

(** An account as the directory service returns it; a key may be missing. *)
Record RawAccount : Type := mkRawAccount {
  raw_Status : option string;
  raw_Id : option string;
  raw_Name : option string;
  raw_Email : option string
}.

(** A page of [list_accounts]: [page['Accounts']] *)
Record AccountsPage : Type := mkAccountsPage {
  Accounts : option (list RawAccount)
}.

(** [role['PermissionsBoundary']] *)
Record Boundary : Type := mkBoundary {
  PermissionsBoundaryArn : option string
}.

(** A role as [list_roles] returns it *)
Record Role : Type := mkRole {
  RoleName : option string;
  PermissionsBoundary : option Boundary
}.

(** A page of [list_roles]: [page['Roles']] *)
Record RolesPage : Type := mkRolesPage {
  Roles : option (list Role)
}.

(** [response['Credentials']] of [assume_role] *)
Record Credentials : Type := mkCredentials {
  AccessKeyId : option string;
  SecretAccessKey : option string;
  SessionToken : option string
}.

Record AssumeRoleResponse : Type := mkAssumeRoleResponse {
  response_Credentials : option Credentials
}.

(** [boto3.Session(aws_access_key_id=..., aws_secret_access_key=...,
    aws_session_token=...)] *)
Record Session : Type := mkSession {
  aws_access_key_id : string;
  aws_secret_access_key : string;
  aws_session_token : string
}.

(** The provider, seen from the scanner.  A paginator is the finite stream of
    its page fetches, each of which yields a page or raises; iteration stops at
    the first fetch that raises.  [sts_client] and [iam_client] are the
    creations of the two service clients, [int_time id] is the value of
    [int(time.time())] read while the role of account [id] is being assumed,
    [completion_order] is the order in which the pool's workers reach their
    critical section, and [write_csv] is the writing of the report file. *)
Record Cloud : Type := mkCloud {
  list_accounts_paginator : list (result AccountsPage);
  sts_client : result unit;
  int_time : string -> Z;
  assume_role : string -> string -> result AssumeRoleResponse;
  iam_client : Session -> result unit;
  list_roles_paginator : Session -> list (result RolesPage);
  completion_order : list Account -> list Account;
  write_csv : list RoleInfo -> result unit
}.

(** The immutable fields of an [AWSAccountScanner] *)
Record Scanner : Type := mkScanner {
  target_permission_boundary : string;
  role_to_assume : string
}.

(** [AWSAccountScanner()] with the default arguments *)
Definition default_scanner : Scanner :=
  mkScanner "syf-Sandbox-permission-boundary" "ca-iam-cie-engineer".

(** ** The classifier (lines 122-126)

    [boundary] is [None] when the key ['PermissionsBoundary'] is not in the
    role, and the boundary's ARN otherwise. *)
Definition boundary_name (boundary_arn : string) : string :=
  last_item (split "/" boundary_arn).

Definition classify (boundary : option string) (target : string) : bool :=
  match boundary with
  | None => false
  | Some boundary_arn => String.eqb (boundary_name boundary_arn) target
  end.

(** The spec's wording of the short name: what follows the last ['/'] of the
    reference, the whole reference when it has none. *)
Fixpoint has_slash (s : string) : bool :=
  match s with
  | EmptyString => false
  | String c s' => Ascii.eqb c "/" || has_slash s'
  end.

Fixpoint trailing_segment (s : string) : string :=
  match s with
  | EmptyString => EmptyString
  | String c s' =>
      if has_slash s' then trailing_segment s'
      else if Ascii.eqb c "/" then s' else s
  end.

(** ** The world a scanner runs in *)

(** Requests sent to the provider *)
Inductive Call : Type :=
| ListAccountsPage
| AssumeRole (RoleArn RoleSessionName : string)
| ListRolesPage (session : Session).

(** What [console.print] is given; elapsed times are left out. *)
Inductive Message : Type :=
| FetchingAccounts
| FoundAccounts (n : nat)
| ErrorFetchingAccounts (e : string)
| NoAccountsFound
| StartingScan (n : nat) (max_workers : Z)
| TargetBoundary (name : string)
| AssumingRole (name : string)
| ErrorProcessingAccount (id e : string)
| ResultsTable (rows : list RoleInfo)
| ScanSummary (total_accounts accessible_accounts total_results
               roles_with_boundary : nat)
| ResultsSaved
| ErrorSavingCsv (e : string).

Record World : Type := mkWorld {
  results : list RoleInfo;   (* self.results *)
  progress : Z;              (* completed count of the progress task *)
  calls : list Call;         (* provider requests, oldest first *)
  console : list Message     (* printed lines, oldest first *)
}.

(** The world right after [AWSAccountScanner.__init__] *)
Definition fresh_world : World := mkWorld [] 0 [] [].

(** ** Computations *)

Definition M (A : Type) : Type := World -> result A * World.

Definition ret {A : Type} (a : A) : M A := fun w => (Ok a, w).

Definition raise {A : Type} (e : exn) : M A := fun w => (Raise e, w).

Definition bind {A B : Type} (m : M A) (k : A -> M B) : M B :=
  fun w =>
    match m w with
    | (Ok a, w') => k a w'
    | (Raise e, w') => (Raise e, w')
    end.

(** [try: m  except Exception as e: handler e] *)
Definition try_except {A : Type} (m : M A) (handler : exn -> M A) : M A :=
  fun w =>
    match m w with
    | (Ok a, w') => (Ok a, w')
    | (Raise e, w') => handler e w'
    end.

Definition lift {A : Type} (r : result A) : M A := fun w => (r, w).

Declare Scope scan_scope.
Delimit Scope scan_scope with scan.
Notation "x <- m ;; k" := (bind m (fun x => k))
  (at level 61, m at next level, right associativity) : scan_scope.
Notation "m ;;; k" := (bind m (fun _ => k))
  (at level 61, right associativity) : scan_scope.
Local Open Scope scan_scope.

Definition request (c : Call) : M unit :=
  fun w => (Ok tt, mkWorld (results w) (progress w) (calls w ++ [c]) (console w)).

(** A line taken by the console.  Whether rich can read the markup of the line
    is not looked at here: that is [Rich.console_print]. *)
Definition console_print (m : Message) : M unit :=
  fun w => (Ok tt, mkWorld (results w) (progress w) (calls w) (console w ++ [m])).

(** [self.results.extend(rs)] *)
Definition results_extend (rs : list RoleInfo) : M unit :=
  fun w => (Ok tt, mkWorld (results w ++ rs) (progress w) (calls w) (console w)).

(** [progress.update(task_id, advance=1)] *)
Definition progress_advance : M unit :=
  fun w => (Ok tt, mkWorld (results w) (progress w + 1) (calls w) (console w)).

(** [progress.add_task(..., total=n)]: a new task starts with nothing completed *)
Definition progress_add_task : M unit :=
  fun w => (Ok tt, mkWorld (results w) 0 (calls w) (console w)).

(** [self.results], read *)
Definition get_results : M (list RoleInfo) := fun w => (Ok (results w), w).

(** ** The methods of [AWSAccountScanner] *)

Section Methods.

Variable cloud : Cloud.
Variable self : Scanner.

(** *** [get_all_active_accounts] (lines 42-64) *)

(** The inner loop: [for account in page['Accounts']] *)
Fixpoint append_active (page_accounts : list RawAccount)
    (accounts : list Account) : M (list Account) :=
  match page_accounts with
  | [] => ret accounts
  | account :: rest =>
      status <- lift (getitem "Status" (raw_Status account)) ;;
      if String.eqb status "ACTIVE" then
        id <- lift (getitem "Id" (raw_Id account)) ;;
        name <- lift (getitem "Name" (raw_Name account)) ;;
        email <- lift (getitem "Email" (raw_Email account)) ;;
        append_active rest (accounts ++ [mkAccount id name email])
      else append_active rest accounts
  end.

(** The outer loop: [for page in paginator.paginate()] *)
Fixpoint paginate_accounts (pages : list (result AccountsPage))
    (accounts : list Account) : M (list Account) :=
  match pages with
  | [] => ret accounts
  | fetch :: rest =>
      request ListAccountsPage ;;;
      page <- lift fetch ;;
      page_accounts <- lift (getitem "Accounts" (Accounts page)) ;;
      accounts' <- append_active page_accounts accounts ;;
      paginate_accounts rest accounts'
  end.

Definition get_all_active_accounts : M (list Account) :=
  try_except
    (console_print FetchingAccounts ;;;
     accounts <- paginate_accounts (list_accounts_paginator cloud) [] ;;
     console_print (FoundAccounts (length accounts)) ;;;
     ret accounts)
    (fun e =>
       console_print (ErrorFetchingAccounts (str_exn e)) ;;;
       ret []).

(** *** [assume_role_in_account] (lines 66-88) *)

Definition role_arn_of (account_id : string) : string :=
  "arn:aws:iam::" ++ account_id ++ ":role/" ++ role_to_assume self.

Definition role_session_name (account_id : string) : string :=
  "permission-boundary-scan-" ++ str_int (int_time cloud account_id).

Definition assume_role_in_account (account_id : string) : M (option Session) :=
  try_except
    (lift (sts_client cloud) ;;;
     let role_arn := role_arn_of account_id in
     let session_name := role_session_name account_id in
     request (AssumeRole role_arn session_name) ;;;
     response <- lift (assume_role cloud role_arn session_name) ;;
     credentials <- lift (getitem "Credentials" (response_Credentials response)) ;;
     key_id <- lift (getitem "AccessKeyId" (AccessKeyId credentials)) ;;
     secret <- lift (getitem "SecretAccessKey" (SecretAccessKey credentials)) ;;
     token <- lift (getitem "SessionToken" (SessionToken credentials)) ;;
     ret (Some (mkSession key_id secret token)))
    (fun _ => ret None).

(** *** [scan_account_roles] (lines 90-153) *)

(** [role['PermissionsBoundary']['PermissionsBoundaryArn']] when the role has
    the key ['PermissionsBoundary'], no reference otherwise *)
Definition boundary_reference (role : Role) : M (option string) :=
  match PermissionsBoundary role with
  | None => ret None
  | Some boundary =>
      boundary_arn <- lift (getitem "PermissionsBoundaryArn"
                                    (PermissionsBoundaryArn boundary)) ;;
      ret (Some boundary_arn)
  end.

(** The inner loop: [for role in page['Roles']], on the two accumulators *)
Fixpoint scan_roles (account : Account) (roles : list Role)
    (roles_with_boundary : list RoleInfo) (total_roles : Z)
    : M (list RoleInfo * Z) :=
  match roles with
  | [] => ret (roles_with_boundary, total_roles)
  | role :: rest =>
      let total_roles := (total_roles + 1)%Z in
      role_name <- lift (getitem "RoleName" (RoleName role)) ;;
      boundary <- boundary_reference role ;;
      if classify boundary (target_permission_boundary self) then
        scan_roles account rest
          (roles_with_boundary ++
             [mkRoleInfo (Id account) (Name account) role_name "Exists"])
          total_roles
      else scan_roles account rest roles_with_boundary total_roles
  end.

(** The outer loop: [for page in paginator.paginate()] *)
Fixpoint scan_pages (account : Account) (session : Session)
    (pages : list (result RolesPage))
    (roles_with_boundary : list RoleInfo) (total_roles : Z)
    : M (list RoleInfo * Z) :=
  match pages with
  | [] => ret (roles_with_boundary, total_roles)
  | fetch :: rest =>
      request (ListRolesPage session) ;;;
      page <- lift fetch ;;
      roles <- lift (getitem "Roles" (Roles page)) ;;
      acc <- scan_roles account roles roles_with_boundary total_roles ;;
      scan_pages account session rest (fst acc) (snd acc)
  end.

Definition access_denied_record (account : Account) : RoleInfo :=
  mkRoleInfo (Id account) (Name account) "ACCESS_DENIED" "N/A".

Definition missing_record (account : Account) (total_roles : Z) : RoleInfo :=
  mkRoleInfo (Id account) (Name account)
    ("NO_ROLES_WITH_BOUNDARY (" ++ str_int total_roles ++ " total roles)")
    "Missing".

Definition error_record (account : Account) (e : exn) : RoleInfo :=
  mkRoleInfo (Id account) (Name account)
    ("ERROR: " ++ str_prefix 50 (str_exn e) ++ "...")
    "Error".

(** The body of the [try] block, given [account_results] as it is on entry; it
    returns the list as the block leaves it.  Everything that can raise comes
    before the block's first append to the list, so the handler finds the list
    as it was on entry. *)
Definition scan_account_roles_try (account : Account)
    (account_results : list RoleInfo) : M (list RoleInfo) :=
  assumed_session <- assume_role_in_account (Id account) ;;
  match assumed_session with
  | None => ret (account_results ++ [access_denied_record account])
  | Some session =>
      lift (iam_client cloud session) ;;;
      acc <- scan_pages account session
               (list_roles_paginator cloud session) [] 0%Z ;;
      match fst acc with
      | [] => ret (account_results ++ [missing_record account (snd acc)])
      | _ :: _ => ret (account_results ++ fst acc)
      end
  end.

Definition scan_account_roles (account : Account) : M (list RoleInfo) :=
  let account_results := [] in
  try_except (scan_account_roles_try account account_results)
    (fun e => ret (account_results ++ [error_record account e])).

(** *** [worker] (lines 155-163) *)

Definition worker (account : Account) : M (list RoleInfo) :=
  rs <- scan_account_roles account ;;
  results_extend rs ;;;
  progress_advance ;;;
  ret rs.

(** *** Reporting: [create_results_table] and [save_to_csv] (lines 165-223) *)

(** [(x.account_id, x.role_name) <= (y.account_id, y.role_name)] *)
Definition key_leb (x y : RoleInfo) : bool :=
  match String.compare (account_id x) (account_id y) with
  | Lt => true
  | Eq => String.leb (role_name x) (role_name y)
  | Gt => false
  end.

Fixpoint insert_by_key (x : RoleInfo) (l : list RoleInfo) : list RoleInfo :=
  match l with
  | [] => [x]
  | y :: l' => if key_leb x y then x :: l else y :: insert_by_key x l'
  end.

(** [sorted(rs, key=lambda x: (x.account_id, x.role_name))]: a new list, stable *)
Definition sorted_by_key (rs : list RoleInfo) : list RoleInfo :=
  fold_right insert_by_key [] rs.

(** [s[:n] + "..." if len(s) > n else s] *)
Definition ellipsis (n : nat) (s : string) : string :=
  if Nat.ltb n (String.length s) then str_prefix n s ++ "..." else s.

Definition status_style (status : string) : string :=
  if String.eqb status "N/A" || String.eqb status "Error" then "yellow"
  else if String.eqb status "Exists" then "green" else "red".

Definition table_row (r : RoleInfo) : RoleInfo :=
  let style := status_style (has_permission_boundary r) in
  mkRoleInfo (account_id r)
    (ellipsis 24 (account_name r))
    (ellipsis 39 (role_name r))
    ("[" ++ style ++ "]" ++ has_permission_boundary r ++ "[/" ++ style ++ "]").

Definition create_results_table : M (list RoleInfo) :=
  rs <- get_results ;;
  ret (map table_row (sorted_by_key rs)).

Definition save_to_csv : M bool :=
  try_except
    (rs <- get_results ;;
     lift (write_csv cloud (sorted_by_key rs)) ;;;
     console_print ResultsSaved ;;;
     ret true)
    (fun e => console_print (ErrorSavingCsv (str_exn e)) ;;; ret false).

(** *** [scan_all_accounts] (lines 225-288) *)

(** [ThreadPoolExecutor(max_workers=max_workers)] *)
Definition thread_pool_executor (max_workers : Z) : M unit :=
  if (max_workers <=? 0)%Z
  then raise (ValueError "max_workers must be greater than 0")
  else ret tt.

(** The submitted workers, taken in the order in which they complete; what a
    worker raises is caught where its future is read.  Each task is run here
    as a whole when it completes, which gives the collection and the counter
    of the pool; the requests of a task are sent earlier, when its thread runs
    line 157, and their order among the tasks is that of [Pool]. *)
Fixpoint run_workers (completed : list Account) : M unit :=
  match completed with
  | [] => ret tt
  | account :: rest =>
      try_except (worker account ;;; ret tt)
        (fun e => console_print
                    (ErrorProcessingAccount (Id account) (str_exn e))) ;;;
      run_workers rest
  end.

Definition count_status (p : string -> bool) (rs : list RoleInfo) : nat :=
  length (filter (fun r => p (has_permission_boundary r)) rs).

(** The value returned is [None] for the bare [return] of line 233 and
    [Some self.results] for line 288. *)
Definition scan_all_accounts (max_workers : Z) : M (option (list RoleInfo)) :=
  accounts <- get_all_active_accounts ;;
  match accounts with
  | [] => console_print NoAccountsFound ;;; ret None
  | _ :: _ =>
      console_print (StartingScan (length accounts) max_workers) ;;;
      console_print (TargetBoundary (target_permission_boundary self)) ;;;
      console_print (AssumingRole (role_to_assume self)) ;;;
      progress_add_task ;;;
      thread_pool_executor max_workers ;;;
      run_workers (completion_order cloud accounts) ;;;
      table <- create_results_table ;;
      console_print (ResultsTable table) ;;;
      rs <- get_results ;;
      console_print
        (ScanSummary (length accounts)
           (count_status (fun s => negb (String.eqb s "N/A")) rs)
           (length rs)
           (count_status (fun s => String.eqb s "Exists") rs)) ;;;
      save_to_csv ;;;
      rs <- get_results ;;
      ret (Some rs)
  end.

End Methods.

(** [if results:] in [main]: the truth value of what [scan_all_accounts] returned *)
Definition truthy (returned : option (list RoleInfo)) : bool :=
  match returned with
  | None | Some [] => false
  | Some (_ :: _) => true
  end.

(** ** Vocabulary of the properties *)

(** A world that differs from [w] by further provider requests only *)
Definition with_calls (w : World) (cs : list Call) : World :=
  mkWorld (results w) (progress w) (calls w ++ cs) (console w).

Definition is_list_roles (c : Call) : bool :=
  match c with
  | ListRolesPage _ => true
  | _ => false
  end.

(** The session a response yields, [None] when a key is missing *)
Definition session_of_response (response : AssumeRoleResponse) : option Session :=
  match response_Credentials response with
  | Some (mkCredentials (Some key_id) (Some secret) (Some token)) =>
      Some (mkSession key_id secret token)
  | _ => None
  end.

(** The two shapes of an account's record set *)
Definition status_is (status : string) (r : RoleInfo) : bool :=
  String.eqb (has_permission_boundary r) status.

Definition is_sentinel (r : RoleInfo) : bool :=
  status_is "Missing" r || status_is "N/A" r || status_is "Error" r.

Definition exists_records (rs : list RoleInfo) : bool :=
  match rs with
  | [] => false
  | _ :: _ => forallb (status_is "Exists") rs
  end.

Definition one_sentinel (rs : list RoleInfo) : bool :=
  match rs with
  | [r] => is_sentinel r
  | _ => false
  end.

(** Whatever the inner loop accumulates has status ["Exists"] and carries the
    account's id. *)
Definition exists_for (account : Account) (r : RoleInfo) : Prop :=
  has_permission_boundary r = "Exists" /\ account_id r = Id account.

(** [w] followed by what the log-only world [d] has recorded *)
Definition after (w d : World) : World :=
  mkWorld (results w) (progress w) (calls w ++ calls d) (console w ++ console d).

(** A computation that reads nothing of the world and only adds to its logs:
    it does in every world what it does in a fresh one. *)
Definition log_only {A : Type} (m : M A) : Prop :=
  forall w, m w = (fst (m fresh_world), after w (snd (m fresh_world))).



(** What the task of an account returns; the world it runs in has no part in it. *)
Definition account_records (cloud : Cloud) (self : Scanner) (account : Account)
    : list RoleInfo :=
  match fst (scan_account_roles cloud self account fresh_world) with
  | Ok rs => rs
  | Raise _ => []
  end.

(** What the directory listing yields; the world has no part in it either. *)
Definition active_accounts (cloud : Cloud) : list Account :=
  match fst (get_all_active_accounts cloud fresh_world) with
  | Ok accounts => accounts
  | Raise _ => []
  end.

(** What listing the directory gives: the active accounts, or the exception
    that interrupts the listing *)
Definition directory_listing (cloud : Cloud) : result (list Account) :=
  fst (paginate_accounts (list_accounts_paginator cloud) [] fresh_world).

(** A well-formed enumeration: each role has a name and, when it has a
    boundary, the boundary has an ARN. *)
Definition listed_role (r : string * option string) : Role :=
  mkRole (Some (fst r)) (option_map (fun arn => mkBoundary (Some arn)) (snd r)).

Definition listed_page (rs : list (string * option string)) : result RolesPage :=
  Ok (mkRolesPage (Some (map listed_role rs))).

Definition matching_roles (self : Scanner) (rs : list (string * option string))
    : list (string * option string) :=
  filter (fun r => classify (snd r) (target_permission_boundary self)) rs.

Definition exists_record (account : Account) (r : string * option string)
    : RoleInfo :=
  mkRoleInfo (Id account) (Name account) (fst r) "Exists".

(** ** A provider with four accounts

    ["111111111111"] refuses the delegation, ["222222222222"] has five roles
    and none under the target boundary, ["333333333333"] has two roles and one
    under it, and the enumeration of ["444444444444"] fails on its second page.
    Every clock reading falls in the same second. *)

Module Demo.

Definition denied := mkAccount "111111111111" "sandbox-a" "a@example.com".
Definition missing := mkAccount "222222222222" "sandbox-b" "b@example.com".
Definition compliant := mkAccount "333333333333" "sandbox-c" "c@example.com".
Definition failing := mkAccount "444444444444" "sandbox-d" "d@example.com".

Definition raw (a : Account) (status : string) : RawAccount :=
  mkRawAccount (Some status) (Some (Id a)) (Some (Name a)) (Some (Email a)).

Definition target_arn : string :=
  "arn:aws:iam::333333333333:policy/syf-Sandbox-permission-boundary".

Definition other_arn : string :=
  "arn:aws:iam::222222222222:policy/syf-sandbox-permission-boundary".

Definition roles_of (key : string) : list (result RolesPage) :=
  if String.eqb key "222222222222" then
    [listed_page [("admin", None); ("audit", Some other_arn)];
     listed_page [("build", None); ("deploy", None); ("ops", None)]]
  else if String.eqb key "333333333333" then
    [listed_page [("sandbox-dev", Some target_arn); ("admin", None)]]
  else if String.eqb key "444444444444" then
    [listed_page [("sandbox-dev", Some target_arn)];
     Raise (ClientError "An error occurred (Throttling) when calling the ListRoles operation: Rate exceeded")]
  else [].

(** The credentials handed out carry the account id as their key id. *)
Definition sts (role_arn session_name : string) : result AssumeRoleResponse :=
  let id := substring 13 12 role_arn in
  if String.eqb id "111111111111"
  then Raise (ClientError "An error occurred (AccessDenied) when calling the AssumeRole operation")
  else Ok (mkAssumeRoleResponse
             (Some (mkCredentials (Some id) (Some "secret") (Some "token")))).

Definition cloud : Cloud :=
  mkCloud
    [Ok (mkAccountsPage (Some [raw denied "ACTIVE"; raw missing "ACTIVE"]));
     Ok (mkAccountsPage (Some [raw (mkAccount "555555555555" "closed" "e@example.com") "SUSPENDED";
                               raw compliant "ACTIVE"; raw failing "ACTIVE"]))]
    (Ok tt)
    (fun _ => 1700000000%Z)
    sts
    (fun _ => Ok tt)
    (fun session => roles_of (aws_access_key_id session))
    (fun accounts => List.rev accounts)
    (fun _ => Ok tt).

(** The same provider with a directory that cannot be reached *)
Definition unreachable_directory : Cloud :=
  mkCloud
    [Raise (ClientError "Could not connect to the endpoint URL")]
    (sts_client cloud) (int_time cloud) (assume_role cloud) (iam_client cloud)
    (list_roles_paginator cloud) (completion_order cloud) (write_csv cloud).

(** The session the scanner obtains in an account *)
Definition session_of (a : Account) : Session :=
  mkSession (Id a) "secret" "token".

(** The world a fresh scanner is in once it has exchanged credentials there *)
Definition after_exchange (a : Account) : World :=
  snd (assume_role_in_account cloud default_scanner (Id a) fresh_world).

End Demo.

(** ** The worker pool, thread by thread

    [scan_all_accounts] above takes the workers one after the other, in the
    order in which they complete.  The module below follows the threads
    themselves: the lines of [worker] are separate steps of a thread, the steps
    of different threads interleave freely, and [with self.lock:] is the only
    synchronisation.  The requests of a task are sent when its thread runs
    line 157.  A reader is a thread that takes the same lock to look at the
    pair ([self.results], progress counter), as the lock's discipline asks of
    whoever looks at both; the code has no such thread, and what a thread that
    looks without the lock can find is whatever a pool reached holds. *)

Module Pool.

(** Where a worker stands in lines 157-163 *)
Inductive worker_pc : Type :=
| AtScan                               (* about to run line 157 *)
| AtLock (rs : list RoleInfo)          (* waiting at [with self.lock:] *)
| InLock (rs : list RoleInfo)          (* lock taken, about to run line 160 *)
| Extended (rs : list RoleInfo)        (* line 160 done, about to run line 161 *)
| Advanced (rs : list RoleInfo)        (* line 161 done, lock still held *)
| Returned (rs : list RoleInfo).       (* lock released, line 163 done *)

Inductive reader_pc : Type :=
| NotStarted
| Holding                                     (* lock taken *)
| SawRecords (rs : list RoleInfo)             (* has read [self.results] *)
| SawBoth (rs : list RoleInfo) (n : Z)        (* has read the counter too *)
| Finished (rs : list RoleInfo) (n : Z).      (* lock released *)

Inductive thread : Type :=
| Worker (account : Account) (pc : worker_pc)
| Reader (pc : reader_pc).

(** [published] is a history variable: the record sets in the order in which
    line 160 has appended them. *)
Record pool : Type := mkPool {
  shared : World;
  lock : option nat;
  threads : nat -> option thread;
  published : list (list RoleInfo)
}.

Definition update (ts : nat -> option thread) (i : nat) (t : thread)
    : nat -> option thread :=
  fun j => if Nat.eqb j i then Some t else ts j.

Section Steps.

Variable cloud : Cloud.
Variable self : Scanner.

Inductive step : pool -> pool -> Prop :=
| step_scan : forall p i account rs w',
    threads p i = Some (Worker account AtScan) ->
    scan_account_roles cloud self account (shared p) = (Ok rs, w') ->
    step p (mkPool w' (lock p)
              (update (threads p) i (Worker account (AtLock rs)))
              (published p))
| step_acquire : forall p i account rs,
    threads p i = Some (Worker account (AtLock rs)) ->
    lock p = None ->
    step p (mkPool (shared p) (Some i)
              (update (threads p) i (Worker account (InLock rs)))
              (published p))
| step_extend : forall p i account rs,
    threads p i = Some (Worker account (InLock rs)) ->
    step p (mkPool (snd (results_extend rs (shared p))) (lock p)
              (update (threads p) i (Worker account (Extended rs)))
              (published p ++ [rs]))
| step_advance : forall p i account rs,
    threads p i = Some (Worker account (Extended rs)) ->
    step p (mkPool (snd (progress_advance (shared p))) (lock p)
              (update (threads p) i (Worker account (Advanced rs)))
              (published p))
| step_release : forall p i account rs,
    threads p i = Some (Worker account (Advanced rs)) ->
    step p (mkPool (shared p) None
              (update (threads p) i (Worker account (Returned rs)))
              (published p))
| step_reader_acquire : forall p i,
    threads p i = Some (Reader NotStarted) ->
    lock p = None ->
    step p (mkPool (shared p) (Some i)
              (update (threads p) i (Reader Holding))
              (published p))
| step_read_records : forall p i,
    threads p i = Some (Reader Holding) ->
    step p (mkPool (shared p) (lock p)
              (update (threads p) i (Reader (SawRecords (results (shared p)))))
              (published p))
| step_read_counter : forall p i rs,
    threads p i = Some (Reader (SawRecords rs)) ->
    step p (mkPool (shared p) (lock p)
              (update (threads p) i (Reader (SawBoth rs (progress (shared p)))))
              (published p))
| step_reader_release : forall p i rs n,
    threads p i = Some (Reader (SawBoth rs n)) ->
    step p (mkPool (shared p) None
              (update (threads p) i (Reader (Finished rs n)))
              (published p)).

Inductive reachable (p0 : pool) : pool -> Prop :=
| reachable_refl : reachable p0 p0
| reachable_step : forall p p', reachable p0 p -> step p p' -> reachable p0 p'.

End Steps.

(** The step of thread [i], when it has one to take: the step relation as a
    function of the scheduler's choice *)
Definition fire (cloud : Cloud) (self : Scanner) (p : pool) (i : nat)
    : option pool :=
  let moved t := update (threads p) i t in
  match threads p i with
  | Some (Worker account AtScan) =>
      match scan_account_roles cloud self account (shared p) with
      | (Ok rs, w') =>
          Some (mkPool w' (lock p) (moved (Worker account (AtLock rs)))
                  (published p))
      | (Raise _, _) => None
      end
  | Some (Worker account (AtLock rs)) =>
      match lock p with
      | None =>
          Some (mkPool (shared p) (Some i) (moved (Worker account (InLock rs)))
                  (published p))
      | Some _ => None
      end
  | Some (Worker account (InLock rs)) =>
      Some (mkPool (snd (results_extend rs (shared p))) (lock p)
              (moved (Worker account (Extended rs))) (published p ++ [rs]))
  | Some (Worker account (Extended rs)) =>
      Some (mkPool (snd (progress_advance (shared p))) (lock p)
              (moved (Worker account (Advanced rs))) (published p))
  | Some (Worker account (Advanced rs)) =>
      Some (mkPool (shared p) None (moved (Worker account (Returned rs)))
              (published p))
  | Some (Reader NotStarted) =>
      match lock p with
      | None =>
          Some (mkPool (shared p) (Some i) (moved (Reader Holding))
                  (published p))
      | Some _ => None
      end
  | Some (Reader Holding) =>
      Some (mkPool (shared p) (lock p)
              (moved (Reader (SawRecords (results (shared p))))) (published p))
  | Some (Reader (SawRecords rs)) =>
      Some (mkPool (shared p) (lock p)
              (moved (Reader (SawBoth rs (progress (shared p))))) (published p))
  | Some (Reader (SawBoth rs n)) =>
      Some (mkPool (shared p) None (moved (Reader (Finished rs n)))
              (published p))
  | Some (Worker _ (Returned _)) | Some (Reader (Finished _ _)) | None => None
  end.

(** The pool after the threads named by [schedule] have each taken a step, in
    that order; [None] when one of them has no step to take *)
Fixpoint run (cloud : Cloud) (self : Scanner) (schedule : list nat) (p : pool)
    : option pool :=
  match schedule with
  | [] => Some p
  | i :: rest =>
      match fire cloud self p i with
      | Some p' => run cloud self rest p'
      | None => None
      end
  end.

(** A pool that has not started: nobody holds the lock, nothing is published,
    every thread is at its first line. *)
Definition not_started (t : thread) : bool :=
  match t with
  | Worker _ AtScan | Reader NotStarted => true
  | _ => false
  end.

Definition initial (p : pool) : Prop :=
  lock p = None /\ published p = [] /\
  forall i t, threads p i = Some t -> not_started t = true.

(** Inside [with self.lock:] *)
Definition in_lock (t : thread) : bool :=
  match t with
  | Worker _ (InLock _) | Worker _ (Extended _) | Worker _ (Advanced _) => true
  | Reader Holding | Reader (SawRecords _) | Reader (SawBoth _ _) => true
  | _ => false
  end.

(** The pair a reader has seen holds the first [k] published record sets and
    counts [k] completions. *)
Definition consistent_pair (p0 p : pool) (rs : list RoleInfo) (n : Z) : Prop :=
  exists k, k <= length (published p) /\
    rs = results (shared p0) ++ concat (firstn k (published p)) /\
    n = (progress (shared p0) + Z.of_nat k)%Z.

Definition is_extended (t : thread) : bool :=
  match t with
  | Worker _ (Extended _) => true
  | _ => false
  end.

(** The holder of the lock has appended its records and not yet advanced the
    counter. *)
Definition between_updates (p : pool) : bool :=
  match lock p with
  | Some i =>
      match threads p i with
      | Some t => is_extended t
      | None => false
      end
  | None => false
  end.

(** The records a worker carries once line 157 has returned *)
Definition carried (pc : worker_pc) : option (list RoleInfo) :=
  match pc with
  | AtScan => None
  | AtLock rs | InLock rs | Extended rs | Advanced rs | Returned rs => Some rs
  end.

(** The records a worker has appended once line 160 is done *)
Definition appended (pc : worker_pc) : option (list RoleInfo) :=
  match pc with
  | Extended rs | Advanced rs | Returned rs => Some rs
  | _ => None
  end.

(** What holds of every pool reached from [p0] *)
Record invariant (cloud : Cloud) (self : Scanner) (p0 p : pool) : Prop := {
  inv_holder : forall i t,
    threads p i = Some t -> in_lock t = true -> lock p = Some i;
  inv_held : forall i,
    lock p = Some i -> exists t, threads p i = Some t /\ in_lock t = true;
  inv_results :
    results (shared p) = results (shared p0) ++ concat (published p);
  inv_progress :
    (progress (shared p) + (if between_updates p then 1 else 0)
     = progress (shared p0) + Z.of_nat (length (published p)))%Z;
  inv_saw_records : forall i rs,
    threads p i = Some (Reader (SawRecords rs)) -> rs = results (shared p);
  inv_saw_both : forall i rs n,
    threads p i = Some (Reader (SawBoth rs n)) ->
    rs = results (shared p) /\ n = progress (shared p);
  inv_finished : forall i rs n,
    threads p i = Some (Reader (Finished rs n)) -> consistent_pair p0 p rs n;
  inv_carried : forall i account pc rs,
    threads p i = Some (Worker account pc) -> carried pc = Some rs ->
    rs = account_records cloud self account;
  inv_appended : forall i account pc rs,
    threads p i = Some (Worker account pc) -> appended pc = Some rs ->
    In rs (published p)
}.

End Pool.

(** A pool of two workers and a reader over the provider of [Demo].  In
    [interleaved] the reader looks at the pair between the two workers'
    critical sections, the second of which is left half way, after line 160
    and before line 161. *)
Module PoolDemo.

Definition start : Pool.pool :=
  Pool.mkPool fresh_world None
    (fun i =>
       match i with
       | 0 => Some (Pool.Worker Demo.compliant Pool.AtScan)
       | 1 => Some (Pool.Worker Demo.denied Pool.AtScan)
       | 2 => Some (Pool.Reader Pool.NotStarted)
       | _ => None
       end)
    [].

Definition interleaved : list nat :=
  [0; 1; 0; 0; 0; 0; 2; 2; 2; 2; 1; 1].

End PoolDemo.

(** ** Vocabulary of the further properties *)

Definition is_assume_role (c : Call) : bool :=
  match c with
  | AssumeRole _ _ => true
  | _ => false
  end.

(** The account a directory entry stands for, when the entry is active and
    has its three keys *)
Definition active_account (r : RawAccount) : list Account :=
  match raw_Status r, raw_Id r, raw_Name r, raw_Email r with
  | Some status, Some id, Some name, Some email =>
      if String.eqb status "ACTIVE" then [mkAccount id name email] else []
  | _, _, _, _ => []
  end.

(** An entry the listing can take in: it has a status and, when the status is
    ["ACTIVE"], the three keys the listing copies *)
Definition well_listed (r : RawAccount) : bool :=
  match raw_Status r with
  | None => false
  | Some status =>
      if String.eqb status "ACTIVE" then
        match raw_Id r, raw_Name r, raw_Email r with
        | Some _, Some _, Some _ => true
        | _, _, _ => false
        end
      else true
  end.

(** The key whose absence stops the listing at an entry that is not
    [well_listed] *)
Definition unlisted_key (r : RawAccount) : string :=
  match raw_Status r, raw_Id r, raw_Name r with
  | None, _, _ => "Status"
  | Some _, None, _ => "Id"
  | Some _, Some _, None => "Name"
  | Some _, Some _, Some _ => "Email"
  end.

Definition accounts_page (entries : list RawAccount) : result AccountsPage :=
  Ok (mkAccountsPage (Some entries)).

(** The key a role lacks, if any, among those the inner loop reads *)
Definition missing_key (role : Role) : option string :=
  match RoleName role, PermissionsBoundary role with
  | None, _ => Some "RoleName"
  | Some _, Some (mkBoundary None) => Some "PermissionsBoundaryArn"
  | Some _, _ => None
  end.

(** ** More providers *)

Module Sample.

(** The provider of [Demo] with another directory *)
Definition with_directory (pages : list (result AccountsPage)) : Cloud :=
  mkCloud pages
    (sts_client Demo.cloud) (int_time Demo.cloud) (assume_role Demo.cloud)
    (iam_client Demo.cloud) (list_roles_paginator Demo.cloud)
    (completion_order Demo.cloud) (write_csv Demo.cloud).

(** The provider of [Demo] with other roles in every account *)
Definition with_roles (pages : list (result RolesPage)) : Cloud :=
  mkCloud (list_accounts_paginator Demo.cloud)
    (sts_client Demo.cloud) (int_time Demo.cloud) (assume_role Demo.cloud)
    (iam_client Demo.cloud) (fun _ => pages)
    (completion_order Demo.cloud) (write_csv Demo.cloud).

Definition no_mail : RawAccount :=
  mkRawAccount (Some "ACTIVE") (Some "666666666666") (Some "no-mail") None.

End Sample.

(** Two records with the same sort key *)
Definition same_key (x y : RoleInfo) : bool :=
  String.eqb (account_id x) (account_id y)
  && String.eqb (role_name x) (role_name y).

(** The order of the rows of a report *)
Definition key_le (x y : RoleInfo) : Prop := key_leb x y = true.


(** The delegation into an account is refused, or fails in any other way *)
Definition delegation_denied (cloud : Cloud) (self : Scanner)
    (account : Account) : bool :=
  match fst (assume_role_in_account cloud self (Id account) fresh_world) with
  | Ok (Some _) => false
  | _ => true
  end.

(** ** [main] (lines 290-308) *)

(** [AWSAccountScanner(...)]: the collection of a new scanner is empty. *)
Definition new_scanner : M unit :=
  fun w => (Ok tt, mkWorld [] (progress w) (calls w) (console w)).

(** The line [main] prints last: that the scan completed, or that it failed or
    found nothing *)
Inductive Verdict : Type :=
| ScanCompleted
| ScanFailedOrEmpty.

(** [main]; its banner is left out, and its last line is the value returned. *)
Definition main (cloud : Cloud) : M Verdict :=
  new_scanner ;;;
  results <- scan_all_accounts cloud
               (mkScanner "syf-Sandbox-permission-boundary"
                  "ca-iam-cie-engineer") 50 ;;
  if truthy results then ret ScanCompleted else ret ScanFailedOrEmpty.

Module Sample2.

(** The provider of [Demo] with every delegation refused *)
Definition all_denied : Cloud :=
  mkCloud (list_accounts_paginator Demo.cloud)
    (sts_client Demo.cloud) (int_time Demo.cloud)
    (fun _ _ => Raise (ClientError "AccessDenied"))
    (iam_client Demo.cloud) (list_roles_paginator Demo.cloud)
    (completion_order Demo.cloud) (write_csv Demo.cloud).

End Sample2.

(** ** More vocabulary for the pool *)

(** A thread that has run to its end *)
Definition thread_finished (t : Pool.thread) : bool :=
  match t with
  | Pool.Worker _ (Pool.Returned _) | Pool.Reader (Pool.Finished _ _) => true
  | _ => false
  end.

(** The account a thread works on, if it is a worker *)
Definition worker_account (t : option Pool.thread) : list Account :=
  match t with
  | Some (Pool.Worker account _) => [account]
  | _ => []
  end.

(** The accounts of the workers among the threads [0 .. n-1] *)
Definition pool_accounts (p : Pool.pool) (n : nat) : list Account :=
  flat_map (fun i => worker_account (Pool.threads p i)) (seq 0 n).

(** A worker that has run line 160 *)
Definition has_appended (t : option Pool.thread) : bool :=
  match t with
  | Some (Pool.Worker _ pc) =>
      match Pool.appended pc with
      | Some _ => true
      | None => false
      end
  | _ => false
  end.

(** The record sets published are those of the workers named by [order], one
    for each, and these are the workers that have run line 160. *)
Definition published_once (cloud : Cloud) (self : Scanner) (p0 p : Pool.pool)
    : Prop :=
  (forall i, worker_account (Pool.threads p i)
             = worker_account (Pool.threads p0 i)) /\
  exists order,
    NoDup order /\
    Pool.published p
    = flat_map (fun i => map (account_records cloud self)
                           (worker_account (Pool.threads p0 i))) order /\
    forall i, In i order <-> has_appended (Pool.threads p i) = true.

(** ** The console of rich

    [console.print] hands its text to rich, which reads the square-bracket
    markup of the text before it writes anything and raises [MarkupError] when
    it cannot read it; a closing tag that matches no open tag is such a text.
    The methods above are the scanner over a console that takes every line it
    is given.  The module below has the methods that print once more, line by
    line as before, over rich's console.

    Which texts rich can read is for rich to say, and its answer is a
    parameter here: [line_error m] is [None] when rich renders the line that
    [console.print] makes of [m] and the text of the [MarkupError] otherwise,
    and [table_error target rows] is its answer to the table of line 168,
    whose title quotes [target], with these cells.  A line made of fixed text,
    of numbers and of the time stamp of the report file has no markup that
    could go wrong: it always renders. *)
Record Markup : Type := mkMarkup {
  line_error : Message -> option string;
  table_error : string -> list RoleInfo -> option string
}.

Module Rich.

Section Methods.

Variable rich : Markup.
Variable cloud : Cloud.
Variable self : Scanner.

(** rich's answer to a line of this scanner; the title of its table is that of
    line 168. *)
Definition markup_error (m : Message) : option string :=
  match m with
  | FetchingAccounts | FoundAccounts _ | NoAccountsFound | StartingScan _ _
  | ScanSummary _ _ _ _ | ResultsSaved => None
  | ErrorFetchingAccounts _ | TargetBoundary _ | AssumingRole _
  | ErrorProcessingAccount _ _ | ErrorSavingCsv _ => line_error rich m
  | ResultsTable rows => table_error rich (target_permission_boundary self) rows
  end.

(** [console.print(...)]: the line is written when rich can read it, and
    nothing is written when it cannot. *)
Definition console_print (m : Message) : M unit :=
  match markup_error m with
  | None => console_print m
  | Some message => raise (MarkupError message)
  end.

(** [get_all_active_accounts] (lines 42-64) *)
Definition get_all_active_accounts : M (list Account) :=
  try_except
    (console_print FetchingAccounts ;;;
     accounts <- paginate_accounts (list_accounts_paginator cloud) [] ;;
     console_print (FoundAccounts (length accounts)) ;;;
     ret accounts)
    (fun e =>
       console_print (ErrorFetchingAccounts (str_exn e)) ;;;
       ret []).

(** [save_to_csv] (lines 196-223) *)
Definition save_to_csv : M bool :=
  try_except
    (rs <- get_results ;;
     lift (write_csv cloud (sorted_by_key rs)) ;;;
     console_print ResultsSaved ;;;
     ret true)
    (fun e => console_print (ErrorSavingCsv (str_exn e)) ;;; ret false).

(** Lines 258-263 *)
Fixpoint run_workers (completed : list Account) : M unit :=
  match completed with
  | [] => ret tt
  | account :: rest =>
      try_except (worker cloud self account ;;; ret tt)
        (fun e => console_print
                    (ErrorProcessingAccount (Id account) (str_exn e))) ;;;
      run_workers rest
  end.

(** [scan_all_accounts] (lines 225-288) *)
Definition scan_all_accounts (max_workers : Z) : M (option (list RoleInfo)) :=
  accounts <- get_all_active_accounts ;;
  match accounts with
  | [] => console_print NoAccountsFound ;;; ret None
  | _ :: _ =>
      console_print (StartingScan (length accounts) max_workers) ;;;
      console_print (TargetBoundary (target_permission_boundary self)) ;;;
      console_print (AssumingRole (role_to_assume self)) ;;;
      progress_add_task ;;;
      thread_pool_executor max_workers ;;;
      run_workers (completion_order cloud accounts) ;;;
      table <- create_results_table ;;
      console_print (ResultsTable table) ;;;
      rs <- get_results ;;
      console_print
        (ScanSummary (length accounts)
           (count_status (fun s => negb (String.eqb s "N/A")) rs)
           (length rs)
           (count_status (fun s => String.eqb s "Exists") rs)) ;;;
      save_to_csv ;;;
      rs <- get_results ;;
      ret (Some rs)
  end.

End Methods.

(** [main] (lines 290-308), once its scanner is built; its banner is fixed
    text, and its last line is the value returned. *)
Definition main (rich : Markup) (cloud : Cloud) : M Verdict :=
  new_scanner ;;;
  results <- scan_all_accounts rich cloud
               (mkScanner "syf-Sandbox-permission-boundary"
                  "ca-iam-cie-engineer") 50 ;;
  if truthy results then ret ScanCompleted else ret ScanFailedOrEmpty.

End Rich.

(** A console on which every line renders *)
Definition every_line : Markup := mkMarkup (fun _ => None) (fun _ _ => None).

(** [m'] does what [m] does, unless rich refuses a line on the way and its
    [MarkupError] escapes. *)
Definition same_or_refused {A : Type} (m' m : M A) : Prop :=
  forall w,
    m' w = m w \/ exists message w', m' w = (Raise (MarkupError message), w').

(** The records the collection holds once the workers of a run are done *)
Definition run_records (cloud : Cloud) (self : Scanner) (w : World)
    : list RoleInfo :=
  results w ++ flat_map (account_records cloud self)
                 (completion_order cloud (active_accounts cloud)).

(** rich renders the lines of a run of [scan_all_accounts] that carry text:
    the two names it announces, the table of the report and, when the report
    file cannot be written, the line about it. *)
Definition renders_run (rich : Markup) (cloud : Cloud) (self : Scanner)
    (w : World) : Prop :=
  line_error rich (TargetBoundary (target_permission_boundary self)) = None /\
  line_error rich (AssumingRole (role_to_assume self)) = None /\
  table_error rich (target_permission_boundary self)
    (map table_row (sorted_by_key (run_records cloud self w))) = None /\
  forall e,
    write_csv cloud (sorted_by_key (run_records cloud self w)) = Raise e ->
    line_error rich (ErrorSavingCsv (str_exn e)) = None.

(** ** A directory failure whose text closes a tag

    The directory of [Tagged.cloud] cannot be listed, and the text of the
    failure holds [[/organizations]], a closing tag that nothing opened.
    [Tagged.rich] is what rich answers to the lines of the providers of this
    file: it refuses the line about this failure, at the tag, and renders the
    other lines, whose texts hold no square bracket. *)
Module Tagged.

Definition text : string := "proxy [/organizations] refused the connection".

Definition cloud : Cloud := Sample.with_directory [Raise (ClientError text)].

Definition rich : Markup :=
  mkMarkup
    (fun m =>
       match m with
       | ErrorFetchingAccounts e =>
           if String.eqb e text
           then Some "closing tag '[/organizations]' at position 38 doesn't match any open tag"
           else None
       | _ => None
       end)
    (fun _ _ => None).

End Tagged.

(** ** The requests of the pool *)


(** The credential exchange the task of an account asks for *)
Definition exchange_of (cloud : Cloud) (self : Scanner) (account : Account)
    : Call :=
  AssumeRole (role_arn_of self (Id account))
    (role_session_name cloud (Id account)).


(** * Properties *)

Unset Implicit Arguments.

(** ** Strings *)

Lemma split_nonempty (sep : ascii) (s : string) : split sep s <> [].
Proof.
  destruct s as [|c s]; simpl; [discriminate|].
  destruct (Ascii.eqb c sep); [discriminate|].
  destruct (split sep s); discriminate.
Qed.

Lemma split_without_slash (s : string) :
  has_slash s = false -> split "/" s = [s].
Proof.
  induction s as [|c s IH]; simpl; [reflexivity|].
  intros H. apply orb_false_iff in H. destruct H as [Hc Hs].
  rewrite Hc, (IH Hs). reflexivity.
Qed.

Lemma split_with_slash (s : string) :
  has_slash s = true ->
  exists seg seg' segs, split "/" s = seg :: seg' :: segs.
Proof.
  induction s as [|c s IH]; simpl; [discriminate|].
  intros H. destruct (Ascii.eqb c "/") eqn:Hc.
  - destruct (split "/" s) as [|seg' segs] eqn:Hs.
    + exfalso. exact (split_nonempty _ _ Hs).
    + now exists EmptyString, seg', segs.
  - simpl in H. destruct (IH H) as (seg & seg' & segs & ->).
    now exists (String c seg), seg', segs.
Qed.

Lemma boundary_name_trailing_segment (s : string) :
  boundary_name s = trailing_segment s.
Proof.
  unfold boundary_name, last_item.
  induction s as [|c s IH]; [reflexivity|].
  cbn [split trailing_segment].
  destruct (has_slash s) eqn:Hs.
  - destruct (split_with_slash s Hs) as (seg & seg' & segs & E).
    rewrite E in *. rewrite <- IH.
    destruct (Ascii.eqb c "/"); reflexivity.
  - rewrite (split_without_slash s Hs).
    destruct (Ascii.eqb c "/"); reflexivity.
Qed.

Lemma has_slash_app (s t : string) :
  has_slash (s ++ t)%string = has_slash s || has_slash t.
Proof.
  induction s as [|c s IH]; simpl; [reflexivity|].
  rewrite IH. now rewrite orb_assoc.
Qed.

Lemma trailing_segment_without_slash (s : string) :
  has_slash s = false -> trailing_segment s = s.
Proof.
  destruct s as [|c s]; simpl; [reflexivity|].
  intros H. apply orb_false_iff in H. destruct H as [Hc Hs].
  now rewrite Hs, Hc.
Qed.

Lemma trailing_segment_after_slash (pre x : string) :
  has_slash x = false -> trailing_segment (pre ++ "/" ++ x)%string = x.
Proof.
  intros Hx. induction pre as [|c pre IH]; simpl.
  - now rewrite Hx.
  - rewrite has_slash_app. simpl. rewrite orb_true_r. simpl. exact IH.
Qed.

(** ** The classifier *)

(** C2: the classifier is a function of the boundary reference and the target
    alone; an absent reference never matches; a reference matches exactly when
    what follows its last ['/'] is the target, character for character: one
    that ends in ["/" ++ x] matches [x], one that ends in another short name
    [y] does not. *)
Theorem classify_short_name (pre x y target : string)
    (Hx : has_slash x = false) (Hy : has_slash y = false) (Hyx : y <> x) :
  classify None target = false /\
  classify (Some (pre ++ "/" ++ x)%string) x = true /\
  classify (Some (pre ++ "/" ++ y)%string) x = false /\
  (forall ref, classify (Some ref) target
               = String.eqb (trailing_segment ref) target).
Proof.
  unfold classify. repeat split.
  - rewrite boundary_name_trailing_segment, trailing_segment_after_slash by exact Hx.
    apply String.eqb_refl.
  - rewrite boundary_name_trailing_segment, trailing_segment_after_slash by exact Hy.
    now apply String.eqb_neq.
  - intros ref. now rewrite boundary_name_trailing_segment.
Qed.

Lemma classify_short_name_witness :
  classify None "X" = false /\
  classify (Some ("arn:aws:iam::123456789012:policy" ++ "/" ++ "X")%string) "X" = true /\
  classify (Some ("arn:aws:iam::123456789012:policy" ++ "/" ++ "x")%string) "X" = false /\
  (forall ref, classify (Some ref) "X" = String.eqb (trailing_segment ref) "X").
Proof.
  apply (classify_short_name "arn:aws:iam::123456789012:policy" "X" "x" "X");
    [reflexivity | reflexivity | discriminate].
Defined.

Example demo_directory :
  active_accounts Demo.cloud
  = [Demo.denied; Demo.missing; Demo.compliant; Demo.failing].
Proof. reflexivity. Qed.

Example demo_denied :
  account_records Demo.cloud default_scanner Demo.denied
  = [mkRoleInfo "111111111111" "sandbox-a" "ACCESS_DENIED" "N/A"].
Proof. reflexivity. Qed.

Example demo_missing :
  account_records Demo.cloud default_scanner Demo.missing
  = [mkRoleInfo "222222222222" "sandbox-b"
       "NO_ROLES_WITH_BOUNDARY (5 total roles)" "Missing"].
Proof. reflexivity. Qed.

Example demo_compliant :
  account_records Demo.cloud default_scanner Demo.compliant
  = [mkRoleInfo "333333333333" "sandbox-c" "sandbox-dev" "Exists"].
Proof. reflexivity. Qed.

Example demo_failing :
  account_records Demo.cloud default_scanner Demo.failing
  = [mkRoleInfo "444444444444" "sandbox-d"
       "ERROR: An error occurred (Throttling) when calling the Li..." "Error"].
Proof. reflexivity. Qed.

Example demo_run :
  fst (scan_all_accounts Demo.cloud default_scanner 50 fresh_world)
  = Ok (Some [mkRoleInfo "444444444444" "sandbox-d"
                "ERROR: An error occurred (Throttling) when calling the Li..." "Error";
              mkRoleInfo "333333333333" "sandbox-c" "sandbox-dev" "Exists";
              mkRoleInfo "222222222222" "sandbox-b"
                "NO_ROLES_WITH_BOUNDARY (5 total roles)" "Missing";
              mkRoleInfo "111111111111" "sandbox-a" "ACCESS_DENIED" "N/A"]).
Proof. reflexivity. Qed.

(** ** Worlds and computations *)

Lemma with_calls_nil (w : World) : with_calls w [] = w.
Proof. destruct w; unfold with_calls; simpl. now rewrite app_nil_r. Qed.

Lemma with_calls_app (w : World) (cs cs' : list Call) :
  with_calls (with_calls w cs) cs' = with_calls w (cs ++ cs').
Proof. unfold with_calls; simpl. now rewrite app_assoc. Qed.

Lemma request_with_calls (c : Call) (w : World) :
  request c w = (Ok tt, with_calls w [c]).
Proof. reflexivity. Qed.

Lemma bind_ok {A B : Type} (m : M A) (k : A -> M B) (w w1 : World) (a : A) :
  m w = (Ok a, w1) -> bind m k w = k a w1.
Proof. intros H. unfold bind. now rewrite H. Qed.

Ltac unfold_m :=
  unfold bind, ret, raise, lift, try_except, getitem in *.

(** ** [assume_role_in_account] *)

Lemma assume_role_in_account_eq (cloud : Cloud) (self : Scanner)
    (id : string) (w : World) :
  assume_role_in_account cloud self id w =
  match sts_client cloud with
  | Raise _ => (Ok None, w)
  | Ok _ =>
      (Ok match assume_role cloud (role_arn_of self id) (role_session_name cloud id) with
          | Ok response => session_of_response response
          | Raise _ => None
          end,
       with_calls w [AssumeRole (role_arn_of self id) (role_session_name cloud id)])
  end.
Proof.
  unfold assume_role_in_account, session_of_response. unfold_m.
  destruct (sts_client cloud); [|reflexivity].
  rewrite request_with_calls.
  destruct (assume_role cloud _ _) as [[[[[k|] [s|] [t|]]|]]|]; reflexivity.
Qed.

(** ** The enumeration loops *)

Lemma boundary_reference_world (role : Role) (w : World) :
  snd (boundary_reference role w) = w.
Proof.
  unfold boundary_reference. unfold_m.
  destruct (PermissionsBoundary role) as [[[arn|]]|]; reflexivity.
Qed.

(** The inner loop sends no request and touches nothing of the world. *)
Lemma scan_roles_world (self : Scanner) (account : Account) (roles : list Role) :
  forall rwb total w, snd (scan_roles self account roles rwb total w) = w.
Proof.
  induction roles as [|role roles IH]; intros rwb total w; [reflexivity|].
  cbn [scan_roles]. unfold_m.
  destruct (RoleName role) as [name|]; [|reflexivity].
  pose proof (boundary_reference_world role w) as Hb.
  destruct (boundary_reference role w) as [[b|e] w1]; simpl in Hb; subst w1;
    [|reflexivity].
  destruct (classify b _); apply IH.
Qed.

(** The outer loop only adds page requests for the account's own session. *)
Lemma scan_pages_world (self : Scanner) (account : Account) (session : Session)
    (pages : list (result RolesPage)) :
  forall rwb total w, exists n,
    snd (scan_pages self account session pages rwb total w)
    = with_calls w (repeat (ListRolesPage session) n).
Proof.
  induction pages as [|fetch pages IH]; intros rwb total w.
  - exists 0. simpl. now rewrite with_calls_nil.
  - cbn [scan_pages]. unfold bind at 1. rewrite request_with_calls.
    unfold_m.
    destruct fetch as [[[roles|]]|e]; try (now exists 1).
    cbn [Roles].
    pose proof (scan_roles_world self account roles rwb total
                  (with_calls w [ListRolesPage session])) as Hr.
    destruct (scan_roles self account roles rwb total _) as [[acc|e] w1];
      simpl in Hr; subst w1; [|now exists 1].
    destruct (IH (fst acc) (snd acc) (with_calls w [ListRolesPage session]))
      as [n Hn].
    exists (S n). rewrite Hn, with_calls_app. reflexivity.
Qed.

Lemma scan_roles_exists (self : Scanner) (account : Account) (roles : list Role) :
  forall rwb total w acc w',
    Forall (exists_for account) rwb ->
    scan_roles self account roles rwb total w = (Ok acc, w') ->
    Forall (exists_for account) (fst acc).
Proof.
  induction roles as [|role roles IH]; intros rwb total w acc w' Hrwb H.
  - cbn in H. injection H as <- _. exact Hrwb.
  - cbn [scan_roles] in H. unfold_m.
    destruct (RoleName role) as [name|]; [|discriminate].
    destruct (boundary_reference role w) as [[b|e] w1]; [|discriminate].
    destruct (classify b _).
    + eapply IH; [|exact H]. apply Forall_app. split; [exact Hrwb|].
      constructor; [|constructor]. now split.
    + eapply IH; [exact Hrwb|exact H].
Qed.

Lemma scan_pages_exists (self : Scanner) (account : Account) (session : Session)
    (pages : list (result RolesPage)) :
  forall rwb total w acc w',
    Forall (exists_for account) rwb ->
    scan_pages self account session pages rwb total w = (Ok acc, w') ->
    Forall (exists_for account) (fst acc).
Proof.
  induction pages as [|fetch pages IH]; intros rwb total w acc w' Hrwb H.
  - cbn in H. injection H as <- _. exact Hrwb.
  - cbn [scan_pages] in H. unfold bind at 1 in H. rewrite request_with_calls in H.
    unfold_m.
    destruct fetch as [[[roles|]]|e]; try discriminate.
    cbn [Roles] in H.
    destruct (scan_roles self account roles rwb total _) as [[acc1|e] w1] eqn:E;
      [|discriminate].
    eapply IH; [|exact H]. eapply scan_roles_exists; [exact Hrwb|exact E].
Qed.

(** On a well-formed enumeration the loops keep the matching roles, in the
    order listed, and count every role. *)
Lemma scan_roles_listed (self : Scanner) (account : Account)
    (rs : list (string * option string)) :
  forall rwb total w,
    scan_roles self account (map listed_role rs) rwb total w
    = (Ok (rwb ++ map (exists_record account) (matching_roles self rs),
           (total + Z.of_nat (length rs))%Z), w).
Proof.
  induction rs as [|[name b] rs IH]; intros rwb total w.
  - cbn. now rewrite app_nil_r, Z.add_0_r.
  - cbn [map scan_roles listed_role fst snd RoleName]. unfold_m. cbn [RoleName].
    assert (Hb : boundary_reference (listed_role (name, b)) w = (Ok b, w))
      by (destruct b; reflexivity).
    rewrite Hb. unfold matching_roles. cbn [filter snd].
    assert (E : (total + 1 + Z.of_nat (length rs)
                 = total + Z.of_nat (length ((name, b) :: rs)))%Z)
      by (cbn [length]; lia).
    destruct (classify b _); rewrite IH, E; [|reflexivity].
    cbn [map]. now rewrite <- app_assoc.
Qed.

Lemma scan_pages_listed (self : Scanner) (account : Account) (session : Session)
    (pages : list (list (string * option string))) :
  forall rwb total w,
    scan_pages self account session (map listed_page pages) rwb total w
    = (Ok (rwb ++ map (exists_record account)
                      (matching_roles self (concat pages)),
           (total + Z.of_nat (length (concat pages)))%Z),
       with_calls w (repeat (ListRolesPage session) (length pages))).
Proof.
  induction pages as [|page pages IH]; intros rwb total w.
  - cbn. now rewrite app_nil_r, Z.add_0_r, with_calls_nil.
  - cbn [map scan_pages listed_page]. unfold bind at 1.
    rewrite request_with_calls. unfold_m. unfold listed_page at 1. cbn [Roles].
    rewrite scan_roles_listed. cbn [fst snd]. rewrite IH.
    rewrite with_calls_app. cbn [concat length repeat app].
    unfold matching_roles. rewrite filter_app, map_app, length_app, <- app_assoc.
    rewrite Nat2Z.inj_add, Z.add_assoc. reflexivity.
Qed.

(** ** [scan_account_roles], outcome by outcome *)

Section Task.

Variable cloud : Cloud.
Variable self : Scanner.
Variable account : Account.

Lemma scan_denied (w w1 : World) :
  assume_role_in_account cloud self (Id account) w = (Ok None, w1) ->
  scan_account_roles cloud self account w
  = (Ok [access_denied_record account], w1).
Proof.
  intros H. unfold scan_account_roles, scan_account_roles_try. unfold_m.
  now rewrite H.
Qed.

Lemma scan_client_error (w w1 : World) (session : Session) (e : exn) :
  assume_role_in_account cloud self (Id account) w = (Ok (Some session), w1) ->
  iam_client cloud session = Raise e ->
  scan_account_roles cloud self account w = (Ok [error_record account e], w1).
Proof.
  intros H He. unfold scan_account_roles, scan_account_roles_try. unfold_m.
  now rewrite H, He.
Qed.

Lemma scan_enumeration_error (w w1 w2 : World) (session : Session) (e : exn) :
  assume_role_in_account cloud self (Id account) w = (Ok (Some session), w1) ->
  iam_client cloud session = Ok tt ->
  scan_pages self account session (list_roles_paginator cloud session) [] 0 w1
  = (Raise e, w2) ->
  scan_account_roles cloud self account w = (Ok [error_record account e], w2).
Proof.
  intros H Hc He. unfold scan_account_roles, scan_account_roles_try. unfold_m.
  now rewrite H, Hc, He.
Qed.

Lemma scan_enumeration_ok (w w1 w2 : World) (session : Session)
    (acc : list RoleInfo * Z) :
  assume_role_in_account cloud self (Id account) w = (Ok (Some session), w1) ->
  iam_client cloud session = Ok tt ->
  scan_pages self account session (list_roles_paginator cloud session) [] 0 w1
  = (Ok acc, w2) ->
  scan_account_roles cloud self account w
  = (Ok match fst acc with
        | [] => [missing_record account (snd acc)]
        | _ :: _ => fst acc
        end, w2).
Proof.
  intros H Hc Ha. unfold scan_account_roles, scan_account_roles_try. unfold_m.
  rewrite H, Hc, Ha. now destruct (fst acc).
Qed.

Lemma assume_role_in_account_ok (w : World) :
  exists o, assume_role_in_account cloud self (Id account) w
            = (Ok o, snd (assume_role_in_account cloud self (Id account) w)).
Proof.
  rewrite assume_role_in_account_eq.
  destruct (sts_client cloud); eexists; reflexivity.
Qed.

(** The shape of the record set, whatever happens in the account *)
Lemma scan_account_roles_shape (w : World) :
  exists rs w',
    scan_account_roles cloud self account w = (Ok rs, w') /\
    xorb (exists_records rs) (one_sentinel rs) = true /\
    Forall (fun r => account_id r = Id account) rs.
Proof.
  destruct (assume_role_in_account_ok w) as [[session|] Ha].
  - destruct (iam_client cloud session) as [[]|e] eqn:Hc.
    + destruct (scan_pages self account session
                  (list_roles_paginator cloud session) [] 0
                  (snd (assume_role_in_account cloud self (Id account) w)))
        as [[acc|e] w2] eqn:Hp.
      * pose proof (scan_pages_exists _ _ _ _ _ _ _ _ _ (Forall_nil _) Hp) as Hex.
        rewrite (scan_enumeration_ok _ _ _ _ _ Ha Hc Hp).
        do 2 eexists. split; [reflexivity|].
        destruct (fst acc) as [|r rs]; [now repeat constructor|].
        split.
        -- assert (Hall : forallb (status_is "Exists") (r :: rs) = true).
           { apply forallb_forall. intros x Hx.
             rewrite Forall_forall in Hex. destruct (Hex x Hx) as [Hs _].
             unfold status_is. rewrite Hs. reflexivity. }
           cbn [exists_records]. rewrite Hall.
           cbn [forallb] in Hall. apply andb_true_iff in Hall.
           destruct Hall as [Hr _]. unfold status_is in Hr.
           apply String.eqb_eq in Hr.
           destruct rs; [|reflexivity].
           cbn [one_sentinel]. unfold is_sentinel, status_is. now rewrite Hr.
        -- eapply Forall_impl; [|exact Hex]. now intros x [_ Hx].
      * rewrite (scan_enumeration_error _ _ _ _ _ Ha Hc Hp).
        do 2 eexists. split; [reflexivity|]. now repeat constructor.
    + rewrite (scan_client_error _ _ _ _ Ha Hc).
      do 2 eexists. split; [reflexivity|]. now repeat constructor.
  - rewrite (scan_denied _ _ Ha).
    do 2 eexists. split; [reflexivity|]. now repeat constructor.
Qed.

End Task.

(** ** Computations that only log *)

Lemma after_after (w d1 d2 : World) :
  after (after w d1) d2 = after w (after d1 d2).
Proof. unfold after; simpl. now rewrite !app_assoc. Qed.

Lemma log_only_ret {A : Type} (a : A) : log_only (ret a).
Proof.
  intros w. unfold ret, after; simpl. rewrite !app_nil_r. now destruct w.
Qed.

Lemma log_only_lift {A : Type} (r : result A) : log_only (lift r).
Proof.
  intros w. unfold lift, after; simpl. rewrite !app_nil_r. now destruct w.
Qed.

Lemma log_only_request (c : Call) : log_only (request c).
Proof. intros w. unfold request, after; simpl. now rewrite app_nil_r. Qed.

Lemma log_only_print (m : Message) : log_only (console_print m).
Proof. intros w. unfold console_print, after; simpl. now rewrite app_nil_r. Qed.

Lemma log_only_bind {A B : Type} (m : M A) (k : A -> M B) :
  log_only m -> (forall a, log_only (k a)) -> log_only (bind m k).
Proof.
  intros Hm Hk w. unfold bind.
  rewrite (Hm w). destruct (m fresh_world) as [[a|e] d1]; cbn [fst snd].
  - rewrite (Hk a (after w d1)), (Hk a d1). cbn [fst snd].
    now rewrite after_after.
  - reflexivity.
Qed.

Lemma log_only_try {A : Type} (m : M A) (h : exn -> M A) :
  log_only m -> (forall e, log_only (h e)) -> log_only (try_except m h).
Proof.
  intros Hm Hh w. unfold try_except.
  rewrite (Hm w). destruct (m fresh_world) as [[a|e] d1]; cbn [fst snd].
  - reflexivity.
  - rewrite (Hh e (after w d1)), (Hh e d1). cbn [fst snd].
    now rewrite after_after.
Qed.

Ltac log_only :=
  repeat first
    [ apply log_only_ret | apply log_only_lift | apply log_only_request
    | apply log_only_print
    | apply log_only_bind; [|intro]
    | apply log_only_try; [|intro]
    | match goal with |- log_only (if ?b then _ else _) => destruct b end
    | match goal with |- log_only (match ?x with _ => _ end) => destruct x end
    | assumption ].

Lemma log_only_append_active (raw : list RawAccount) :
  forall accounts, log_only (append_active raw accounts).
Proof.
  induction raw as [|r raw IH]; intros accounts; cbn [append_active]; log_only;
    apply IH.
Qed.

Lemma log_only_paginate_accounts (pages : list (result AccountsPage)) :
  forall accounts, log_only (paginate_accounts pages accounts).
Proof.
  induction pages as [|p pages IH]; intros accounts; cbn [paginate_accounts];
    log_only; [apply log_only_append_active | apply IH].
Qed.

Lemma log_only_get_all_active_accounts (cloud : Cloud) :
  log_only (get_all_active_accounts cloud).
Proof.
  unfold get_all_active_accounts. log_only. apply log_only_paginate_accounts.
Qed.


Lemma log_only_scan_roles (self : Scanner) (account : Account)
    (roles : list Role) :
  forall rwb total, log_only (scan_roles self account roles rwb total).
Proof.
  induction roles as [|r roles IH]; intros rwb total; cbn [scan_roles].
  - log_only.
  - unfold boundary_reference. log_only; apply IH.
Qed.

Lemma log_only_scan_pages (self : Scanner) (account : Account)
    (session : Session) (pages : list (result RolesPage)) :
  forall rwb total, log_only (scan_pages self account session pages rwb total).
Proof.
  induction pages as [|p pages IH]; intros rwb total; cbn [scan_pages];
    log_only; [apply log_only_scan_roles | apply IH].
Qed.

Lemma log_only_scan_account_roles (cloud : Cloud) (self : Scanner)
    (account : Account) :
  log_only (scan_account_roles cloud self account).
Proof.
  unfold scan_account_roles, scan_account_roles_try. log_only.
  apply log_only_scan_pages.
Qed.

(** ** Tasks, workers and runs as functions of the provider *)

Lemma scan_account_roles_eq (cloud : Cloud) (self : Scanner) (account : Account)
    (w : World) :
  scan_account_roles cloud self account w
  = (Ok (account_records cloud self account),
     after w (snd (scan_account_roles cloud self account fresh_world))).
Proof.
  rewrite (log_only_scan_account_roles cloud self account w).
  unfold account_records.
  destruct (scan_account_roles_shape cloud self account fresh_world)
    as (rs & w' & E & _).
  now rewrite E.
Qed.

Lemma account_records_shape (cloud : Cloud) (self : Scanner) (account : Account) :
  xorb (exists_records (account_records cloud self account))
       (one_sentinel (account_records cloud self account)) = true /\
  Forall (fun r => account_id r = Id account)
         (account_records cloud self account).
Proof.
  unfold account_records.
  destruct (scan_account_roles_shape cloud self account fresh_world)
    as (rs & w' & E & H).
  now rewrite E.
Qed.

Lemma get_all_active_accounts_eq (cloud : Cloud) (w : World) :
  get_all_active_accounts cloud w
  = (Ok (active_accounts cloud),
     after w (snd (get_all_active_accounts cloud fresh_world))).
Proof.
  rewrite (log_only_get_all_active_accounts cloud w).
  unfold active_accounts.
  assert (H : exists accounts,
             fst (get_all_active_accounts cloud fresh_world) = Ok accounts).
  { unfold get_all_active_accounts. unfold_m. cbn [console_print].
    destruct (paginate_accounts _ _ _) as [[accounts|e] w1]; eexists; reflexivity. }
  destruct H as [accounts H]. now rewrite H.
Qed.

Lemma worker_eq (cloud : Cloud) (self : Scanner) (account : Account) (w : World) :
  exists w',
    worker cloud self account w = (Ok (account_records cloud self account), w') /\
    results w' = results w ++ account_records cloud self account /\
    progress w' = (progress w + 1)%Z /\
    console w' = console w.
Proof.
  unfold worker, bind at 1. rewrite scan_account_roles_eq.
  eexists. split; [reflexivity|]. cbn.
  assert (Hc : console (snd (scan_account_roles cloud self account fresh_world)) = []).
  { destruct (scan_account_roles_shape cloud self account fresh_world)
      as (rs & w' & E & _).
    unfold scan_account_roles, scan_account_roles_try in *.
    revert E. unfold_m. rewrite assume_role_in_account_eq.
    destruct (sts_client cloud) as [[]|].
    - destruct (assume_role cloud _ _) as [response|e];
        [destruct (session_of_response response) as [session|]|].
      + destruct (iam_client cloud session); [|now intros [= <- <-]].
        destruct (scan_pages_world self account session
                    (list_roles_paginator cloud session) [] 0
                    (with_calls fresh_world
                       [AssumeRole (role_arn_of self (Id account))
                          (role_session_name cloud (Id account))])) as [n Hn].
        destruct (scan_pages _ _ _ _ _ _ _) as [[acc|e] w1]; cbn [snd] in Hn;
          subst w1; [destruct (fst acc)|]; now intros [= <- <-].
      + now intros [= <- <-].
      + now intros [= <- <-].
    - now intros [= <- <-]. }
  rewrite Hc, app_nil_r. repeat split.
Qed.

Lemma run_workers_eq (cloud : Cloud) (self : Scanner) (completed : list Account) :
  forall w, exists w',
    run_workers cloud self completed w = (Ok tt, w') /\
    results w' = results w ++ flat_map (account_records cloud self) completed /\
    progress w' = (progress w + Z.of_nat (length completed))%Z /\
    console w' = console w.
Proof.
  induction completed as [|account rest IH]; intros w.
  - exists w. cbn. rewrite app_nil_r, Z.add_0_r. repeat split.
  - cbn [run_workers]. unfold bind at 1, try_except, bind at 1.
    destruct (worker_eq cloud self account w) as (w1 & E & Hr & Hp & Hc).
    rewrite E. cbn [ret].
    destruct (IH w1) as (w' & E' & Hr' & Hp' & Hc').
    exists w'. split; [exact E'|].
    rewrite Hr', Hr, Hp', Hp, Hc', Hc. cbn [flat_map length].
    rewrite <- app_assoc. repeat split. lia.
Qed.

Lemma save_to_csv_ok (cloud : Cloud) (w : World) :
  exists saved w',
    save_to_csv cloud w = (Ok saved, w') /\
    results w' = results w /\ progress w' = progress w /\ calls w' = calls w.
Proof.
  unfold save_to_csv, get_results. unfold_m.
  destruct (write_csv cloud _); do 2 eexists; (split; [reflexivity|]);
    repeat split.
Qed.

(** ** The directory listing *)

Lemma append_active_world (raw : list RawAccount) :
  forall accounts w, snd (append_active raw accounts w) = w.
Proof.
  induction raw as [|r raw IH]; intros accounts w; [reflexivity|].
  cbn [append_active]. unfold_m.
  destruct (raw_Status r) as [status|]; [|reflexivity].
  destruct (String.eqb status "ACTIVE"); [|apply IH].
  destruct (raw_Id r); [|reflexivity].
  destruct (raw_Name r); [|reflexivity].
  destruct (raw_Email r); [|reflexivity].
  apply IH.
Qed.

Lemma paginate_accounts_world (pages : list (result AccountsPage)) :
  forall accounts w, exists n,
    snd (paginate_accounts pages accounts w)
    = with_calls w (repeat ListAccountsPage n).
Proof.
  induction pages as [|fetch pages IH]; intros accounts w.
  - exists 0. simpl. now rewrite with_calls_nil.
  - cbn [paginate_accounts]. unfold bind at 1. rewrite request_with_calls.
    unfold_m.
    destruct fetch as [[[raw|]]|e]; try (now exists 1).
    cbn [Accounts].
    pose proof (append_active_world raw accounts
                  (with_calls w [ListAccountsPage])) as Hr.
    destruct (append_active raw accounts _) as [[accounts'|e] w1];
      simpl in Hr; subst w1; [|now exists 1].
    destruct (IH accounts' (with_calls w [ListAccountsPage])) as [n Hn].
    exists (S n). rewrite Hn, with_calls_app. reflexivity.
Qed.

Lemma active_accounts_listing (cloud : Cloud) :
  active_accounts cloud
  = match directory_listing cloud with
    | Ok accounts => accounts
    | Raise _ => []
    end.
Proof.
  unfold active_accounts, directory_listing, get_all_active_accounts.
  unfold_m. cbn [console_print].
  rewrite (log_only_paginate_accounts (list_accounts_paginator cloud) []
             (mkWorld _ _ _ _)).
  now destruct (paginate_accounts _ _ fresh_world) as [[accounts|e] w1].
Qed.

(** The listing asks the directory for pages and prints; nothing else. *)
Lemma get_all_active_accounts_world (cloud : Cloud) (w : World) :
  exists n msgs,
    snd (get_all_active_accounts cloud w)
    = mkWorld (results w) (progress w)
        (calls w ++ repeat ListAccountsPage n) (console w ++ msgs).
Proof.
  unfold get_all_active_accounts. unfold_m. cbn [console_print].
  destruct (paginate_accounts_world (list_accounts_paginator cloud) []
              (mkWorld (results w) (progress w) (calls w)
                 (console w ++ [FetchingAccounts]))) as [n Hn].
  destruct (paginate_accounts _ _ _) as [[accounts|e] w1]; cbn [snd] in Hn;
    subst w1; exists n; eexists; unfold with_calls; cbn;
    rewrite <- app_assoc; reflexivity.
Qed.

(** ** [scan_all_accounts], case by case *)

Lemma scan_all_accounts_none (cloud : Cloud) (self : Scanner) (max_workers : Z)
    (w : World) :
  active_accounts cloud = [] ->
  exists n msgs,
    scan_all_accounts cloud self max_workers w
    = (Ok None,
       mkWorld (results w) (progress w)
         (calls w ++ repeat ListAccountsPage n)
         (console w ++ msgs ++ [NoAccountsFound])).
Proof.
  intros Hnone. unfold scan_all_accounts, bind at 1.
  destruct (get_all_active_accounts_world cloud w) as (n & msgs & Hw).
  rewrite get_all_active_accounts_eq in *. cbn [snd] in Hw.
  rewrite Hnone, Hw. exists n, msgs. cbn. now rewrite <- app_assoc.
Qed.

Lemma scan_all_accounts_some (cloud : Cloud) (self : Scanner) (max_workers : Z)
    (w : World) :
  active_accounts cloud <> [] ->
  (0 < max_workers)%Z ->
  exists w',
    scan_all_accounts cloud self max_workers w = (Ok (Some (results w')), w') /\
    results w'
    = results w ++ flat_map (account_records cloud self)
                     (completion_order cloud (active_accounts cloud)).
Proof.
  intros Hsome Hpool. unfold scan_all_accounts, bind at 1.
  rewrite get_all_active_accounts_eq.
  destruct (active_accounts cloud) as [|a accounts]; [congruence|].
  unfold thread_pool_executor.
  destruct (Z.leb_spec max_workers 0); [lia|].
  do 5 (erewrite bind_ok by reflexivity).
  cbn [results progress calls console after].
  match goal with
  | |- context [bind (run_workers ?c ?s ?l) _ ?w0] =>
      destruct (run_workers_eq c s l w0) as (w1 & E & Hr & _)
  end.
  erewrite bind_ok by exact E.
  unfold create_results_table.
  do 4 (erewrite bind_ok by reflexivity).
  cbn [results progress calls console].
  match goal with
  | |- context [bind (save_to_csv ?c) _ ?w2] =>
      destruct (save_to_csv_ok c w2) as (saved & w3 & Es & Hrs & _)
  end.
  erewrite bind_ok by exact Es.
  exists w3. split; [reflexivity|].
  rewrite Hrs. cbn [results]. rewrite Hr. reflexivity.
Qed.


(** ** Rendering integers *)

Lemma to_int_not_nil (n : Z) :
  Z.to_int n <> Decimal.Pos Decimal.Nil /\ Z.to_int n <> Decimal.Neg Decimal.Nil.
Proof.
  destruct n as [|p|p]; cbn; split; try discriminate;
    intros [= H]; exact (DecimalPos.Unsigned.to_uint_nonnil p H).
Qed.

Lemma str_int_inj (n n' : Z) : str_int n = str_int n' -> n = n'.
Proof.
  unfold str_int. intros H.
  apply (f_equal NilZero.int_of_string) in H.
  destruct (to_int_not_nil n) as [Hp Hn], (to_int_not_nil n') as [Hp' Hn'].
  rewrite !NilZero.isi in H by assumption.
  injection H as H. now apply DecimalZ.to_int_inj.
Qed.

Example str_int_5 : str_int 5 = "5".
Proof. reflexivity. Qed.

Example str_int_217 : str_int 217 = "217".
Proof. reflexivity. Qed.

Lemma str_prefix_length (n : nat) (s : string) :
  String.length (str_prefix n s) <= n.
Proof.
  unfold str_prefix. revert s.
  induction n as [|n IH]; intros [|c s]; cbn; try lia.
  specialize (IH s). lia.
Qed.

Lemma str_prefix_is_prefix (n : nat) (s : string) :
  exists rest, s = (str_prefix n s ++ rest)%string.
Proof.
  unfold str_prefix. revert s.
  induction n as [|n IH]; intros [|c s]; cbn.
  - now exists EmptyString.
  - now exists (String c s).
  - now exists EmptyString.
  - destruct (IH s) as [rest E]. exists rest. now rewrite <- E.
Qed.

(** ** The credential exchange *)

(** C9: [assume_role_in_account] returns a session or [None] and never raises:
    whatever exception comes out of the client's creation or of the exchange,
    and whatever key the response lacks, the caller gets [None], so that it
    cannot tell a denial from any other failure. *)
Theorem assume_role_in_account_never_raises (cloud : Cloud) (self : Scanner)
    (id : string) (w : World) :
  (exists o, fst (assume_role_in_account cloud self id w) = Ok o) /\
  (forall e, sts_client cloud = Raise e ->
     fst (assume_role_in_account cloud self id w) = Ok None) /\
  (forall e,
     assume_role cloud (role_arn_of self id) (role_session_name cloud id)
     = Raise e ->
     fst (assume_role_in_account cloud self id w) = Ok None) /\
  (forall response,
     assume_role cloud (role_arn_of self id) (role_session_name cloud id)
     = Ok response ->
     session_of_response response = None ->
     fst (assume_role_in_account cloud self id w) = Ok None).
Proof.
  rewrite assume_role_in_account_eq. repeat split.
  - destruct (sts_client cloud); eexists; reflexivity.
  - intros e ->. reflexivity.
  - intros e ->. now destruct (sts_client cloud).
  - intros response -> ->. now destruct (sts_client cloud).
Qed.

Lemma assume_role_in_account_never_raises_witness :
  assume_role Demo.cloud (role_arn_of default_scanner "111111111111")
    (role_session_name Demo.cloud "111111111111")
  = Raise (ClientError "An error occurred (AccessDenied) when calling the AssumeRole operation") /\
  fst (assume_role_in_account Demo.cloud default_scanner "111111111111" fresh_world)
  = Ok None.
Proof.
  split; [reflexivity|].
  apply (proj1 (proj2 (proj2
           (assume_role_in_account_never_raises Demo.cloud default_scanner
              "111111111111" fresh_world)))
           (ClientError "An error occurred (AccessDenied) when calling the AssumeRole operation")).
  reflexivity.
Defined.

(** ** The task of one account *)

(** C3: when the delegation is denied, that is when [assume_role_in_account]
    hands back [None], the task returns the single record
    [ACCESS_DENIED] / [N/A] and does nothing beyond the credential exchange: no
    page of roles is requested. *)
Theorem access_denied_single_sentinel (cloud : Cloud) (self : Scanner)
    (account : Account) (w : World)
    (Hdenied : fst (assume_role_in_account cloud self (Id account) w) = Ok None) :
  scan_account_roles cloud self account w
  = (Ok [mkRoleInfo (Id account) (Name account) "ACCESS_DENIED" "N/A"],
     snd (assume_role_in_account cloud self (Id account) w)) /\
  filter is_list_roles (calls (snd (scan_account_roles cloud self account w)))
  = filter is_list_roles (calls w).
Proof.
  destruct (assume_role_in_account_ok cloud self account w) as [o Ha].
  rewrite Ha in Hdenied. cbn [fst] in Hdenied. injection Hdenied as ->.
  rewrite (scan_denied cloud self account _ _ Ha). split; [reflexivity|].
  cbn [snd]. rewrite assume_role_in_account_eq.
  destruct (sts_client cloud); [|reflexivity].
  cbn. rewrite filter_app. cbn. now rewrite app_nil_r.
Qed.

Lemma access_denied_single_sentinel_witness :
  scan_account_roles Demo.cloud default_scanner Demo.denied fresh_world
  = (Ok [mkRoleInfo "111111111111" "sandbox-a" "ACCESS_DENIED" "N/A"],
     snd (assume_role_in_account Demo.cloud default_scanner "111111111111"
            fresh_world)) /\
  filter is_list_roles
    (calls (snd (scan_account_roles Demo.cloud default_scanner Demo.denied
                   fresh_world)))
  = [].
Proof.
  apply (access_denied_single_sentinel Demo.cloud default_scanner Demo.denied
           fresh_world).
  reflexivity.
Defined.

(** C4: a failure of the enumeration or of the classification in a reachable
    account, be it the creation of the client, the fetch of a page or a
    malformed page or role, is caught inside the task and becomes the single
    record whose name is ["ERROR: "], the first fifty characters of the
    exception's text and ["..."], with status ["Error"].  The task never
    raises, for any account, and a run publishes for each of its accounts the
    records of that account's own task, whatever happens in the others. *)
Theorem enumeration_failure_single_error (cloud : Cloud) (self : Scanner)
    (account : Account) (w w1 w2 : World) (session : Session) (e : exn)
    (Hsession : assume_role_in_account cloud self (Id account) w
                = (Ok (Some session), w1))
    (Hfails : (iam_client cloud session = Raise e /\ w2 = w1) \/
              (iam_client cloud session = Ok tt /\
               scan_pages self account session
                 (list_roles_paginator cloud session) [] 0 w1 = (Raise e, w2))) :
  scan_account_roles cloud self account w
  = (Ok [mkRoleInfo (Id account) (Name account)
           ("ERROR: " ++ str_prefix 50 (str_exn e) ++ "...") "Error"], w2) /\
  String.length (str_prefix 50 (str_exn e)) <= 50 /\
  (exists rest, str_exn e = (str_prefix 50 (str_exn e) ++ rest)%string) /\
  (forall sibling w', exists rs w'',
     scan_account_roles cloud self sibling w' = (Ok rs, w'')) /\
  (forall completed w', exists w'',
     run_workers cloud self completed w' = (Ok tt, w'') /\
     results w'' = results w' ++ flat_map (account_records cloud self) completed).
Proof.
  split; [|split; [apply str_prefix_length|split; [apply str_prefix_is_prefix|split]]].
  - destruct Hfails as [[Hc ->]|[Hc Hp]].
    + exact (scan_client_error cloud self account _ _ _ _ Hsession Hc).
    + exact (scan_enumeration_error cloud self account _ _ _ _ _ Hsession Hc Hp).
  - intros sibling w'. rewrite scan_account_roles_eq. do 2 eexists. reflexivity.
  - intros completed w'.
    destruct (run_workers_eq cloud self completed w') as (w'' & E & Hr & _).
    now exists w''.
Qed.

Lemma enumeration_failure_single_error_witness :
  scan_account_roles Demo.cloud default_scanner Demo.failing fresh_world
  = (Ok [mkRoleInfo "444444444444" "sandbox-d"
           "ERROR: An error occurred (Throttling) when calling the Li..."
           "Error"],
     with_calls fresh_world
       [AssumeRole "arn:aws:iam::444444444444:role/ca-iam-cie-engineer"
          "permission-boundary-scan-1700000000";
        ListRolesPage (Demo.session_of Demo.failing);
        ListRolesPage (Demo.session_of Demo.failing)]).
Proof.
  apply (enumeration_failure_single_error Demo.cloud default_scanner Demo.failing
           fresh_world (Demo.after_exchange Demo.failing) _
           (Demo.session_of Demo.failing)
           (ClientError "An error occurred (Throttling) when calling the ListRoles operation: Rate exceeded")).
  - reflexivity.
  - right. split; reflexivity.
Defined.

(** C6: in a reachable account whose enumeration goes through, the task
    returns the matching roles, each once and in the order listed, as records
    with status ["Exists"] when there is at least one, and otherwise the single
    record with status ["Missing"] whose name carries the number of roles
    enumerated. *)
Theorem enumeration_matches_or_missing (cloud : Cloud) (self : Scanner)
    (account : Account) (w w1 : World) (session : Session)
    (pages : list (list (string * option string)))
    (Hsession : assume_role_in_account cloud self (Id account) w
                = (Ok (Some session), w1))
    (Hclient : iam_client cloud session = Ok tt)
    (Hpages : list_roles_paginator cloud session = map listed_page pages) :
  fst (scan_account_roles cloud self account w)
  = Ok match matching_roles self (concat pages) with
       | [] =>
           [mkRoleInfo (Id account) (Name account)
              ("NO_ROLES_WITH_BOUNDARY ("
               ++ str_int (Z.of_nat (length (concat pages)))
               ++ " total roles)")
              "Missing"]
       | _ :: _ =>
           map (fun r => mkRoleInfo (Id account) (Name account) (fst r) "Exists")
             (matching_roles self (concat pages))
       end.
Proof.
  pose proof (scan_pages_listed self account session pages [] 0 w1) as Hp.
  rewrite <- Hpages in Hp.
  rewrite (scan_enumeration_ok cloud self account _ _ _ _ _ Hsession Hclient Hp).
  cbn [fst snd app]. rewrite Z.add_0_l.
  now destruct (matching_roles self (concat pages)).
Qed.

Lemma enumeration_matches_or_missing_witness :
  fst (scan_account_roles Demo.cloud default_scanner Demo.missing fresh_world)
  = Ok [mkRoleInfo "222222222222" "sandbox-b"
          "NO_ROLES_WITH_BOUNDARY (5 total roles)" "Missing"] /\
  fst (scan_account_roles Demo.cloud default_scanner Demo.compliant fresh_world)
  = Ok [mkRoleInfo "333333333333" "sandbox-c" "sandbox-dev" "Exists"].
Proof.
  split.
  - apply (enumeration_matches_or_missing Demo.cloud default_scanner
             Demo.missing fresh_world (Demo.after_exchange Demo.missing)
             (Demo.session_of Demo.missing)
             [[("admin", None); ("audit", Some Demo.other_arn)];
              [("build", None); ("deploy", None); ("ops", None)]]);
      reflexivity.
  - apply (enumeration_matches_or_missing Demo.cloud default_scanner
             Demo.compliant fresh_world (Demo.after_exchange Demo.compliant)
             (Demo.session_of Demo.compliant)
             [[("sandbox-dev", Some Demo.target_arn); ("admin", None)]]);
      reflexivity.
Defined.

(** ** Record sets in a run *)








(** ** Runs *)






(** ** Session labels *)

Example demo_labels :
  calls (snd (run_workers Demo.cloud default_scanner
                [Demo.denied; Demo.missing] fresh_world))
  = [AssumeRole "arn:aws:iam::111111111111:role/ca-iam-cie-engineer"
       "permission-boundary-scan-1700000000";
     AssumeRole "arn:aws:iam::222222222222:role/ca-iam-cie-engineer"
       "permission-boundary-scan-1700000000";
     ListRolesPage (Demo.session_of Demo.missing);
     ListRolesPage (Demo.session_of Demo.missing)].
Proof. reflexivity. Qed.

(** C8, as stated, fails: the exchanges for two accounts made within one
    second of the clock carry the same session label. *)
Lemma session_labels_collide :
  ~ (forall (cloud : Cloud) (id id' : string),
       id <> id' ->
       role_session_name cloud id <> role_session_name cloud id').
Proof.
  intros H.
  apply (H Demo.cloud "111111111111" "222222222222");
    [discriminate | reflexivity].
Qed.

(** C8, amended: every exchange names the role by the account id and the
    scanner's fixed role name, and asks for the session under the label
    ["permission-boundary-scan-"] followed by the clock's whole second; the
    labels of two exchanges are equal exactly when both are made in the same
    second. *)
Theorem session_label_is_clock_second (cloud : Cloud) (self : Scanner)
    (id : string) (w : World)
    (Hclient : sts_client cloud = Ok tt) :
  calls (snd (assume_role_in_account cloud self id w))
  = calls w ++
    [AssumeRole ("arn:aws:iam::" ++ id ++ ":role/" ++ role_to_assume self)
       ("permission-boundary-scan-" ++ str_int (int_time cloud id))] /\
  (forall cloud' id',
     role_session_name cloud id = role_session_name cloud' id' <->
     int_time cloud id = int_time cloud' id').
Proof.
  split.
  - rewrite assume_role_in_account_eq, Hclient. reflexivity.
  - intros cloud' id'. unfold role_session_name. split.
    + intros H. cbn in H. injection H as H. now apply str_int_inj.
    + now intros ->.
Qed.

Lemma session_label_is_clock_second_witness :
  calls (snd (assume_role_in_account Demo.cloud default_scanner "222222222222"
                fresh_world))
  = [] ++
    [AssumeRole "arn:aws:iam::222222222222:role/ca-iam-cie-engineer"
       "permission-boundary-scan-1700000000"].
Proof.
  apply (session_label_is_clock_second Demo.cloud default_scanner
           "222222222222" fresh_world).
  reflexivity.
Defined.

(** ** The lock's invariant *)

Module PoolFacts.
Import Pool.

Lemma update_same (ts : nat -> option thread) (i : nat) (t : thread) :
  update ts i t i = Some t.
Proof. unfold update. now rewrite Nat.eqb_refl. Qed.

Lemma update_other (ts : nat -> option thread) (i j : nat) (t : thread) :
  j <> i -> update ts i t j = ts j.
Proof. intros H. unfold update. apply Nat.eqb_neq in H. now rewrite H. Qed.

Lemma consistent_pair_more (p0 p p' : pool) (rs rs' : list RoleInfo) (n : Z) :
  published p' = published p ++ [rs'] \/ published p' = published p ->
  consistent_pair p0 p rs n -> consistent_pair p0 p' rs n.
Proof.
  intros Hpub (k & Hk & Hrs & Hn). exists k.
  destruct Hpub as [-> | ->]; [|now repeat split].
  repeat split; [rewrite length_app; lia| |exact Hn].
  rewrite firstn_app. replace (k - length (published p)) with 0 by lia.
  cbn. now rewrite app_nil_r.
Qed.

(** Case analysis on the thread a step has moved *)
Ltac moved H :=
  cbn [threads shared lock published] in H; unfold update in H;
  match type of H with
  | context [Nat.eqb ?j ?i] =>
      destruct (Nat.eqb_spec j i) as [->|?];
      [ first [ discriminate H | injection H as <- <- | injection H as <-
              | idtac ] | ]
  end.

Section Preservation.

Variable cloud : Cloud.
Variable self : Scanner.
Variable p0 : pool.

Lemma invariant_initial : initial p0 -> invariant cloud self p0 p0.
Proof.
  intros (Hlock & Hpub & Hts). constructor.
  - intros i t Ht Hin. specialize (Hts i t Ht). destruct t as [a []|[]]; discriminate.
  - intros i Hi. congruence.
  - rewrite Hpub. cbn. now rewrite app_nil_r.
  - unfold between_updates. rewrite Hlock, Hpub. cbn. lia.
  - intros i rs Ht. specialize (Hts i _ Ht). discriminate.
  - intros i rs n Ht. specialize (Hts i _ Ht). discriminate.
  - intros i rs n Ht. specialize (Hts i _ Ht). discriminate.
  - intros i a pc rs Ht Hc. specialize (Hts i _ Ht). destruct pc; discriminate.
  - intros i a pc rs Ht Hc. specialize (Hts i _ Ht). destruct pc; discriminate.
Qed.

Lemma between_updates_moved (sh : World) (ts : nat -> option thread) (i : nat)
    (t : thread) (pub : list (list RoleInfo)) :
  between_updates (mkPool sh (Some i) (update ts i t) pub) = is_extended t.
Proof. unfold between_updates. cbn. now rewrite update_same. Qed.

Lemma between_updates_at (p : pool) (i : nat) (t : thread) :
  lock p = Some i -> threads p i = Some t -> between_updates p = is_extended t.
Proof. intros Hl Ht. unfold between_updates. now rewrite Hl, Ht. Qed.

Lemma between_updates_free (sh : World) (ts : nat -> option thread)
    (pub : list (list RoleInfo)) :
  between_updates (mkPool sh None ts pub) = false.
Proof. reflexivity. Qed.

Section Step.

Variable p : pool.
Hypothesis I : invariant cloud self p0 p.

(** Outside the lock's holder no thread is inside the lock. *)
Lemma only_holder (i j : nat) (t t' : thread) :
  threads p i = Some t -> in_lock t = true ->
  threads p j = Some t' -> in_lock t' = true -> j = i.
Proof.
  intros Ht Hin Ht' Hin'.
  pose proof (inv_holder I _ Ht Hin) as H.
  rewrite (inv_holder I _ Ht' Hin') in H. congruence.
Qed.

Lemma nobody_inside (j : nat) (t : thread) :
  lock p = None -> threads p j = Some t -> in_lock t = false.
Proof.
  intros Hfree Ht. destruct (in_lock t) eqn:Hin; [|reflexivity].
  pose proof (inv_holder I _ Ht Hin) as H. congruence.
Qed.

Ltac old_fact :=
  first [ eapply (inv_saw_records I); eassumption
        | eapply (inv_saw_both I); eassumption
        | eapply (inv_carried I); eassumption
        | eapply (inv_appended I); eassumption
        | eapply (inv_holder I); eassumption ].

(** A thread other than the one inside the lock is not at a line of the
    critical section. *)
Ltac not_inside Ht Hj :=
  exfalso;
  match goal with
  | n : _ <> _ |- _ => apply n; exact (only_holder _ _ _ _ Ht eq_refl Hj eq_refl)
  end.

Ltac free_lock Hfree Hj :=
  exfalso; pose proof (nobody_inside _ _ Hfree Hj); discriminate.

Lemma invariant_scan (i : nat) (a : Account) (rs : list RoleInfo) (w' : World) :
  threads p i = Some (Worker a AtScan) ->
  scan_account_roles cloud self a (shared p) = (Ok rs, w') ->
  invariant cloud self p0
    (mkPool w' (lock p) (update (threads p) i (Worker a (AtLock rs))) (published p)).
Proof.
  intros Ht Hscan.
  rewrite scan_account_roles_eq in Hscan. injection Hscan as <- <-.
  assert (Hk : forall k, lock p = Some k -> k <> i).
  { intros k Hk ->. destruct (inv_held I Hk) as (t & Et & Hin).
    rewrite Ht in Et. injection Et as <-. discriminate. }
  constructor; cbn [threads shared lock published after results progress].
  - intros j t Hj Hin. moved Hj; [discriminate|old_fact].
  - intros j Hj. destruct (inv_held I Hj) as (t & Et & Hin).
    exists t. split; [|exact Hin]. rewrite update_other; [exact Et|]. now apply Hk.
  - apply (inv_results I).
  - replace (between_updates _) with (between_updates p);
      [apply (inv_progress I)|].
    unfold between_updates. cbn [lock threads].
    destruct (lock p) as [k|]; [|reflexivity].
    rewrite update_other; [reflexivity|]. now apply Hk.
  - intros j rs Hj. moved Hj. old_fact.
  - intros j rs n Hj. moved Hj. old_fact.
  - intros j rs n Hj. moved Hj.
    eapply consistent_pair_more with (p := p) (rs' := []);
      [now right | eapply (inv_finished I); eauto].
  - intros j b pc rs Hj Hc. moved Hj; [|old_fact].
    cbn in Hc. now injection Hc as <-.
  - intros j b pc rs Hj Hc. moved Hj; [discriminate|old_fact].
Qed.

Lemma invariant_acquire (i : nat) (a : Account) (rs : list RoleInfo) :
  threads p i = Some (Worker a (AtLock rs)) ->
  lock p = None ->
  invariant cloud self p0
    (mkPool (shared p) (Some i)
       (update (threads p) i (Worker a (InLock rs))) (published p)).
Proof.
  intros Ht Hfree.
  constructor; cbn [threads shared lock published].
  - intros j t Hj Hin. moved Hj; [reflexivity|].
    pose proof (nobody_inside _ _ Hfree Hj). congruence.
  - intros j [= <-]. eexists. rewrite update_same. now split.
  - apply (inv_results I).
  - rewrite between_updates_moved. pose proof (inv_progress I) as H.
    unfold between_updates in H. now rewrite Hfree in H.
  - intros j rs' Hj. moved Hj. old_fact.
  - intros j rs' n Hj. moved Hj. old_fact.
  - intros j rs' n Hj. moved Hj.
    eapply consistent_pair_more with (p := p) (rs' := []);
      [now right | eapply (inv_finished I); eauto].
  - intros j b pc rs' Hj Hc. moved Hj; [|old_fact].
    eapply (inv_carried I); [exact Ht|exact Hc].
  - intros j b pc rs' Hj Hc. moved Hj; [discriminate|old_fact].
Qed.

Lemma invariant_extend (i : nat) (a : Account) (rs : list RoleInfo) :
  threads p i = Some (Worker a (InLock rs)) ->
  invariant cloud self p0
    (mkPool (snd (results_extend rs (shared p))) (lock p)
       (update (threads p) i (Worker a (Extended rs))) (published p ++ [rs])).
Proof.
  intros Ht. pose proof (inv_holder I _ Ht eq_refl) as Hlock.
  constructor; cbn [threads shared lock published results_extend snd results progress].
  - intros j t Hj Hin. moved Hj; [exact Hlock|old_fact].
  - intros j Hj. rewrite Hlock in Hj. injection Hj as <-.
    eexists. rewrite update_same. now split.
  - rewrite (inv_results I), concat_app. cbn. now rewrite app_nil_r, app_assoc.
  - rewrite Hlock, between_updates_moved. pose proof (inv_progress I) as H.
    rewrite (between_updates_at _ _ _ Hlock Ht) in H. cbn in H |- *.
    rewrite length_app. cbn. lia.
  - intros j rs' Hj. moved Hj. not_inside Ht Hj.
  - intros j rs' n Hj. moved Hj. not_inside Ht Hj.
  - intros j rs' n Hj. moved Hj.
    eapply consistent_pair_more with (p := p) (rs' := rs);
      [now left | eapply (inv_finished I); eauto].
  - intros j b pc rs' Hj Hc. moved Hj; [|old_fact].
    eapply (inv_carried I); [exact Ht|exact Hc].
  - intros j b pc rs' Hj Hc. apply in_or_app. moved Hj.
    + cbn in Hc. injection Hc as <-. right. now left.
    + left. old_fact.
Qed.

Lemma invariant_advance (i : nat) (a : Account) (rs : list RoleInfo) :
  threads p i = Some (Worker a (Extended rs)) ->
  invariant cloud self p0
    (mkPool (snd (progress_advance (shared p))) (lock p)
       (update (threads p) i (Worker a (Advanced rs))) (published p)).
Proof.
  intros Ht. pose proof (inv_holder I _ Ht eq_refl) as Hlock.
  constructor; cbn [threads shared lock published progress_advance snd results progress].
  - intros j t Hj Hin. moved Hj; [exact Hlock|old_fact].
  - intros j Hj. rewrite Hlock in Hj. injection Hj as <-.
    eexists. rewrite update_same. now split.
  - apply (inv_results I).
  - rewrite Hlock, between_updates_moved. pose proof (inv_progress I) as H.
    rewrite (between_updates_at _ _ _ Hlock Ht) in H. cbn in H |- *. lia.
  - intros j rs' Hj. moved Hj. not_inside Ht Hj.
  - intros j rs' n Hj. moved Hj. not_inside Ht Hj.
  - intros j rs' n Hj. moved Hj.
    eapply consistent_pair_more with (p := p) (rs' := []);
      [now right | eapply (inv_finished I); eauto].
  - intros j b pc rs' Hj Hc. moved Hj; [|old_fact].
    eapply (inv_carried I); [exact Ht|exact Hc].
  - intros j b pc rs' Hj Hc. moved Hj; [|old_fact].
    eapply (inv_appended I); [exact Ht|exact Hc].
Qed.

Lemma invariant_release (i : nat) (a : Account) (rs : list RoleInfo) :
  threads p i = Some (Worker a (Advanced rs)) ->
  invariant cloud self p0
    (mkPool (shared p) None
       (update (threads p) i (Worker a (Returned rs))) (published p)).
Proof.
  intros Ht. pose proof (inv_holder I _ Ht eq_refl) as Hlock.
  constructor; cbn [threads shared lock published].
  - intros j t Hj Hin. moved Hj; [discriminate|].
    exfalso. apply n. exact (only_holder _ _ _ _ Ht eq_refl Hj Hin).
  - intros j [=].
  - apply (inv_results I).
  - rewrite between_updates_free. pose proof (inv_progress I) as H.
    now rewrite (between_updates_at _ _ _ Hlock Ht) in H.
  - intros j rs' Hj. moved Hj. old_fact.
  - intros j rs' n Hj. moved Hj. old_fact.
  - intros j rs' n Hj. moved Hj.
    eapply consistent_pair_more with (p := p) (rs' := []);
      [now right | eapply (inv_finished I); eauto].
  - intros j b pc rs' Hj Hc. moved Hj; [|old_fact].
    eapply (inv_carried I); [exact Ht|exact Hc].
  - intros j b pc rs' Hj Hc. moved Hj; [|old_fact].
    eapply (inv_appended I); [exact Ht|exact Hc].
Qed.

Lemma invariant_reader_acquire (i : nat) :
  threads p i = Some (Reader NotStarted) ->
  lock p = None ->
  invariant cloud self p0
    (mkPool (shared p) (Some i) (update (threads p) i (Reader Holding))
       (published p)).
Proof.
  intros Ht Hfree.
  constructor; cbn [threads shared lock published].
  - intros j t Hj Hin. moved Hj; [reflexivity|].
    pose proof (nobody_inside _ _ Hfree Hj). congruence.
  - intros j [= <-]. eexists. rewrite update_same. now split.
  - apply (inv_results I).
  - rewrite between_updates_moved. pose proof (inv_progress I) as H.
    unfold between_updates in H. now rewrite Hfree in H.
  - intros j rs' Hj. moved Hj. old_fact.
  - intros j rs' n Hj. moved Hj. old_fact.
  - intros j rs' n Hj. moved Hj.
    eapply consistent_pair_more with (p := p) (rs' := []);
      [now right | eapply (inv_finished I); eauto].
  - intros j b pc rs' Hj Hc. moved Hj. old_fact.
  - intros j b pc rs' Hj Hc. moved Hj. old_fact.
Qed.

Lemma invariant_read_records (i : nat) :
  threads p i = Some (Reader Holding) ->
  invariant cloud self p0
    (mkPool (shared p) (lock p)
       (update (threads p) i (Reader (SawRecords (results (shared p)))))
       (published p)).
Proof.
  intros Ht. pose proof (inv_holder I _ Ht eq_refl) as Hlock.
  constructor; cbn [threads shared lock published].
  - intros j t Hj Hin. moved Hj; [exact Hlock|old_fact].
  - intros j Hj. rewrite Hlock in Hj. injection Hj as <-.
    eexists. rewrite update_same. now split.
  - apply (inv_results I).
  - rewrite Hlock, between_updates_moved. pose proof (inv_progress I) as H.
    now rewrite (between_updates_at _ _ _ Hlock Ht) in H.
  - intros j rs' Hj. moved Hj; [reflexivity|old_fact].
  - intros j rs' n Hj. moved Hj. old_fact.
  - intros j rs' n Hj. moved Hj.
    eapply consistent_pair_more with (p := p) (rs' := []);
      [now right | eapply (inv_finished I); eauto].
  - intros j b pc rs' Hj Hc. moved Hj. old_fact.
  - intros j b pc rs' Hj Hc. moved Hj. old_fact.
Qed.

Lemma invariant_read_counter (i : nat) (rs : list RoleInfo) :
  threads p i = Some (Reader (SawRecords rs)) ->
  invariant cloud self p0
    (mkPool (shared p) (lock p)
       (update (threads p) i (Reader (SawBoth rs (progress (shared p)))))
       (published p)).
Proof.
  intros Ht. pose proof (inv_holder I _ Ht eq_refl) as Hlock.
  constructor; cbn [threads shared lock published].
  - intros j t Hj Hin. moved Hj; [exact Hlock|old_fact].
  - intros j Hj. rewrite Hlock in Hj. injection Hj as <-.
    eexists. rewrite update_same. now split.
  - apply (inv_results I).
  - rewrite Hlock, between_updates_moved. pose proof (inv_progress I) as H.
    now rewrite (between_updates_at _ _ _ Hlock Ht) in H.
  - intros j rs' Hj. moved Hj. old_fact.
  - intros j rs' n Hj. moved Hj; [|old_fact].
    split; [|reflexivity]. exact (inv_saw_records I _ Ht).
  - intros j rs' n Hj. moved Hj.
    eapply consistent_pair_more with (p := p) (rs' := []);
      [now right | eapply (inv_finished I); eauto].
  - intros j b pc rs' Hj Hc. moved Hj. old_fact.
  - intros j b pc rs' Hj Hc. moved Hj. old_fact.
Qed.

Lemma invariant_reader_release (i : nat) (rs : list RoleInfo) (n : Z) :
  threads p i = Some (Reader (SawBoth rs n)) ->
  invariant cloud self p0
    (mkPool (shared p) None (update (threads p) i (Reader (Finished rs n)))
       (published p)).
Proof.
  intros Ht. pose proof (inv_holder I _ Ht eq_refl) as Hlock.
  constructor; cbn [threads shared lock published].
  - intros j t Hj Hin. moved Hj; [discriminate|].
    exfalso. apply n0. exact (only_holder _ _ _ _ Ht eq_refl Hj Hin).
  - intros j [=].
  - apply (inv_results I).
  - rewrite between_updates_free. pose proof (inv_progress I) as H.
    now rewrite (between_updates_at _ _ _ Hlock Ht) in H.
  - intros j rs' Hj. moved Hj. old_fact.
  - intros j rs' n' Hj. moved Hj. old_fact.
  - intros j rs' n' Hj. moved Hj.
    + destruct (inv_saw_both I _ Ht) as [-> ->].
      exists (length (published p)). cbn [published]. split; [lia|].
      rewrite firstn_all. split; [apply (inv_results I)|].
      pose proof (inv_progress I) as H.
      rewrite (between_updates_at _ _ _ Hlock Ht) in H. cbn in H. lia.
    + eapply consistent_pair_more with (p := p) (rs' := []);
        [now right | eapply (inv_finished I); eauto].
  - intros j b pc rs' Hj Hc. moved Hj. old_fact.
  - intros j b pc rs' Hj Hc. moved Hj. old_fact.
Qed.

End Step.

Lemma invariant_step (p p' : pool) :
  invariant cloud self p0 p -> step cloud self p p' -> invariant cloud self p0 p'.
Proof.
  intros I Hstep. destruct Hstep.
  - eapply invariant_scan; eassumption.
  - eapply invariant_acquire; eassumption.
  - eapply invariant_extend; eassumption.
  - eapply invariant_advance; eassumption.
  - eapply invariant_release; eassumption.
  - eapply invariant_reader_acquire; eassumption.
  - eapply invariant_read_records; eassumption.
  - eapply invariant_read_counter; eassumption.
  - eapply invariant_reader_release; eassumption.
Qed.

Lemma invariant_reachable (p : pool) :
  initial p0 -> reachable cloud self p0 p -> invariant cloud self p0 p.
Proof.
  intros Hinit Hreach. induction Hreach as [|p p' _ IH Hstep].
  - now apply invariant_initial.
  - eapply invariant_step; eassumption.
Qed.

Lemma fire_step (p p' : pool) (i : nat) :
  fire cloud self p i = Some p' -> step cloud self p p'.
Proof.
  unfold fire. intros H.
  destruct (threads p i) as [[a [|rs|rs|rs|rs|rs]|[| |rs|rs n|rs n]]|] eqn:Ht;
    try discriminate H.
  - destruct (scan_account_roles cloud self a (shared p)) as [[rs|e] w'] eqn:Hs;
      [|discriminate H].
    injection H as <-. now apply step_scan.
  - destruct (lock p) eqn:Hl; [discriminate H|].
    injection H as <-. now apply step_acquire.
  - injection H as <-. now apply step_extend.
  - injection H as <-. now apply step_advance.
  - injection H as <-. now apply step_release.
  - destruct (lock p) eqn:Hl; [discriminate H|].
    injection H as <-. now apply step_reader_acquire.
  - injection H as <-. now apply step_read_records.
  - injection H as <-. now apply step_read_counter.
  - injection H as <-. now apply step_reader_release.
Qed.

Lemma run_reachable (schedule : list nat) :
  forall p p', reachable cloud self p0 p ->
    run cloud self schedule p = Some p' -> reachable cloud self p0 p'.
Proof.
  induction schedule as [|i rest IH]; intros p p' Hp H; cbn in H.
  - now injection H as <-.
  - destruct (fire cloud self p i) as [p1|] eqn:Hf; [|discriminate H].
    eapply IH; [|exact H].
    eapply reachable_step; [exact Hp|]. exact (fire_step _ _ _ Hf).
Qed.

End Preservation.
End PoolFacts.

(** Run alone, the five steps of a worker thread are the method [worker]. *)
Lemma worker_is_five_steps (cloud : Cloud) (self : Scanner) (p : Pool.pool)
    (i : nat) (account : Account) :
  Pool.threads p i = Some (Pool.Worker account Pool.AtScan) ->
  Pool.lock p = None ->
  exists p',
    Pool.run cloud self [i; i; i; i; i] p = Some p' /\
    Pool.shared p' = snd (worker cloud self account (Pool.shared p)) /\
    Pool.lock p' = None /\
    Pool.threads p' i
    = Some (Pool.Worker account
              (Pool.Returned (account_records cloud self account))).
Proof.
  intros Ht Hfree.
  unfold Pool.run, Pool.fire at 1. rewrite Ht, (scan_account_roles_eq cloud self account (Pool.shared p)).
  unfold Pool.fire at 1. cbn [Pool.threads Pool.lock Pool.shared Pool.published].
  rewrite PoolFacts.update_same, Hfree.
  unfold Pool.fire at 1. cbn [Pool.threads Pool.lock Pool.shared Pool.published].
  rewrite PoolFacts.update_same.
  unfold Pool.fire at 1. cbn [Pool.threads Pool.lock Pool.shared Pool.published].
  rewrite PoolFacts.update_same.
  unfold Pool.fire at 1. cbn [Pool.threads Pool.lock Pool.shared Pool.published].
  rewrite PoolFacts.update_same.
  eexists. split; [reflexivity|].
  cbn [Pool.threads Pool.lock Pool.shared Pool.published].
  rewrite PoolFacts.update_same. repeat split.
  unfold worker, bind.
  rewrite (scan_account_roles_eq cloud self account (Pool.shared p)). reflexivity.
Qed.

(** In the pool that [PoolDemo.interleaved] reaches, the second worker holds
    the lock between its two updates: both record sets are in the collection
    and the counter still reads one.  A thread that looks without taking the
    lock meets this pair. *)
Example demo_between_updates :
  match Pool.run Demo.cloud default_scanner PoolDemo.interleaved PoolDemo.start with
  | Some p =>
      Pool.lock p = Some 1 /\
      length (results (Pool.shared p)) = 2 /\
      progress (Pool.shared p) = 1%Z
  | None => False
  end.
Proof. vm_compute. repeat split. Qed.

(** A scanner used twice holds the records of both runs. *)
Example demo_second_run :
  option_map (@length RoleInfo)
    match fst (scan_all_accounts Demo.cloud default_scanner 50
                 (snd (scan_all_accounts Demo.cloud default_scanner 50
                         fresh_world))) with
    | Ok returned => returned
    | Raise _ => None
    end
  = Some 8.
Proof. vm_compute. reflexivity. Qed.

(** * Further properties *)

(** ** The directory listing *)

Lemma append_active_listed (entries : list RawAccount) :
  forall accounts w,
    forallb well_listed entries = true ->
    append_active entries accounts w
    = (Ok (accounts ++ flat_map active_account entries), w).
Proof.
  induction entries as [|r entries IH]; intros accounts w H.
  - cbn. now rewrite app_nil_r.
  - cbn [forallb] in H. apply andb_true_iff in H. destruct H as [Hr H].
    cbn [append_active flat_map]. unfold well_listed, active_account in *.
    unfold_m.
    destruct (raw_Status r) as [status|]; [|discriminate].
    destruct (String.eqb status "ACTIVE").
    + destruct (raw_Id r) as [id|]; [|discriminate].
      destruct (raw_Name r) as [name|]; [|discriminate].
      destruct (raw_Email r) as [email|]; [|discriminate].
      rewrite IH by exact H. now rewrite <- app_assoc.
    + rewrite IH by exact H.
      now destruct (raw_Id r), (raw_Name r), (raw_Email r).
Qed.

Lemma paginate_accounts_listed (pages : list (list RawAccount)) :
  forall accounts w,
    forallb well_listed (concat pages) = true ->
    paginate_accounts (map accounts_page pages) accounts w
    = (Ok (accounts ++ flat_map active_account (concat pages)),
       with_calls w (repeat ListAccountsPage (length pages))).
Proof.
  induction pages as [|page pages IH]; intros accounts w H.
  - cbn. now rewrite app_nil_r, with_calls_nil.
  - cbn [concat] in H. rewrite forallb_app in H. apply andb_true_iff in H.
    destruct H as [Hpage H].
    cbn [map paginate_accounts]. unfold bind at 1. rewrite request_with_calls.
    unfold_m. unfold accounts_page at 1. cbn [Accounts].
    rewrite append_active_listed by exact Hpage.
    rewrite IH by exact H. rewrite with_calls_app.
    cbn [concat flat_map length repeat app].
    now rewrite flat_map_app, app_assoc.
Qed.

(** X1: over a directory whose entries all have a status, and the active ones
    their id, name and email, the listing returns the accounts whose status is
    exactly ["ACTIVE"], in the order listed across the pages; it asks for each
    page once and prints how many it found.  What an entry of another status
    lacks does not matter. *)
Theorem listing_keeps_active_accounts (cloud : Cloud)
    (pages : list (list RawAccount)) (w : World)
    (Hpages : list_accounts_paginator cloud = map accounts_page pages)
    (Hlisted : forallb well_listed (concat pages) = true) :
  get_all_active_accounts cloud w
  = (Ok (flat_map active_account (concat pages)),
     mkWorld (results w) (progress w)
       (calls w ++ repeat ListAccountsPage (length pages))
       (console w ++
        [FetchingAccounts;
         FoundAccounts (length (flat_map active_account (concat pages)))])).
Proof.
  unfold get_all_active_accounts, try_except, bind at 1.
  cbn [console_print]. unfold bind at 1.
  rewrite Hpages, paginate_accounts_listed by exact Hlisted.
  cbn. now rewrite <- app_assoc.
Qed.

Lemma listing_keeps_active_accounts_witness :
  fst (get_all_active_accounts Demo.cloud fresh_world)
  = Ok [Demo.denied; Demo.missing; Demo.compliant; Demo.failing].
Proof.
  rewrite (listing_keeps_active_accounts Demo.cloud
             [[Demo.raw Demo.denied "ACTIVE"; Demo.raw Demo.missing "ACTIVE"];
              [Demo.raw (mkAccount "555555555555" "closed" "e@example.com")
                 "SUSPENDED";
               Demo.raw Demo.compliant "ACTIVE"; Demo.raw Demo.failing "ACTIVE"]]
             fresh_world); reflexivity.
Defined.

Lemma paginate_accounts_after_listed (good : list (list RawAccount))
    (tail : list (result AccountsPage)) :
  forall accounts w,
    forallb well_listed (concat good) = true ->
    paginate_accounts (map accounts_page good ++ tail) accounts w
    = paginate_accounts tail
        (accounts ++ flat_map active_account (concat good))
        (with_calls w (repeat ListAccountsPage (length good))).
Proof.
  induction good as [|page good IH]; intros accounts w H.
  - cbn. now rewrite app_nil_r, with_calls_nil.
  - cbn [concat] in H. rewrite forallb_app in H. apply andb_true_iff in H.
    destruct H as [Hpage H].
    cbn [map app paginate_accounts]. unfold bind at 1.
    rewrite request_with_calls.
    unfold_m. unfold accounts_page at 1. cbn [Accounts].
    rewrite append_active_listed by exact Hpage.
    rewrite IH by exact H. rewrite with_calls_app.
    cbn [concat flat_map length repeat app].
    now rewrite flat_map_app, app_assoc.
Qed.

Lemma append_active_unlisted (before after : list RawAccount) (bad : RawAccount) :
  forall accounts w,
    forallb well_listed before = true ->
    well_listed bad = false ->
    append_active (before ++ bad :: after) accounts w
    = (Raise (KeyError (unlisted_key bad)), w).
Proof.
  induction before as [|r before IH]; intros accounts w H Hbad.
  - cbn [app append_active]. unfold well_listed, unlisted_key in *. unfold_m.
    destruct (raw_Status bad) as [status|]; [|reflexivity].
    destruct (String.eqb status "ACTIVE"); [|discriminate].
    destruct (raw_Id bad); [|reflexivity].
    destruct (raw_Name bad); [|reflexivity].
    destruct (raw_Email bad); [discriminate|reflexivity].
  - cbn [forallb] in H. apply andb_true_iff in H. destruct H as [Hr H].
    cbn [app append_active]. unfold well_listed in Hr. unfold_m.
    destruct (raw_Status r) as [status|]; [|discriminate].
    destruct (String.eqb status "ACTIVE").
    + destruct (raw_Id r) as [id|]; [|discriminate].
      destruct (raw_Name r) as [name|]; [|discriminate].
      destruct (raw_Email r) as [email|]; [|discriminate].
      now apply IH.
    + now apply IH.
Qed.

(** X3: one entry without a status, or one active entry without its id, name
    or email, empties the whole listing: the listing returns the empty list,
    even for the accounts listed before that entry, and prints the missing
    key between quotes. *)
Theorem listing_malformed_entry_discards_all (cloud : Cloud)
    (good : list (list RawAccount)) (before after : list RawAccount)
    (bad : RawAccount) (rest : list (result AccountsPage)) (w : World)
    (Hpages : list_accounts_paginator cloud
              = map accounts_page good
                ++ accounts_page (before ++ bad :: after) :: rest)
    (Hgood : forallb well_listed (concat good) = true)
    (Hbefore : forallb well_listed before = true)
    (Hbad : well_listed bad = false) :
  get_all_active_accounts cloud w
  = (Ok [],
     mkWorld (results w) (progress w)
       (calls w ++ repeat ListAccountsPage (S (length good)))
       (console w ++
        [FetchingAccounts;
         ErrorFetchingAccounts ("'" ++ unlisted_key bad ++ "'")])) /\
  In (unlisted_key bad) ["Status"; "Id"; "Name"; "Email"].
Proof.
  split.
  - unfold get_all_active_accounts, try_except, bind at 1.
    cbn [console_print]. unfold bind at 1.
    rewrite Hpages, paginate_accounts_after_listed by exact Hgood.
    cbn [paginate_accounts]. unfold bind at 1. rewrite request_with_calls.
    unfold_m. unfold accounts_page at 1. cbn [Accounts].
    rewrite append_active_unlisted by assumption.
    cbn [console_print str_exn]. rewrite with_calls_app.
    unfold with_calls. cbn.
    rewrite <- app_assoc, repeat_cons. reflexivity.
  - unfold unlisted_key.
    destruct (raw_Status bad), (raw_Id bad), (raw_Name bad); cbn; tauto.
Qed.

Lemma listing_malformed_entry_discards_all_witness :
  fst (get_all_active_accounts
         (Sample.with_directory
            [accounts_page
               [Demo.raw Demo.denied "ACTIVE"; Sample.no_mail;
                Demo.raw Demo.missing "ACTIVE"]])
         fresh_world)
  = Ok [].
Proof.
  rewrite (proj1 (listing_malformed_entry_discards_all
             (Sample.with_directory
                [accounts_page
                   [Demo.raw Demo.denied "ACTIVE"; Sample.no_mail;
                    Demo.raw Demo.missing "ACTIVE"]])
             [] [Demo.raw Demo.denied "ACTIVE"] [Demo.raw Demo.missing "ACTIVE"]
             Sample.no_mail [] fresh_world eq_refl eq_refl eq_refl eq_refl)).
  reflexivity.
Defined.

(** ** Enumerations that fail *)

Lemma scan_pages_after_listed (self : Scanner) (account : Account)
    (session : Session) (good : list (list (string * option string)))
    (tail : list (result RolesPage)) :
  forall rwb total w,
    scan_pages self account session (map listed_page good ++ tail) rwb total w
    = scan_pages self account session tail
        (rwb ++ map (exists_record account) (matching_roles self (concat good)))
        (total + Z.of_nat (length (concat good)))%Z
        (with_calls w (repeat (ListRolesPage session) (length good))).
Proof.
  induction good as [|page good IH]; intros rwb total w.
  - cbn. now rewrite app_nil_r, Z.add_0_r, with_calls_nil.
  - cbn [map app scan_pages]. unfold bind at 1. rewrite request_with_calls.
    unfold_m. unfold listed_page at 1. cbn [Roles].
    rewrite scan_roles_listed. cbn [fst snd]. rewrite IH.
    rewrite with_calls_app. cbn [concat length repeat app].
    unfold matching_roles. rewrite filter_app, map_app, length_app, <- app_assoc.
    rewrite Nat2Z.inj_add, Z.add_assoc. reflexivity.
Qed.

Lemma scan_roles_missing_key (self : Scanner) (account : Account)
    (before : list (string * option string)) (bad : Role) (after : list Role)
    (key : string) :
  forall rwb total w,
    missing_key bad = Some key ->
    scan_roles self account (map listed_role before ++ bad :: after) rwb total w
    = (Raise (KeyError key), w).
Proof.
  induction before as [|[name b] before IH]; intros rwb total w Hkey.
  - cbn [map app scan_roles]. unfold missing_key in Hkey. unfold_m.
    destruct (RoleName bad) as [name|]; [|now injection Hkey as <-].
    unfold boundary_reference. unfold_m.
    destruct (PermissionsBoundary bad) as [[[arn|]]|]; try discriminate.
    now injection Hkey as <-.
  - cbn [map app scan_roles listed_role fst snd RoleName]. unfold_m.
    cbn [RoleName].
    assert (Hb : boundary_reference (listed_role (name, b)) w = (Ok b, w))
      by (destruct b; reflexivity).
    rewrite Hb. destruct (classify b _); now apply IH.
Qed.

(** X4: when the fetch of a page of roles raises, the task returns the single
    [Error] record of that exception, whatever matching roles the pages before
    it held; the page that failed is the last one it asks for. *)
Theorem failed_page_discards_matches (cloud : Cloud) (self : Scanner)
    (account : Account) (w w1 : World) (session : Session)
    (good : list (list (string * option string))) (e : exn)
    (rest : list (result RolesPage))
    (Hsession : assume_role_in_account cloud self (Id account) w
                = (Ok (Some session), w1))
    (Hclient : iam_client cloud session = Ok tt)
    (Hpages : list_roles_paginator cloud session
              = map listed_page good ++ Raise e :: rest) :
  scan_account_roles cloud self account w
  = (Ok [mkRoleInfo (Id account) (Name account)
           ("ERROR: " ++ str_prefix 50 (str_exn e) ++ "...") "Error"],
     with_calls w1 (repeat (ListRolesPage session) (S (length good)))).
Proof.
  apply (scan_enumeration_error cloud self account w w1 _ session e Hsession
           Hclient).
  rewrite Hpages, scan_pages_after_listed.
  cbn [scan_pages]. unfold bind at 1. rewrite request_with_calls.
  unfold_m. rewrite with_calls_app.
  now rewrite <- repeat_cons.
Qed.

Lemma failed_page_discards_matches_witness :
  fst (scan_account_roles Demo.cloud default_scanner Demo.failing fresh_world)
  = Ok [mkRoleInfo "444444444444" "sandbox-d"
          "ERROR: An error occurred (Throttling) when calling the Li..."
          "Error"].
Proof.
  rewrite (failed_page_discards_matches Demo.cloud default_scanner Demo.failing
             fresh_world (Demo.after_exchange Demo.failing)
             (Demo.session_of Demo.failing)
             [[("sandbox-dev", Some Demo.target_arn)]]
             (ClientError "An error occurred (Throttling) when calling the ListRoles operation: Rate exceeded")
             [] eq_refl eq_refl eq_refl).
  reflexivity.
Defined.

(** X5: one role without ['RoleName'], or with a ['PermissionsBoundary'] that
    has no ['PermissionsBoundaryArn'], turns the whole account into the single
    [Error] record that names the missing key, whatever the roles before it
    matched.  The name is read before the boundary, so a role without a name
    does so even when it has no boundary at all. *)
Theorem malformed_role_is_error (cloud : Cloud) (self : Scanner)
    (account : Account) (w w1 : World) (session : Session)
    (good : list (list (string * option string)))
    (before : list (string * option string)) (bad : Role) (after : list Role)
    (rest : list (result RolesPage)) (key : string)
    (Hsession : assume_role_in_account cloud self (Id account) w
                = (Ok (Some session), w1))
    (Hclient : iam_client cloud session = Ok tt)
    (Hpages : list_roles_paginator cloud session
              = map listed_page good
                ++ Ok (mkRolesPage (Some (map listed_role before ++ bad :: after)))
                   :: rest)
    (Hkey : missing_key bad = Some key) :
  fst (scan_account_roles cloud self account w)
  = Ok [mkRoleInfo (Id account) (Name account)
          ("ERROR: '" ++ key ++ "'...") "Error"] /\
  (key = "RoleName" \/ key = "PermissionsBoundaryArn").
Proof.
  assert (Hcases : key = "RoleName" \/ key = "PermissionsBoundaryArn").
  { unfold missing_key in Hkey.
    destruct (RoleName bad); [|injection Hkey as <-; now left].
    destruct (PermissionsBoundary bad) as [[[arn|]]|]; try discriminate.
    injection Hkey as <-. now right. }
  split; [|exact Hcases].
  erewrite (scan_enumeration_error cloud self account w w1 _ session
              (KeyError key) Hsession Hclient).
  - cbn [fst]. destruct Hcases as [-> | ->]; reflexivity.
  - rewrite Hpages, scan_pages_after_listed.
    cbn [scan_pages]. unfold bind at 1. rewrite request_with_calls.
    unfold_m. cbn [Roles].
    rewrite (scan_roles_missing_key self account before bad after key _ _ _ Hkey).
    reflexivity.
Qed.

Lemma malformed_role_is_error_witness :
  fst (scan_account_roles
         (Sample.with_roles
            [listed_page [("sandbox-dev", Some Demo.target_arn)];
             Ok (mkRolesPage (Some [mkRole None None]))])
         default_scanner Demo.compliant fresh_world)
  = Ok [mkRoleInfo "333333333333" "sandbox-c" "ERROR: 'RoleName'..." "Error"].
Proof.
  apply (malformed_role_is_error
           (Sample.with_roles
              [listed_page [("sandbox-dev", Some Demo.target_arn)];
               Ok (mkRolesPage (Some [mkRole None None]))])
           default_scanner Demo.compliant fresh_world
           (Demo.after_exchange Demo.compliant) (Demo.session_of Demo.compliant)
           [[("sandbox-dev", Some Demo.target_arn)]] [] (mkRole None None) []
           [] "RoleName"); reflexivity.
Defined.

(** ** Targets that cannot match *)

Lemma trailing_segment_has_no_slash (s : string) :
  has_slash (trailing_segment s) = false.
Proof.
  induction s as [|c s IH]; [reflexivity|].
  cbn [trailing_segment].
  destruct (has_slash s) eqn:Hs; [exact IH|].
  destruct (Ascii.eqb c "/") eqn:Hc; [exact Hs|].
  cbn. now rewrite Hc, Hs.
Qed.

(** X6: a target that contains ['/'], such as a full ARN given in place of the
    short name, matches no boundary at all: the short name compared with it
    never contains ['/'].  A scanner set up with such a target reports every
    account it can enumerate as [Missing]. *)
Theorem target_with_slash_never_matches (cloud : Cloud) (self : Scanner)
    (account : Account) (w w1 : World) (session : Session)
    (pages : list (list (string * option string)))
    (Hslash : has_slash (target_permission_boundary self) = true)
    (Hsession : assume_role_in_account cloud self (Id account) w
                = (Ok (Some session), w1))
    (Hclient : iam_client cloud session = Ok tt)
    (Hpages : list_roles_paginator cloud session = map listed_page pages) :
  (forall boundary, classify boundary (target_permission_boundary self) = false) /\
  fst (scan_account_roles cloud self account w)
  = Ok [mkRoleInfo (Id account) (Name account)
          ("NO_ROLES_WITH_BOUNDARY ("
           ++ str_int (Z.of_nat (length (concat pages)))
           ++ " total roles)")
          "Missing"].
Proof.
  assert (Hnever : forall boundary,
            classify boundary (target_permission_boundary self) = false).
  { intros [arn|]; [|reflexivity]. cbn [classify].
    rewrite boundary_name_trailing_segment. apply String.eqb_neq. intros E.
    pose proof (trailing_segment_has_no_slash arn) as H.
    rewrite E, Hslash in H. discriminate. }
  split; [exact Hnever|].
  pose proof (scan_pages_listed self account session pages [] 0 w1) as Hp.
  rewrite <- Hpages in Hp.
  rewrite (scan_enumeration_ok cloud self account _ _ _ _ _ Hsession Hclient Hp).
  cbn [fst snd app]. rewrite Z.add_0_l.
  assert (Hnone : matching_roles self (concat pages) = []).
  { unfold matching_roles. clear Hp.
    induction (concat pages) as [|r rs IH]; [reflexivity|].
    cbn [filter]. rewrite Hnever. exact IH. }
  now rewrite Hnone.
Qed.

Lemma target_with_slash_never_matches_witness :
  fst (scan_account_roles Demo.cloud
         (mkScanner Demo.target_arn "ca-iam-cie-engineer")
         Demo.compliant fresh_world)
  = Ok [mkRoleInfo "333333333333" "sandbox-c"
          "NO_ROLES_WITH_BOUNDARY (2 total roles)" "Missing"].
Proof.
  apply (target_with_slash_never_matches Demo.cloud
           (mkScanner Demo.target_arn "ca-iam-cie-engineer")
           Demo.compliant fresh_world (Demo.after_exchange Demo.compliant)
           (Demo.session_of Demo.compliant)
           [[("sandbox-dev", Some Demo.target_arn); ("admin", None)]]);
    reflexivity.
Defined.

(** ** The requests of a task *)



(** ** The order of a report *)

Lemma compare_refl (s : string) : String.compare s s = Eq.
Proof. now apply OrderedTypeEx.String_as_OT.cmp_eq. Qed.

Lemma compare_lt_trans (a b c : string) :
  String.compare a b = Lt -> String.compare b c = Lt -> String.compare a c = Lt.
Proof.
  intros H1 H2.
  apply OrderedTypeEx.String_as_OT.cmp_lt in H1.
  apply OrderedTypeEx.String_as_OT.cmp_lt in H2.
  apply OrderedTypeEx.String_as_OT.cmp_lt.
  exact (OrderedTypeEx.String_as_OT.lt_trans _ _ _ H1 H2).
Qed.

Lemma leb_trans (a b c : string) :
  String.leb a b = true -> String.leb b c = true -> String.leb a c = true.
Proof.
  unfold String.leb. intros H1 H2.
  destruct (String.compare a b) eqn:Hab; try discriminate.
  - apply String.compare_eq_iff in Hab. now subst.
  - destruct (String.compare b c) eqn:Hbc; try discriminate.
    + apply String.compare_eq_iff in Hbc. subst. now rewrite Hab.
    + now rewrite (compare_lt_trans a b c Hab Hbc).
Qed.

Lemma key_leb_refl (x : RoleInfo) : key_leb x x = true.
Proof.
  unfold key_leb, String.leb. now rewrite !compare_refl.
Qed.

Lemma key_leb_total (x y : RoleInfo) : key_leb x y = true \/ key_leb y x = true.
Proof.
  unfold key_leb. rewrite (String.compare_antisym (account_id y)).
  destruct (String.compare (account_id x) (account_id y)); cbn.
  - apply String.leb_total.
  - now left.
  - now right.
Qed.

Lemma key_leb_trans (x y z : RoleInfo) :
  key_leb x y = true -> key_leb y z = true -> key_leb x z = true.
Proof.
  unfold key_leb. intros H1 H2.
  destruct (String.compare (account_id x) (account_id y)) eqn:Hxy;
    try discriminate.
  - apply String.compare_eq_iff in Hxy. rewrite Hxy.
    destruct (String.compare (account_id y) (account_id z)); try discriminate.
    + exact (leb_trans _ _ _ H1 H2).
    + reflexivity.
  - destruct (String.compare (account_id y) (account_id z)) eqn:Hyz;
      try discriminate.
    + apply String.compare_eq_iff in Hyz. rewrite <- Hyz. now rewrite Hxy.
    + now rewrite (compare_lt_trans _ _ _ Hxy Hyz).
Qed.


Lemma same_key_leb (x y : RoleInfo) : same_key x y = true -> key_leb x y = true.
Proof.
  unfold same_key. intros H. apply andb_true_iff in H. destruct H as [Hi Hr].
  apply String.eqb_eq in Hi, Hr. unfold key_leb, String.leb.
  now rewrite Hi, Hr, !compare_refl.
Qed.

Lemma insert_by_key_permutation (x : RoleInfo) (l : list RoleInfo) :
  Permutation (x :: l) (insert_by_key x l).
Proof.
  induction l as [|y l IH]; [reflexivity|].
  cbn [insert_by_key]. destruct (key_leb x y); [reflexivity|].
  rewrite perm_swap. now apply perm_skip.
Qed.

Lemma sorted_by_key_permutation (rs : list RoleInfo) :
  Permutation rs (sorted_by_key rs).
Proof.
  induction rs as [|x rs IH]; [reflexivity|].
  cbn. rewrite <- insert_by_key_permutation. now apply perm_skip.
Qed.

Lemma insert_by_key_sorted (x : RoleInfo) (l : list RoleInfo) :
  StronglySorted key_le l -> StronglySorted key_le (insert_by_key x l).
Proof.
  induction 1 as [|y l Hl IH Hy]; cbn [insert_by_key].
  - repeat constructor.
  - destruct (key_leb x y) eqn:Hxy.
    + constructor; [now constructor|].
      constructor; [exact Hxy|].
      eapply Forall_impl; [|exact Hy]. intros z Hz.
      exact (key_leb_trans _ _ _ Hxy Hz).
    + constructor; [exact IH|].
      assert (Hyx : key_le y x)
        by (destruct (key_leb_total x y) as [H|H]; [congruence|exact H]).
      eapply Permutation_Forall; [apply insert_by_key_permutation|].
      now constructor.
Qed.

Lemma sorted_by_key_sorted (rs : list RoleInfo) :
  StronglySorted key_le (sorted_by_key rs).
Proof.
  induction rs as [|x rs IH]; [constructor|].
  cbn. now apply insert_by_key_sorted.
Qed.

(** X8: the rows of a report are the records of the collection, each as often
    as it occurs there, in ascending order of (account id, role name): every
    row's key is at most the key of every row after it. *)
Theorem report_is_sorted_permutation (rs : list RoleInfo) :
  Permutation rs (sorted_by_key rs) /\
  StronglySorted key_le (sorted_by_key rs) /\
  length (sorted_by_key rs) = length rs.
Proof.
  split; [apply sorted_by_key_permutation|].
  split; [apply sorted_by_key_sorted|].
  symmetry. apply Permutation_length, sorted_by_key_permutation.
Qed.

Lemma insert_by_key_same_key (k x : RoleInfo) (l : list RoleInfo) :
  filter (same_key k) (insert_by_key x l)
  = filter (same_key k) (x :: l).
Proof.
  induction l as [|y l IH]; [reflexivity|].
  cbn [insert_by_key]. destruct (key_leb x y) eqn:Hxy; [reflexivity|].
  cbn [filter] in *. rewrite IH.
  destruct (same_key k x) eqn:Hkx, (same_key k y) eqn:Hky; try reflexivity.
  exfalso.
  assert (Hsame : same_key x y = true).
  { unfold same_key in *.
    apply andb_true_iff in Hkx, Hky. destruct Hkx as [H1 H2], Hky as [H3 H4].
    apply String.eqb_eq in H1, H2, H3, H4.
    now rewrite <- H1, <- H2, H3, H4, !String.eqb_refl. }
  apply same_key_leb in Hsame. congruence.
Qed.

(** X9: the sort is stable: the records that share a sort key come out in the
    order in which they stand in the collection. *)
Theorem report_sort_is_stable (k : RoleInfo) (rs : list RoleInfo) :
  filter (same_key k) (sorted_by_key rs) = filter (same_key k) rs.
Proof.
  induction rs as [|x rs IH]; [reflexivity|].
  cbn [sorted_by_key fold_right]. fold (sorted_by_key rs).
  rewrite insert_by_key_same_key. cbn [filter]. now rewrite IH.
Qed.

Lemma sorted_by_key_of_sorted (rs : list RoleInfo) :
  StronglySorted key_le rs -> sorted_by_key rs = rs.
Proof.
  induction 1 as [|x l Hl IH Hx]; [reflexivity|].
  cbn [sorted_by_key fold_right]. fold (sorted_by_key l). rewrite IH.
  destruct l as [|y l]; [reflexivity|].
  cbn [insert_by_key]. inversion Hx as [|? ? Hxy _]; subst.
  unfold key_le in Hxy. now rewrite Hxy.
Qed.

(** X10: sorting a report again changes nothing, and a collection already in
    order is its own report. *)
Theorem report_sort_is_idempotent (rs : list RoleInfo) :
  sorted_by_key (sorted_by_key rs) = sorted_by_key rs /\
  (StronglySorted key_le rs -> sorted_by_key rs = rs).
Proof.
  split; [|apply sorted_by_key_of_sorted].
  apply sorted_by_key_of_sorted, sorted_by_key_sorted.
Qed.

Lemma report_sort_is_idempotent_witness :
  sorted_by_key
    [mkRoleInfo "1" "a" "r1" "Exists"; mkRoleInfo "1" "a" "r2" "Exists";
     mkRoleInfo "2" "b" "ACCESS_DENIED" "N/A"]
  = [mkRoleInfo "1" "a" "r1" "Exists"; mkRoleInfo "1" "a" "r2" "Exists";
     mkRoleInfo "2" "b" "ACCESS_DENIED" "N/A"].
Proof.
  apply (proj2 (report_sort_is_idempotent _)).
  repeat constructor.
Defined.

(** ** Reports and the order of completion *)












(** ** The table *)

Lemma string_length_app (s t : string) :
  String.length (s ++ t)%string = String.length s + String.length t.
Proof. induction s as [|c s IH]; cbn; [reflexivity|now rewrite IH]. Qed.

Lemma str_prefix_all (n : nat) (s : string) :
  String.length s <= n -> str_prefix n s = s.
Proof.
  unfold str_prefix. revert s.
  induction n as [|n IH]; intros [|c s] H; cbn in *; try reflexivity; try lia.
  rewrite IH by lia. reflexivity.
Qed.

Lemma str_prefix_exact (n : nat) (s : string) :
  n <= String.length s -> String.length (str_prefix n s) = n.
Proof.
  unfold str_prefix. revert s.
  induction n as [|n IH]; intros [|c s] H; cbn in *; try reflexivity; try lia.
  rewrite IH by lia. reflexivity.
Qed.

Lemma ellipsis_fits (n : nat) (s : string) :
  String.length s <= n -> ellipsis n s = s.
Proof.
  intros H. unfold ellipsis.
  destruct (Nat.ltb_spec n (String.length s)); [lia|reflexivity].
Qed.

Lemma ellipsis_cuts (n : nat) (s : string) :
  n < String.length s ->
  ellipsis n s = (str_prefix n s ++ "...")%string /\
  String.length (ellipsis n s) = n + 3.
Proof.
  intros H. unfold ellipsis.
  destruct (Nat.ltb_spec n (String.length s)); [|lia].
  split; [reflexivity|].
  rewrite string_length_app, str_prefix_exact by lia. reflexivity.
Qed.

Lemma ellipsis_bound (n : nat) (s : string) :
  String.length (ellipsis n s) <= n + 3.
Proof.
  destruct (Nat.le_gt_cases (String.length s) n) as [H|H].
  - rewrite ellipsis_fits by exact H. lia.
  - destruct (ellipsis_cuts n s H) as [_ ->]. lia.
Qed.

(** X12: the table has one row for each record of the collection, in the
    order of the report, and building it leaves the collection as it is.  A row
    shows the account id whole; it shows an account name of at most 24
    characters and a role name of at most 39 characters whole, and of a longer
    one the first 24, or 39, characters followed by ["..."], so that the two
    cells hold at most 27 and 42 characters. *)
Theorem table_rows (w : World) :
  exists rows,
    create_results_table w = (Ok rows, w) /\
    Forall2
      (fun r row =>
         account_id row = account_id r /\
         (String.length (account_name r) <= 24 ->
          account_name row = account_name r) /\
         (24 < String.length (account_name r) ->
          account_name row = (str_prefix 24 (account_name r) ++ "...")%string) /\
         (String.length (role_name r) <= 39 -> role_name row = role_name r) /\
         (39 < String.length (role_name r) ->
          role_name row = (str_prefix 39 (role_name r) ++ "...")%string) /\
         String.length (account_name row) <= 27 /\
         String.length (role_name row) <= 42)
      (sorted_by_key (results w)) rows.
Proof.
  exists (map table_row (sorted_by_key (results w))).
  split; [reflexivity|].
  induction (sorted_by_key (results w)) as [|r rs IH]; constructor;
    [|exact IH].
  cbn [table_row account_id account_name role_name].
  split; [reflexivity|].
  split; [apply ellipsis_fits|].
  split; [intros H; apply (ellipsis_cuts 24 _ H)|].
  split; [apply ellipsis_fits|].
  split; [intros H; apply (ellipsis_cuts 39 _ H)|].
  split; [apply (ellipsis_bound 24)|apply (ellipsis_bound 39)].
Qed.

Lemma table_rows_witness :
  fst (create_results_table
         (mkWorld
            [mkRoleInfo "222222222222" "sandbox-b"
               "NO_ROLES_WITH_BOUNDARY (217 total roles)" "Missing";
             mkRoleInfo "111111111111" "a-remarkably-long-account-name"
               "ACCESS_DENIED" "N/A"] 0 [] []))
  = Ok [mkRoleInfo "111111111111" "a-remarkably-long-accoun..."
          "ACCESS_DENIED" "[yellow]N/A[/yellow]";
        mkRoleInfo "222222222222" "sandbox-b"
          "NO_ROLES_WITH_BOUNDARY (217 total roles..." "[red]Missing[/red]"].
Proof.
  destruct (table_rows
              (mkWorld
                 [mkRoleInfo "222222222222" "sandbox-b"
                    "NO_ROLES_WITH_BOUNDARY (217 total roles)" "Missing";
                  mkRoleInfo "111111111111" "a-remarkably-long-account-name"
                    "ACCESS_DENIED" "N/A"] 0 [] []))
    as (rows & E & _).
  rewrite E. cbn [fst]. f_equal.
  injection E as <-. reflexivity.
Defined.

(** The status of a record of a task is one of the four the task writes. *)
Lemma account_records_status (cloud : Cloud) (self : Scanner) (account : Account) :
  Forall (fun r => In (has_permission_boundary r)
                     ["Exists"; "Missing"; "N/A"; "Error"])
    (account_records cloud self account).
Proof.
  destruct (account_records_shape cloud self account) as [Hshape _].
  destruct (exists_records (account_records cloud self account)) eqn:He.
  - destruct (account_records cloud self account) as [|r rs]; [discriminate|].
    cbn [exists_records] in He. rewrite forallb_forall in He.
    apply Forall_forall. intros x Hx. specialize (He x Hx).
    unfold status_is in He. apply String.eqb_eq in He. rewrite He. now left.
  - cbn in Hshape.
    destruct (account_records cloud self account) as [|r [|r' rs]];
      try discriminate.
    constructor; [|constructor].
    cbn [one_sentinel] in Hshape. unfold is_sentinel, status_is in Hshape.
    apply orb_true_iff in Hshape. destruct Hshape as [H|H];
      [apply orb_true_iff in H; destruct H as [H|H]|];
      apply String.eqb_eq in H; rewrite H; cbn; tauto.
Qed.

(** X13: in the table the status of every record a task can produce is shown
    in a colour of its own kind: ["Exists"] in green, ["Missing"] in red,
    ["N/A"] and ["Error"] in yellow. *)
Theorem table_status_colours (cloud : Cloud) (self : Scanner)
    (account : Account) :
  Forall
    (fun r =>
       let cell := has_permission_boundary (table_row r) in
       (has_permission_boundary r = "Exists"
        /\ cell = "[green]Exists[/green]") \/
       (has_permission_boundary r = "Missing"
        /\ cell = "[red]Missing[/red]") \/
       (has_permission_boundary r = "N/A"
        /\ cell = "[yellow]N/A[/yellow]") \/
       (has_permission_boundary r = "Error"
        /\ cell = "[yellow]Error[/yellow]"))
    (account_records cloud self account).
Proof.
  eapply Forall_impl; [|apply account_records_status].
  intros r Hr. cbn [table_row has_permission_boundary].
  destruct Hr as [<-|[<-|[<-|[<-|[]]]]]; cbn; tauto.
Qed.

(** ** The lines and the figures of a run *)

Lemma save_to_csv_world (cloud : Cloud) (w : World) :
  exists saved line,
    save_to_csv cloud w
    = (Ok saved,
       mkWorld (results w) (progress w) (calls w) (console w ++ [line])) /\
    (line = ResultsSaved \/ exists e, line = ErrorSavingCsv e).
Proof.
  unfold save_to_csv, get_results. unfold_m.
  destruct (write_csv cloud _) as [[]|e]; do 2 eexists;
    (split; [reflexivity|]); [now left|right; now eexists].
Qed.

Lemma get_all_active_accounts_found (cloud : Cloud) (w : World) :
  active_accounts cloud <> [] ->
  exists n,
    get_all_active_accounts cloud w
    = (Ok (active_accounts cloud),
       mkWorld (results w) (progress w)
         (calls w ++ repeat ListAccountsPage n)
         (console w ++
          [FetchingAccounts; FoundAccounts (length (active_accounts cloud))])).
Proof.
  intros Hsome.
  pose proof (get_all_active_accounts_eq cloud w) as Heq.
  revert Heq. unfold get_all_active_accounts at 1. unfold_m.
  cbn [console_print].
  destruct (paginate_accounts_world (list_accounts_paginator cloud) []
              (mkWorld (results w) (progress w) (calls w)
                 (console w ++ [FetchingAccounts]))) as [n Hn].
  destruct (paginate_accounts _ _ _) as [[accounts|e] w1]; cbn [snd] in Hn;
    subst w1; intros Heq.
  - injection Heq as Hacc Hcalls Hconsole. exists n.
    rewrite (get_all_active_accounts_eq cloud w). unfold after.
    rewrite <- Hcalls, <- Hconsole, <- Hacc.
    unfold with_calls. cbn. now rewrite <- app_assoc.
  - injection Heq as Hacc _. congruence.
Qed.

Lemma scan_all_accounts_transcript (cloud : Cloud) (self : Scanner)
    (max_workers : Z) (w : World) :
  active_accounts cloud <> [] ->
  (0 < max_workers)%Z ->
  exists w' line,
    scan_all_accounts cloud self max_workers w = (Ok (Some (results w')), w') /\
    results w'
    = results w ++ flat_map (account_records cloud self)
                     (completion_order cloud (active_accounts cloud)) /\
    progress w' = Z.of_nat (length (completion_order cloud (active_accounts cloud))) /\
    console w'
    = console w ++
      [FetchingAccounts;
       FoundAccounts (length (active_accounts cloud));
       StartingScan (length (active_accounts cloud)) max_workers;
       TargetBoundary (target_permission_boundary self);
       AssumingRole (role_to_assume self);
       ResultsTable (map table_row (sorted_by_key (results w')));
       ScanSummary (length (active_accounts cloud))
         (count_status (fun s => negb (String.eqb s "N/A")) (results w'))
         (length (results w'))
         (count_status (fun s => String.eqb s "Exists") (results w'));
       line] /\
    (line = ResultsSaved \/ exists e, line = ErrorSavingCsv e).
Proof.
  intros Hsome Hpool. unfold scan_all_accounts.
  destruct (get_all_active_accounts_found cloud w Hsome) as [n Eg].
  erewrite bind_ok by exact Eg.
  destruct (active_accounts cloud) as [|a accounts] eqn:Ha; [congruence|].
  unfold thread_pool_executor.
  destruct (Z.leb_spec max_workers 0); [lia|].
  do 5 (erewrite bind_ok by reflexivity).
  cbn [results progress calls console].
  match goal with
  | |- context [bind (run_workers ?c ?s ?l) _ ?w0] =>
      destruct (run_workers_eq c s l w0) as (w1 & E & Hr & Hp & Hc)
  end.
  erewrite bind_ok by exact E.
  unfold create_results_table.
  do 4 (erewrite bind_ok by reflexivity).
  cbn [results progress calls console].
  match goal with
  | |- context [bind (save_to_csv ?c) _ ?w2] =>
      destruct (save_to_csv_world c w2) as (saved & line & Es & Hline)
  end.
  erewrite bind_ok by exact Es.
  cbn [results progress calls console] in *.
  eexists _, line. split; [reflexivity|].
  cbn [results progress calls console].
  split; [exact Hr|]. split; [rewrite Hp; lia|]. split; [|exact Hline].
  rewrite Hc, <- !app_assoc. reflexivity.
Qed.

Lemma count_status_app (p : string -> bool) (rs rs' : list RoleInfo) :
  count_status p (rs ++ rs') = count_status p rs + count_status p rs'.
Proof. unfold count_status. now rewrite filter_app, length_app. Qed.

Lemma count_status_split (p : string -> bool) (rs : list RoleInfo) :
  count_status (fun s => negb (p s)) rs + count_status p rs = length rs.
Proof.
  unfold count_status. induction rs as [|r rs IH]; [reflexivity|].
  cbn [filter length]. destruct (p (has_permission_boundary r)); cbn; lia.
Qed.

Lemma count_status_le (p q : string -> bool) (rs : list RoleInfo) :
  (forall s, p s = true -> q s = true) ->
  count_status p rs <= count_status q rs.
Proof.
  intros H. unfold count_status. induction rs as [|r rs IH]; [reflexivity|].
  cbn [filter]. destruct (p (has_permission_boundary r)) eqn:Hp.
  - rewrite (H _ Hp). cbn. lia.
  - destruct (q (has_permission_boundary r)); cbn; lia.
Qed.

Lemma count_status_none (p : string -> bool) (rs : list RoleInfo) :
  Forall (fun r => p (has_permission_boundary r) = false) rs ->
  count_status p rs = 0.
Proof.
  unfold count_status. induction 1 as [|r rs Hr _ IH]; [reflexivity|].
  cbn [filter]. now rewrite Hr.
Qed.

(** An account contributes one ["N/A"] record when its delegation is denied
    and none otherwise. *)
Lemma account_records_denied (cloud : Cloud) (self : Scanner) (account : Account) :
  count_status (fun s => String.eqb s "N/A") (account_records cloud self account)
  = if delegation_denied cloud self account then 1 else 0.
Proof.
  unfold account_records, delegation_denied.
  destruct (assume_role_in_account_ok cloud self account fresh_world)
    as [[session|] Ha].
  - rewrite Ha. cbn [fst].
    destruct (iam_client cloud session) as [[]|e] eqn:Hc.
    + destruct (scan_pages self account session
                  (list_roles_paginator cloud session) [] 0
                  (snd (assume_role_in_account cloud self (Id account)
                          fresh_world)))
        as [[acc|e] w2] eqn:Hp.
      * rewrite (scan_enumeration_ok cloud self account _ _ _ _ _ Ha Hc Hp).
        cbn [fst].
        pose proof (scan_pages_exists _ _ _ _ _ _ _ _ _ (Forall_nil _) Hp) as H.
        destruct (fst acc) as [|r rs]; [reflexivity|].
        apply count_status_none. eapply Forall_impl; [|exact H].
        intros x [Hx _]. now rewrite Hx.
      * now rewrite (scan_enumeration_error cloud self account _ _ _ _ _ Ha Hc Hp).
    + now rewrite (scan_client_error cloud self account _ _ _ _ Ha Hc).
  - rewrite (scan_denied cloud self account _ _ Ha), Ha. reflexivity.
Qed.

Lemma account_records_nonempty (cloud : Cloud) (self : Scanner)
    (account : Account) :
  1 <= length (account_records cloud self account).
Proof.
  destruct (account_records_shape cloud self account) as [H _].
  destruct (account_records cloud self account); [discriminate|cbn; lia].
Qed.

Lemma run_records_counts (cloud : Cloud) (self : Scanner)
    (accounts : list Account) :
  count_status (fun s => String.eqb s "N/A")
    (flat_map (account_records cloud self) accounts)
  = length (filter (delegation_denied cloud self) accounts) /\
  length accounts <= length (flat_map (account_records cloud self) accounts).
Proof.
  induction accounts as [|a accounts [IH1 IH2]]; [now split|].
  cbn [flat_map filter]. rewrite count_status_app, length_app, IH1.
  rewrite account_records_denied.
  pose proof (account_records_nonempty cloud self a).
  destruct (delegation_denied cloud self a); cbn [length]; lia.
Qed.

Lemma filter_length_permutation {A : Type} (p : A -> bool) (l l' : list A) :
  Permutation l l' -> length (filter p l) = length (filter p l').
Proof.
  induction 1 as [|x l l' _ IH|x y l|l l' l'' _ IH1 _ IH2]; cbn [filter].
  - reflexivity.
  - destruct (p x); cbn; now rewrite IH.
  - destruct (p x), (p y); reflexivity.
  - now rewrite IH1.
Qed.

Lemma scan_all_accounts_no_pool_world (cloud : Cloud) (self : Scanner)
    (max_workers : Z) (w : World) :
  active_accounts cloud <> [] ->
  (max_workers <= 0)%Z ->
  exists n,
    scan_all_accounts cloud self max_workers w
    = (Raise (ValueError "max_workers must be greater than 0"),
       mkWorld (results w) 0
         (calls w ++ repeat ListAccountsPage n)
         (console w ++
          [FetchingAccounts;
           FoundAccounts (length (active_accounts cloud));
           StartingScan (length (active_accounts cloud)) max_workers;
           TargetBoundary (target_permission_boundary self);
           AssumingRole (role_to_assume self)])).
Proof.
  intros Hsome Hpool. unfold scan_all_accounts.
  destruct (get_all_active_accounts_found cloud w Hsome) as [n Eg].
  erewrite bind_ok by exact Eg.
  destruct (active_accounts cloud) as [|a accounts] eqn:Ha; [congruence|].
  unfold thread_pool_executor.
  destruct (Z.leb_spec max_workers 0); [|lia].
  do 4 (erewrite bind_ok by reflexivity).
  exists n. unfold bind, raise. cbn. rewrite <- !app_assoc. reflexivity.
Qed.

(** ** [main] on a console that takes every line *)

Example main_all_denied :
  fst (main Sample2.all_denied fresh_world) = Ok ScanCompleted.
Proof. reflexivity. Qed.

Example main_unreachable_directory :
  fst (main Demo.unreachable_directory fresh_world) = Ok ScanFailedOrEmpty.
Proof. reflexivity. Qed.

(** ** The pool runs to its end *)

(** X18: the lock cannot block the pool.  In every pool reached from a start,
    as long as some thread has not run to its end, some thread has a step to
    take: a thread waiting at [with self.lock:] waits only while another
    thread is inside the lock, and that thread can always go on and release
    it. *)
Theorem pool_is_never_stuck (cloud : Cloud) (self : Scanner) (p0 p : Pool.pool)
    (i : nat) (t : Pool.thread)
    (Hinit : Pool.initial p0)
    (Hreach : Pool.reachable cloud self p0 p)
    (Hthread : Pool.threads p i = Some t)
    (Hunfinished : thread_finished t = false) :
  exists j p', Pool.fire cloud self p j = Some p' /\ Pool.step cloud self p p'.
Proof.
  pose proof (PoolFacts.invariant_reachable cloud self p0 p Hinit Hreach) as I.
  assert (Hgo : forall k tk,
            Pool.threads p k = Some tk ->
            (Pool.in_lock tk = true \/
             (exists a, tk = Pool.Worker a Pool.AtScan) \/
             (Pool.lock p = None /\ thread_finished tk = false)) ->
            exists p', Pool.fire cloud self p k = Some p').
  { intros k tk Hk Hcase. unfold Pool.fire. rewrite Hk.
    destruct tk as [a [|rs|rs|rs|rs|rs]|[| |rs|rs n|rs n]];
      try (eexists; reflexivity).
    - rewrite (scan_account_roles_eq cloud self a (Pool.shared p)).
      eexists; reflexivity.
    - destruct Hcase as [H|[[a' H]|[H _]]]; try discriminate.
      rewrite H. eexists; reflexivity.
    - destruct Hcase as [H|[[a' H]|[_ H]]]; discriminate.
    - destruct Hcase as [H|[[a' H]|[H _]]]; try discriminate.
      rewrite H. eexists; reflexivity.
    - destruct Hcase as [H|[[a' H]|[_ H]]]; discriminate. }
  assert (Hfire : exists j p', Pool.fire cloud self p j = Some p').
  { destruct (Pool.lock p) as [k|] eqn:Hlock.
    - destruct (Pool.inv_held I Hlock) as (tk & Hk & Hin).
      exists k. apply (Hgo k tk Hk). now left.
    - exists i. apply (Hgo i t Hthread). right. right. now split. }
  destruct Hfire as (j & p' & Hf). exists j, p'. split; [exact Hf|].
  exact (PoolFacts.fire_step cloud self p p' j Hf).
Qed.

Lemma pool_is_never_stuck_witness :
  exists j p',
    Pool.fire Demo.cloud default_scanner PoolDemo.start j = Some p' /\
    Pool.step Demo.cloud default_scanner PoolDemo.start p'.
Proof.
  apply (pool_is_never_stuck Demo.cloud default_scanner PoolDemo.start
           PoolDemo.start 2 (Pool.Reader Pool.NotStarted)).
  - repeat split. intros [|[|[|i]]] t [= <-]; reflexivity.
  - apply Pool.reachable_refl.
  - reflexivity.
  - reflexivity.
Defined.

Section PublishedOnce.

Variable cloud : Cloud.
Variable self : Scanner.
Variable p0 : Pool.pool.

Lemma published_once_initial : Pool.initial p0 -> published_once cloud self p0 p0.
Proof.
  intros (_ & Hpub & Hts). split; [reflexivity|].
  exists []. split; [constructor|]. split; [exact Hpub|].
  intros i. split; [contradiction|].
  unfold has_appended. destruct (Pool.threads p0 i) as [t|] eqn:Ht; [|discriminate].
  specialize (Hts i t Ht). destruct t as [a []|]; discriminate.
Qed.

Lemma published_once_moved (p : Pool.pool) (i : nat) (t t' : Pool.thread)
    (sh : World) (l : option nat) :
  published_once cloud self p0 p ->
  Pool.threads p i = Some t ->
  worker_account (Some t') = worker_account (Some t) ->
  has_appended (Some t') = has_appended (Some t) ->
  published_once cloud self p0
    (Pool.mkPool sh l (Pool.update (Pool.threads p) i t') (Pool.published p)).
Proof.
  intros (Hacc & order & Hnd & Hpub & Hin) Ht Ha Hp. split.
  - intros j. cbn [Pool.threads]. unfold Pool.update.
    destruct (Nat.eqb_spec j i) as [->|Hj]; [|apply Hacc].
    now rewrite Ha, <- Ht.
  - exists order. split; [exact Hnd|]. split; [exact Hpub|].
    intros j. cbn [Pool.threads]. unfold Pool.update.
    destruct (Nat.eqb_spec j i) as [->|Hj]; [|apply Hin].
    now rewrite Hp, <- Ht.
Qed.

Lemma published_once_extend (p : Pool.pool) (i : nat) (account : Account)
    (sh : World) (l : option nat) :
  published_once cloud self p0 p ->
  Pool.threads p i
  = Some (Pool.Worker account
            (Pool.InLock (account_records cloud self account))) ->
  published_once cloud self p0
    (Pool.mkPool sh l
       (Pool.update (Pool.threads p) i
          (Pool.Worker account
             (Pool.Extended (account_records cloud self account))))
       (Pool.published p ++ [account_records cloud self account])).
Proof.
  intros (Hacc & order & Hnd & Hpub & Hin) Ht. split.
  - intros j. cbn [Pool.threads]. unfold Pool.update.
    destruct (Nat.eqb_spec j i) as [->|Hj]; [|apply Hacc].
    now rewrite <- Hacc, Ht.
  - exists (order ++ [i]). split; [|split].
    + apply NoDup_app. repeat split.
      * exact Hnd.
      * repeat constructor. intros [].
      * intros j Hj [<-|[]]. apply Hin in Hj. rewrite Ht in Hj. discriminate.
    + cbn [Pool.published]. rewrite flat_map_app, Hpub. cbn [flat_map].
      rewrite <- Hacc, Ht. reflexivity.
    + intros j. cbn [Pool.threads]. unfold Pool.update. rewrite in_app_iff.
      destruct (Nat.eqb_spec j i) as [->|Hj].
      * split; [reflexivity|]. intros _. right. now left.
      * rewrite <- Hin. split; [|now left].
        intros [H|[E|[]]]; [exact H|congruence].
Qed.

Lemma published_once_step (p p' : Pool.pool) :
  Pool.invariant cloud self p0 p ->
  published_once cloud self p0 p ->
  Pool.step cloud self p p' ->
  published_once cloud self p0 p'.
Proof.
  intros I J Hstep.
  destruct Hstep as
    [p i a rs w' Ht Hscan | p i a rs Ht Hfree | p i a rs Ht | p i a rs Ht
    | p i a rs Ht | p i Ht Hfree | p i Ht | p i rs Ht | p i rs n Ht];
    try (eapply published_once_moved; [exact J|exact Ht|reflexivity|reflexivity]).
  pose proof (Pool.inv_carried I _ Ht eq_refl) as ->.
  now apply published_once_extend.
Qed.

Lemma published_once_reachable (p : Pool.pool) :
  Pool.initial p0 -> Pool.reachable cloud self p0 p ->
  published_once cloud self p0 p.
Proof.
  intros Hinit Hreach. induction Hreach as [|p p' Hreach IH Hstep].
  - now apply published_once_initial.
  - eapply published_once_step; [|exact IH|exact Hstep].
    now apply PoolFacts.invariant_reachable.
Qed.

End PublishedOnce.

Lemma flat_map_map_inner {A B C : Type} (f : B -> C) (g : A -> list B)
    (l : list A) :
  flat_map (fun x => map f (g x)) l = map f (flat_map g l).
Proof.
  induction l as [|x l IH]; [reflexivity|].
  cbn. now rewrite IH, map_app.
Qed.

Lemma flat_map_filter_nonempty {A B : Type} (g : A -> list B) (keep : A -> bool)
    (l : list A) :
  (forall x, keep x = false -> g x = []) ->
  flat_map g (filter keep l) = flat_map g l.
Proof.
  intros H. induction l as [|x l IH]; [reflexivity|].
  cbn [filter]. destruct (keep x) eqn:Hk; cbn [flat_map].
  - now rewrite IH.
  - now rewrite (H x Hk), IH.
Qed.

(** Once every thread has run to its end, the lock is free and the record
    sets published are those of the pool's accounts, taken in some order. *)
Lemma finished_pool_completed (cloud : Cloud) (self : Scanner)
    (p0 p : Pool.pool) (n : nat) :
  Pool.initial p0 ->
  (forall i, n <= i -> Pool.threads p0 i = None) ->
  Pool.reachable cloud self p0 p ->
  (forall i t, Pool.threads p i = Some t -> thread_finished t = true) ->
  exists completed,
    Permutation (pool_accounts p0 n) completed /\
    Pool.published p = map (account_records cloud self) completed /\
    Pool.lock p = None.
Proof.
  intros Hinit Hbound Hreach Hdone.
  pose proof (PoolFacts.invariant_reachable cloud self p0 p Hinit Hreach) as I.
  destruct (published_once_reachable cloud self p0 p Hinit Hreach)
    as (Hacc & order & Hnd & Hpub & Hin).
  set (is_worker := fun i =>
         match worker_account (Pool.threads p0 i) with
         | [] => false
         | _ :: _ => true
         end).
  assert (Hmember : forall i, In i (filter is_worker (seq 0 n)) <-> In i order).
  { intros i. rewrite Hin, filter_In, in_seq. unfold is_worker.
    rewrite <- Hacc. unfold has_appended, worker_account.
    destruct (Pool.threads p i) as [t|] eqn:Ht.
    - specialize (Hdone i t Ht).
      destruct t as [a [|rs|rs|rs|rs|rs]|[| |rs|rs k|rs k]]; try discriminate.
      + split; [reflexivity|]. intros _. split; [|reflexivity].
        split; [lia|]. destruct (Nat.lt_ge_cases i n) as [H|H]; [exact H|].
        pose proof (Hacc i) as Hi. rewrite Ht, (Hbound i H) in Hi. discriminate.
      + split; [|discriminate]. now intros [_ H].
    - split; [|discriminate]. now intros [_ H]. }
  exists (flat_map (fun i => worker_account (Pool.threads p0 i)) order).
  split; [|split].
  - unfold pool_accounts.
    rewrite <- (flat_map_filter_nonempty _ is_worker (seq 0 n)).
    + apply Permutation_flat_map, NoDup_Permutation;
        [apply NoDup_filter, seq_NoDup|exact Hnd|exact Hmember].
    + intros i. unfold is_worker.
      now destruct (worker_account (Pool.threads p0 i)).
  - now rewrite Hpub, flat_map_map_inner.
  - destruct (Pool.lock p) as [k|] eqn:Hlock; [|reflexivity].
    destruct (Pool.inv_held I Hlock) as (t & Ht & Hinl).
    specialize (Hdone k t Ht).
    destruct t as [a [|rs|rs|rs|rs|rs]|[| |rs|rs m|rs m]]; discriminate.
Qed.

(** X19: whatever the interleaving, a pool whose threads have all run to
    their end has published exactly one record set for each of its workers,
    that of the worker's account: the record sets in the collection are those
    of the pool's accounts in some order, nothing is lost and nothing is
    published twice, and the counter stands at the number of workers. *)
Theorem finished_pool_published_all (cloud : Cloud) (self : Scanner)
    (p0 p : Pool.pool) (n : nat)
    (Hinit : Pool.initial p0)
    (Hbound : forall i, n <= i -> Pool.threads p0 i = None)
    (Hreach : Pool.reachable cloud self p0 p)
    (Hdone : forall i t, Pool.threads p i = Some t -> thread_finished t = true) :
  Permutation (Pool.published p)
    (map (account_records cloud self) (pool_accounts p0 n)) /\
  results (Pool.shared p)
  = results (Pool.shared p0) ++ concat (Pool.published p) /\
  progress (Pool.shared p)
  = (progress (Pool.shared p0) + Z.of_nat (length (pool_accounts p0 n)))%Z.
Proof.
  pose proof (PoolFacts.invariant_reachable cloud self p0 p Hinit Hreach) as I.
  destruct (finished_pool_completed cloud self p0 p n Hinit Hbound Hreach Hdone)
    as (completed & Hperm & Hpub & Hfree).
  split; [|split].
  - rewrite Hpub. now apply Permutation_map, Permutation_sym.
  - apply (Pool.inv_results I).
  - pose proof (Pool.inv_progress I) as Hp.
    unfold Pool.between_updates in Hp. rewrite Hfree in Hp.
    rewrite Z.add_0_r in Hp.
    now rewrite Hp, Hpub, length_map, (Permutation_length Hperm).
Qed.

Lemma finished_pool_published_all_witness :
  match Pool.run Demo.cloud default_scanner
          [1; 0; 1; 1; 1; 1; 2; 2; 2; 2; 0; 0; 0; 0] PoolDemo.start with
  | Some p =>
      Permutation (Pool.published p)
        (map (account_records Demo.cloud default_scanner)
           [Demo.compliant; Demo.denied]) /\
      progress (Pool.shared p) = 2%Z
  | None => False
  end.
Proof.
  destruct (Pool.run Demo.cloud default_scanner
              [1; 0; 1; 1; 1; 1; 2; 2; 2; 2; 0; 0; 0; 0] PoolDemo.start)
    as [p|] eqn:E.
  - assert (Hinit : Pool.initial PoolDemo.start).
    { repeat split. intros [|[|[|i]]] t [= <-]; reflexivity. }
    assert (Hreach : Pool.reachable Demo.cloud default_scanner PoolDemo.start p).
    { apply (PoolFacts.run_reachable Demo.cloud default_scanner PoolDemo.start
               [1; 0; 1; 1; 1; 1; 2; 2; 2; 2; 0; 0; 0; 0] PoolDemo.start p);
        [apply Pool.reachable_refl | exact E]. }
    assert (Hdone : forall i t,
              Pool.threads p i = Some t -> thread_finished t = true).
    { vm_compute in E. injection E as <-.
      intros [|[|[|i]]] t [= <-]; reflexivity. }
    destruct (finished_pool_published_all Demo.cloud default_scanner
                PoolDemo.start p 3 Hinit) as (H1 & _ & H3).
    + intros [|[|[|i]]] Hi; try lia; reflexivity.
    + exact Hreach.
    + exact Hdone.
    + split; [exact H1|exact H3].
  - vm_compute in E. discriminate E.
Defined.

(** ** What the [ACCESS_DENIED] row stands for *)

Lemma account_records_entered (cloud : Cloud) (self : Scanner)
    (account : Account) :
  delegation_denied cloud self account = false ->
  Forall (fun r => has_permission_boundary r <> "N/A")
    (account_records cloud self account).
Proof.
  intros Hd. pose proof (account_records_denied cloud self account) as Hc.
  rewrite Hd in Hc. unfold count_status in Hc.
  apply Forall_forall. intros r Hr E.
  assert (Hin : In r (filter (fun r => String.eqb (has_permission_boundary r) "N/A")
                        (account_records cloud self account))).
  { apply filter_In. split; [exact Hr|]. now rewrite E. }
  destruct (filter _ _); [contradiction|discriminate].
Qed.

(** X20: the row [ACCESS_DENIED] / [N/A] does not only mean that the
    delegation was denied.  An account gets it exactly when the exchange gave
    no session, for whatever reason: the client could not be created, the
    exchange raised any exception at all, or the response lacked a credential
    key.  In every other case no record of the account has status ["N/A"]. *)
Theorem access_denied_row_iff (cloud : Cloud) (self : Scanner)
    (account : Account) :
  let no_session :=
    (exists e, sts_client cloud = Raise e) \/
    (exists e, assume_role cloud (role_arn_of self (Id account))
                 (role_session_name cloud (Id account)) = Raise e) \/
    (exists response,
       assume_role cloud (role_arn_of self (Id account))
         (role_session_name cloud (Id account)) = Ok response /\
       session_of_response response = None) in
  (account_records cloud self account
   = [mkRoleInfo (Id account) (Name account) "ACCESS_DENIED" "N/A"]
   <-> no_session) /\
  (~ no_session ->
   Forall (fun r => has_permission_boundary r <> "N/A")
     (account_records cloud self account)).
Proof.
  cbn zeta.
  assert (Hd : delegation_denied cloud self account = true <->
               ((exists e, sts_client cloud = Raise e) \/
                (exists e, assume_role cloud (role_arn_of self (Id account))
                             (role_session_name cloud (Id account)) = Raise e) \/
                (exists response,
                   assume_role cloud (role_arn_of self (Id account))
                     (role_session_name cloud (Id account)) = Ok response /\
                   session_of_response response = None))).
  { unfold delegation_denied. rewrite assume_role_in_account_eq.
    destruct (sts_client cloud) as [[]|e0].
    - cbn [fst].
      destruct (assume_role cloud _ _) as [response|e].
      + destruct (session_of_response response) as [session|] eqn:Hs.
        * split; [discriminate|].
          intros [[e H]|[[e H]|(r & H & Hr)]]; try discriminate.
          injection H as <-. congruence.
        * split; [|reflexivity]. intros _. right. right. now exists response.
      + split; [|reflexivity]. intros _. right. left. now exists e.
    - split; [|reflexivity]. intros _. left. now exists e0. }
  split.
  - rewrite <- Hd. split.
    + intros E. destruct (delegation_denied cloud self account) eqn:Hden;
        [reflexivity|].
      pose proof (account_records_entered cloud self account Hden) as H.
      rewrite E in H. inversion H as [|? ? Hr _]; subst. now contradiction Hr.
    + intros Hden. unfold account_records.
      destruct (assume_role_in_account_ok cloud self account fresh_world)
        as [[session|] Ha].
      * unfold delegation_denied in Hden. rewrite Ha in Hden. discriminate.
      * now rewrite (scan_denied cloud self account _ _ Ha).
  - intros Hno. apply account_records_entered.
    destruct (delegation_denied cloud self account) eqn:Hden; [|reflexivity].
    exfalso. apply Hno. now apply Hd.
Qed.

Lemma access_denied_row_iff_witness :
  account_records
    (mkCloud (list_accounts_paginator Demo.cloud) (Ok tt) (int_time Demo.cloud)
       (fun _ _ => Raise (ClientError "Could not connect to the endpoint URL"))
       (iam_client Demo.cloud) (list_roles_paginator Demo.cloud)
       (completion_order Demo.cloud) (write_csv Demo.cloud))
    default_scanner Demo.compliant
  = [mkRoleInfo "333333333333" "sandbox-c" "ACCESS_DENIED" "N/A"].
Proof.
  apply (proj1 (access_denied_row_iff
                  (mkCloud (list_accounts_paginator Demo.cloud) (Ok tt)
                     (int_time Demo.cloud)
                     (fun _ _ =>
                        Raise (ClientError "Could not connect to the endpoint URL"))
                     (iam_client Demo.cloud) (list_roles_paginator Demo.cloud)
                     (completion_order Demo.cloud) (write_csv Demo.cloud))
                  default_scanner Demo.compliant)).
  right. left. eexists. reflexivity.
Defined.

(** ** The pool and the run *)

(** X21: every interleaving of the pool that runs all threads to their end
    leaves the collection that [run_workers] leaves when it takes the pool's
    accounts in some order: the run that takes the workers one after the
    other, in the order of their completion, loses none of the pool's
    outcomes and adds none. *)
Theorem finished_pool_is_a_run (cloud : Cloud) (self : Scanner)
    (p0 p : Pool.pool) (n : nat)
    (Hinit : Pool.initial p0)
    (Hbound : forall i, n <= i -> Pool.threads p0 i = None)
    (Hreach : Pool.reachable cloud self p0 p)
    (Hdone : forall i t, Pool.threads p i = Some t -> thread_finished t = true) :
  exists completed,
    Permutation (pool_accounts p0 n) completed /\
    results (Pool.shared p)
    = results (snd (run_workers cloud self completed (Pool.shared p0))) /\
    progress (Pool.shared p)
    = progress (snd (run_workers cloud self completed (Pool.shared p0))).
Proof.
  pose proof (PoolFacts.invariant_reachable cloud self p0 p Hinit Hreach) as I.
  destruct (finished_pool_completed cloud self p0 p n Hinit Hbound Hreach Hdone)
    as (completed & Hperm & Hpub & Hfree).
  exists completed. split; [exact Hperm|].
  destruct (run_workers_eq cloud self completed (Pool.shared p0))
    as (w' & E & Hr & Hp & _).
  rewrite E. cbn [snd]. rewrite Hr, Hp. split.
  - rewrite (Pool.inv_results I), Hpub. f_equal.
    symmetry. apply flat_map_concat_map.
  - pose proof (Pool.inv_progress I) as Hprog.
    unfold Pool.between_updates in Hprog. rewrite Hfree in Hprog.
    rewrite Z.add_0_r in Hprog. now rewrite Hprog, Hpub, length_map.
Qed.

Lemma finished_pool_is_a_run_witness :
  match Pool.run Demo.cloud default_scanner
          [1; 0; 1; 1; 1; 1; 2; 2; 2; 2; 0; 0; 0; 0] PoolDemo.start with
  | Some p =>
      exists completed,
        Permutation (pool_accounts PoolDemo.start 3) completed /\
        results (Pool.shared p)
        = results (snd (run_workers Demo.cloud default_scanner completed
                          fresh_world)) /\
        progress (Pool.shared p)
        = progress (snd (run_workers Demo.cloud default_scanner completed
                           fresh_world))
  | None => False
  end.
Proof.
  destruct (Pool.run Demo.cloud default_scanner
              [1; 0; 1; 1; 1; 1; 2; 2; 2; 2; 0; 0; 0; 0] PoolDemo.start)
    as [p|] eqn:E.
  - apply (finished_pool_is_a_run Demo.cloud default_scanner PoolDemo.start p 3).
    + repeat split. intros [|[|[|i]]] t [= <-]; reflexivity.
    + intros [|[|[|i]]] Hi; try lia; reflexivity.
    + apply (PoolFacts.run_reachable Demo.cloud default_scanner PoolDemo.start
               [1; 0; 1; 1; 1; 1; 2; 2; 2; 2; 0; 0; 0; 0] PoolDemo.start p);
        [apply Pool.reachable_refl | exact E].
    + vm_compute in E. injection E as <-.
      intros [|[|[|i]]] t [= <-]; reflexivity.
  - vm_compute in E. discriminate E.
Defined.

(** * The scanner over rich's console *)

(** ** Lines that render and lines that do not *)

Lemma bind_raise {A B : Type} (m : M A) (k : A -> M B) (w w1 : World) (e : exn) :
  m w = (Raise e, w1) -> bind m k w = (Raise e, w1).
Proof. intros H. unfold bind. now rewrite H. Qed.

(** Two computations that agree at [w] on their first step and after it *)
Lemma bind_same {A B : Type} (m' m : M A) (k' k : A -> M B) (w : World) :
  m' w = m w ->
  (forall a w1, m w = (Ok a, w1) -> k' a w1 = k a w1) ->
  bind m' k' w = bind m k w.
Proof.
  intros Hm Hk. unfold bind. rewrite Hm.
  destruct (m w) as [[a|e] w1]; [now apply Hk|reflexivity].
Qed.

Lemma rich_print_rendered (rich : Markup) (self : Scanner) (m : Message)
    (w : World) :
  Rich.markup_error rich self m = None ->
  Rich.console_print rich self m w = console_print m w.
Proof. intros H. unfold Rich.console_print. now rewrite H. Qed.

Lemma rich_print_refused (rich : Markup) (self : Scanner) (m : Message)
    (message : string) (w : World) :
  Rich.markup_error rich self m = Some message ->
  Rich.console_print rich self m w = (Raise (MarkupError message), w).
Proof. intros H. unfold Rich.console_print. now rewrite H. Qed.

Lemma same_or_refused_refl {A : Type} (m : M A) : same_or_refused m m.
Proof. intros w. now left. Qed.

Lemma same_or_refused_print (rich : Markup) (self : Scanner) (m : Message) :
  same_or_refused (Rich.console_print rich self m) (console_print m).
Proof.
  intros w. unfold Rich.console_print.
  destruct (Rich.markup_error rich self m) as [message|]; [right|now left].
  now exists message, w.
Qed.

Lemma same_or_refused_bind {A B : Type} (m' m : M A) (k' k : A -> M B) :
  same_or_refused m' m -> (forall a, same_or_refused (k' a) (k a)) ->
  same_or_refused (bind m' k') (bind m k).
Proof.
  intros Hm Hk w. unfold bind.
  destruct (Hm w) as [->|(message & w' & ->)].
  - destruct (m w) as [[a|e] w1]; [apply Hk|now left].
  - right. now exists message, w'.
Qed.

(** The blocks under [try] print fixed lines only: what rich may refuse is a
    line of the handler, and the handler's exception escapes. *)
Lemma same_or_refused_try {A : Type} (m : M A) (h' h : exn -> M A) :
  (forall e, same_or_refused (h' e) (h e)) ->
  same_or_refused (try_except m h') (try_except m h).
Proof.
  intros Hh w. unfold try_except.
  destruct (m w) as [[a|e] w1]; [now left|apply Hh].
Qed.

Ltac same_or_refused :=
  repeat first
    [ apply same_or_refused_refl
    | apply same_or_refused_print
    | apply same_or_refused_bind; [|intro]
    | apply same_or_refused_try; intro
    | match goal with
      | |- same_or_refused (if ?b then _ else _) _ => destruct b
      | |- same_or_refused (match ?x with _ => _ end) _ => destruct x
      end ].

Lemma same_or_refused_get_all_active_accounts (rich : Markup) (cloud : Cloud)
    (self : Scanner) :
  same_or_refused (Rich.get_all_active_accounts rich cloud self)
    (get_all_active_accounts cloud).
Proof.
  unfold Rich.get_all_active_accounts, get_all_active_accounts.
  apply (same_or_refused_try
           (console_print FetchingAccounts ;;;
            accounts <- paginate_accounts (list_accounts_paginator cloud) [] ;;
            console_print (FoundAccounts (length accounts)) ;;;
            ret accounts)).
  intro e. same_or_refused.
Qed.

Lemma same_or_refused_save_to_csv (rich : Markup) (cloud : Cloud)
    (self : Scanner) :
  same_or_refused (Rich.save_to_csv rich cloud self) (save_to_csv cloud).
Proof.
  unfold Rich.save_to_csv, save_to_csv.
  apply (same_or_refused_try
           (rs <- get_results ;;
            lift (write_csv cloud (sorted_by_key rs)) ;;;
            console_print ResultsSaved ;;;
            ret true)).
  intro e. same_or_refused.
Qed.

Lemma same_or_refused_run_workers (rich : Markup) (cloud : Cloud)
    (self : Scanner) (completed : list Account) :
  same_or_refused (Rich.run_workers rich cloud self completed)
    (run_workers cloud self completed).
Proof.
  induction completed as [|account rest IH]; cbn [Rich.run_workers run_workers].
  - apply same_or_refused_refl.
  - apply same_or_refused_bind; [|intro; exact IH].
    apply same_or_refused_try. intro e. apply same_or_refused_print.
Qed.

Lemma same_or_refused_scan_all_accounts (rich : Markup) (cloud : Cloud)
    (self : Scanner) (max_workers : Z) :
  same_or_refused (Rich.scan_all_accounts rich cloud self max_workers)
    (scan_all_accounts cloud self max_workers).
Proof.
  unfold Rich.scan_all_accounts, scan_all_accounts.
  apply same_or_refused_bind;
    [apply same_or_refused_get_all_active_accounts|].
  intros [|a accounts]; [same_or_refused|].
  do 5 (apply same_or_refused_bind; [same_or_refused|intro]).
  apply same_or_refused_bind; [apply same_or_refused_run_workers|intro].
  do 4 (apply same_or_refused_bind; [same_or_refused|intro]).
  apply same_or_refused_bind; [apply same_or_refused_save_to_csv|intro].
  same_or_refused.
Qed.

Lemma same_or_refused_main (rich : Markup) (cloud : Cloud) :
  same_or_refused (Rich.main rich cloud) (main cloud).
Proof.
  unfold Rich.main, main.
  apply same_or_refused_bind; [apply same_or_refused_refl|intro].
  apply same_or_refused_bind;
    [apply same_or_refused_scan_all_accounts|intro].
  apply same_or_refused_refl.
Qed.

(** ** The listing over rich's console *)

Lemma rich_listing_listed (rich : Markup) (cloud : Cloud) (self : Scanner)
    (accounts : list Account) (w : World) :
  directory_listing cloud = Ok accounts ->
  Rich.get_all_active_accounts rich cloud self w = get_all_active_accounts cloud w.
Proof.
  unfold directory_listing, Rich.get_all_active_accounts,
    get_all_active_accounts. intros H.
  unfold Rich.console_print. cbn [Rich.markup_error]. unfold_m.
  cbn [console_print].
  rewrite (log_only_paginate_accounts (list_accounts_paginator cloud) []
             (mkWorld _ _ _ _)).
  destruct (paginate_accounts _ _ fresh_world) as [[listed|e] d];
    [reflexivity|discriminate].
Qed.

Lemma rich_listing_failed (rich : Markup) (cloud : Cloud) (self : Scanner)
    (e : exn) (w : World) :
  directory_listing cloud = Raise e ->
  exists n,
    Rich.get_all_active_accounts rich cloud self w
    = match line_error rich (ErrorFetchingAccounts (str_exn e)) with
      | None =>
          (Ok [],
           mkWorld (results w) (progress w)
             (calls w ++ repeat ListAccountsPage n)
             (console w ++ [FetchingAccounts; ErrorFetchingAccounts (str_exn e)]))
      | Some message =>
          (Raise (MarkupError message),
           mkWorld (results w) (progress w)
             (calls w ++ repeat ListAccountsPage n)
             (console w ++ [FetchingAccounts]))
      end.
Proof.
  unfold directory_listing, Rich.get_all_active_accounts. intros H.
  destruct (paginate_accounts_world (list_accounts_paginator cloud) []
              (mkWorld (results w) (progress w) (calls w)
                 (console w ++ [FetchingAccounts]))) as [n Hn].
  exists n. revert Hn.
  unfold Rich.console_print. cbn [Rich.markup_error]. unfold_m.
  cbn [console_print].
  rewrite (log_only_paginate_accounts (list_accounts_paginator cloud) []
             (mkWorld _ _ _ _)).
  destruct (paginate_accounts _ _ fresh_world) as [[listed|e'] d];
    [discriminate|]. cbn [fst] in H. injection H as ->.
  cbn [fst snd]. intros ->.
  destruct (line_error rich (ErrorFetchingAccounts (str_exn e))) as [message|].
  - reflexivity.
  - unfold with_calls. cbn. now rewrite <- app_assoc.
Qed.

(** ** The run over rich's console *)

Lemma rich_run_workers_same (rich : Markup) (cloud : Cloud) (self : Scanner)
    (completed : list Account) :
  forall w,
    Rich.run_workers rich cloud self completed w
    = run_workers cloud self completed w.
Proof.
  induction completed as [|account rest IH]; intros w; [reflexivity|].
  cbn [Rich.run_workers run_workers]. apply bind_same.
  - unfold try_except, bind.
    destruct (worker_eq cloud self account w) as (w1 & E & _). now rewrite E.
  - intros a w1 _. apply IH.
Qed.

Lemma rich_save_to_csv_rendered (rich : Markup) (cloud : Cloud) (self : Scanner)
    (w : World) :
  (forall e, write_csv cloud (sorted_by_key (results w)) = Raise e ->
             line_error rich (ErrorSavingCsv (str_exn e)) = None) ->
  Rich.save_to_csv rich cloud self w = save_to_csv cloud w.
Proof.
  intros H. unfold Rich.save_to_csv, save_to_csv, get_results. unfold_m.
  destruct (write_csv cloud _) as [[]|e] eqn:Hw; [reflexivity|].
  unfold Rich.console_print. cbn [Rich.markup_error]. now rewrite (H e eq_refl).
Qed.

Lemma active_accounts_listed (cloud : Cloud) :
  active_accounts cloud <> [] ->
  directory_listing cloud = Ok (active_accounts cloud).
Proof.
  rewrite active_accounts_listing.
  destruct (directory_listing cloud) as [accounts|e]; congruence.
Qed.

(** When rich renders the lines of a run that carry text, the run is the one
    of the scanner over a console that takes every line. *)
Lemma rich_scan_all_accounts_rendered (rich : Markup) (cloud : Cloud)
    (self : Scanner) (max_workers : Z) (w : World) :
  active_accounts cloud <> [] ->
  renders_run rich cloud self w ->
  Rich.scan_all_accounts rich cloud self max_workers w
  = scan_all_accounts cloud self max_workers w.
Proof.
  intros Hsome (Htarget & Hrole & Htable & Hcsv).
  unfold Rich.scan_all_accounts, scan_all_accounts.
  apply bind_same.
  { apply (rich_listing_listed rich cloud self (active_accounts cloud) w).
    now apply active_accounts_listed. }
  intros accounts w1 Eg.
  destruct (get_all_active_accounts_found cloud w Hsome) as [n Eg'].
  rewrite Eg' in Eg. injection Eg as <- <-.
  destruct (active_accounts cloud) as [|a accounts] eqn:Ha; [congruence|].
  apply bind_same; [reflexivity|]. intros [] w2 [= <-].
  apply bind_same; [now apply rich_print_rendered|]. intros [] w3 [= <-].
  apply bind_same; [now apply rich_print_rendered|]. intros [] w4 [= <-].
  apply bind_same; [reflexivity|]. intros [] w5 [= <-].
  apply bind_same; [reflexivity|]. intros [] w6 Ep.
  apply bind_same; [apply rich_run_workers_same|]. intros [] w7 Er.
  assert (Hresults : results w7 = run_records cloud self w).
  { unfold thread_pool_executor in Ep.
    destruct (max_workers <=? 0)%Z; [discriminate|]. injection Ep as <-.
    match type of Er with
    | run_workers ?c ?s ?l ?w0 = _ =>
        destruct (run_workers_eq c s l w0) as (w' & E & Hr & _)
    end.
    rewrite E in Er. injection Er as <-. rewrite Hr. unfold run_records.
    now rewrite Ha. }
  apply bind_same; [reflexivity|]. intros table w8 [= <- <-].
  apply bind_same.
  { apply rich_print_rendered. cbn [Rich.markup_error]. now rewrite Hresults. }
  intros [] w9 [= <-].
  apply bind_same; [reflexivity|]. intros rs w10 [= <- <-].
  apply bind_same; [reflexivity|]. intros [] w11 [= <-].
  apply bind_same; [|reflexivity].
  apply rich_save_to_csv_rendered. cbn [results]. now rewrite Hresults.
Qed.

(** The lines that announce the scan, one after the other *)
Lemma rich_scan_all_accounts_announced (rich : Markup) (cloud : Cloud)
    (self : Scanner) (max_workers : Z) (w : World) :
  active_accounts cloud <> [] ->
  exists n,
    let announced lines :=
      mkWorld (results w) (progress w)
        (calls w ++ repeat ListAccountsPage n)
        (console w ++
         [FetchingAccounts; FoundAccounts (length (active_accounts cloud));
          StartingScan (length (active_accounts cloud)) max_workers] ++ lines) in
    match line_error rich (TargetBoundary (target_permission_boundary self)),
          line_error rich (AssumingRole (role_to_assume self)) with
    | Some message, _ =>
        Rich.scan_all_accounts rich cloud self max_workers w
        = (Raise (MarkupError message), announced [])
    | None, Some message =>
        Rich.scan_all_accounts rich cloud self max_workers w
        = (Raise (MarkupError message),
           announced [TargetBoundary (target_permission_boundary self)])
    | None, None =>
        (max_workers <= 0)%Z ->
        Rich.scan_all_accounts rich cloud self max_workers w
        = (Raise (ValueError "max_workers must be greater than 0"),
           mkWorld (results w) 0
             (calls w ++ repeat ListAccountsPage n)
             (console w ++
              [FetchingAccounts; FoundAccounts (length (active_accounts cloud));
               StartingScan (length (active_accounts cloud)) max_workers;
               TargetBoundary (target_permission_boundary self);
               AssumingRole (role_to_assume self)]))
    end.
Proof.
  intros Hsome.
  destruct (get_all_active_accounts_found cloud w Hsome) as [n Eg].
  exists n. cbn zeta.
  assert (Eg' : Rich.get_all_active_accounts rich cloud self w
                = (Ok (active_accounts cloud),
                   mkWorld (results w) (progress w)
                     (calls w ++ repeat ListAccountsPage n)
                     (console w ++
                      [FetchingAccounts;
                       FoundAccounts (length (active_accounts cloud))]))).
  { rewrite <- Eg.
    apply (rich_listing_listed rich cloud self (active_accounts cloud) w).
    now apply active_accounts_listed. }
  unfold Rich.scan_all_accounts. erewrite bind_ok by exact Eg'.
  destruct (active_accounts cloud) as [|a accounts] eqn:Ha; [congruence|].
  erewrite bind_ok by reflexivity.
  cbn [results progress calls console].
  destruct (line_error rich (TargetBoundary _)) as [message|] eqn:Ht.
  { erewrite bind_raise; [|apply rich_print_refused; exact Ht].
    rewrite <- !app_assoc. reflexivity. }
  erewrite bind_ok by (rewrite rich_print_rendered by exact Ht; reflexivity).
  cbn [results progress calls console].
  destruct (line_error rich (AssumingRole _)) as [message|] eqn:Hr.
  { erewrite bind_raise; [|apply rich_print_refused; exact Hr].
    rewrite <- !app_assoc. reflexivity. }
  intros Hpool.
  erewrite bind_ok by (rewrite rich_print_rendered by exact Hr; reflexivity).
  erewrite bind_ok by reflexivity.
  unfold thread_pool_executor.
  destruct (Z.leb_spec max_workers 0); [|lia].
  unfold bind, raise. cbn. now rewrite <- !app_assoc.
Qed.

(** ** A directory that fails or lists nothing *)

Lemma get_all_active_accounts_listed (cloud : Cloud) (accounts : list Account)
    (w : World) :
  directory_listing cloud = Ok accounts ->
  exists n,
    get_all_active_accounts cloud w
    = (Ok accounts,
       mkWorld (results w) (progress w)
         (calls w ++ repeat ListAccountsPage n)
         (console w ++ [FetchingAccounts; FoundAccounts (length accounts)])).
Proof.
  unfold directory_listing, get_all_active_accounts. intros H.
  destruct (paginate_accounts_world (list_accounts_paginator cloud) []
              (mkWorld (results w) (progress w) (calls w)
                 (console w ++ [FetchingAccounts]))) as [n Hn].
  exists n. revert Hn. unfold_m. cbn [console_print].
  rewrite (log_only_paginate_accounts (list_accounts_paginator cloud) []
             (mkWorld _ _ _ _)).
  destruct (paginate_accounts _ _ fresh_world) as [[listed|e] d];
    [|discriminate]. cbn [fst] in H. injection H as ->.
  cbn [fst snd]. intros ->. unfold with_calls. cbn.
  now rewrite <- app_assoc.
Qed.

(** The listing of a directory that lists no active account, or that fails
    with a text rich renders *)
Lemma rich_listing_none (rich : Markup) (cloud : Cloud) (self : Scanner)
    (w : World) :
  directory_listing cloud = Ok [] \/
  (exists e, directory_listing cloud = Raise e /\
             line_error rich (ErrorFetchingAccounts (str_exn e)) = None) ->
  exists n,
    Rich.get_all_active_accounts rich cloud self w
    = (Ok [],
       mkWorld (results w) (progress w)
         (calls w ++ repeat ListAccountsPage n)
         (console w ++
          [FetchingAccounts;
           match directory_listing cloud with
           | Ok _ => FoundAccounts 0
           | Raise e => ErrorFetchingAccounts (str_exn e)
           end])).
Proof.
  intros [H|(e & H & Hline)].
  - rewrite (rich_listing_listed rich cloud self [] w H).
    destruct (get_all_active_accounts_listed cloud [] w H) as [n E].
    exists n. now rewrite E, H.
  - destruct (rich_listing_failed rich cloud self e w H) as [n E].
    exists n. now rewrite E, Hline, H.
Qed.

(** C5, amended: when the directory lists no active account, or its listing
    fails with an exception whose text rich renders, [scan_all_accounts] does
    not raise and returns [None]: no collection at all, not an empty one.  It
    starts no worker: the scanner's collection and the progress counter are
    untouched and the only requests sent are the directory's pages.  It prints
    the outcome of the listing and then that no account was found, and [main]
    reports a scan that failed or found nothing. *)
Theorem failed_listing_returns_none (rich : Markup) (cloud : Cloud)
    (self : Scanner) (max_workers : Z) (w : World)
    (Hempty : directory_listing cloud = Ok [] \/
              exists e, directory_listing cloud = Raise e /\
                        line_error rich (ErrorFetchingAccounts (str_exn e))
                        = None) :
  (exists n,
     Rich.scan_all_accounts rich cloud self max_workers w
     = (Ok None,
        mkWorld (results w) (progress w)
          (calls w ++ repeat ListAccountsPage n)
          (console w ++
           [FetchingAccounts;
            match directory_listing cloud with
            | Ok _ => FoundAccounts 0
            | Raise e => ErrorFetchingAccounts (str_exn e)
            end;
            NoAccountsFound]))) /\
  fst (Rich.main rich cloud w) = Ok ScanFailedOrEmpty.
Proof.
  split.
  - destruct (rich_listing_none rich cloud self w Hempty) as [n E].
    exists n. unfold Rich.scan_all_accounts. erewrite bind_ok by exact E.
    unfold bind, Rich.console_print, ret. cbn. now rewrite <- app_assoc.
  - unfold Rich.main, bind at 1. cbn [new_scanner].
    destruct (rich_listing_none rich cloud
                (mkScanner "syf-Sandbox-permission-boundary"
                   "ca-iam-cie-engineer")
                (mkWorld [] (progress w) (calls w) (console w)) Hempty)
      as [n E].
    unfold Rich.scan_all_accounts, bind at 1, bind at 1. rewrite E.
    reflexivity.
Qed.

Lemma failed_listing_returns_none_witness :
  (exists n,
     Rich.scan_all_accounts Tagged.rich Demo.unreachable_directory
       default_scanner 50 fresh_world
     = (Ok None,
        mkWorld [] 0 ([] ++ repeat ListAccountsPage n)
          ([] ++
           [FetchingAccounts;
            ErrorFetchingAccounts "Could not connect to the endpoint URL";
            NoAccountsFound]))) /\
  fst (Rich.main Tagged.rich Demo.unreachable_directory fresh_world)
  = Ok ScanFailedOrEmpty.
Proof.
  apply (failed_listing_returns_none Tagged.rich Demo.unreachable_directory
           default_scanner 50 fresh_world).
  right. exists (ClientError "Could not connect to the endpoint URL").
  split; reflexivity.
Defined.

(** C5, as stated, fails twice.  After a failed listing what the entry point
    returns is [None], which is no collection, and not an empty one; and when
    the text of the failure closes a tag that nothing opened, the handler of
    line 62 cannot print it: the [MarkupError] of line 63 leaves
    [get_all_active_accounts], and [scan_all_accounts] with it. *)
Lemma failed_listing_none_or_crash :
  fst (Rich.scan_all_accounts Tagged.rich Demo.unreachable_directory
         default_scanner 50 fresh_world)
  = Ok None /\
  fst (Rich.scan_all_accounts Tagged.rich Demo.unreachable_directory
         default_scanner 50 fresh_world)
  <> Ok (Some []) /\
  fst (Rich.scan_all_accounts Tagged.rich Tagged.cloud default_scanner 50
         fresh_world)
  = Raise (MarkupError
             "closing tag '[/organizations]' at position 38 doesn't match any open tag").
Proof. repeat split. discriminate. Qed.

(** X2: when the fetch of a directory page raises, the listing drops the
    accounts of the pages before it and asks for no page after it.  If rich
    renders the exception's text the listing prints it and returns the empty
    list; if not, the [MarkupError] of the handler's own line leaves the
    method, and nothing but the first line has been printed. *)
Theorem listing_failure_discards_pages (rich : Markup) (cloud : Cloud)
    (self : Scanner)
    (good : list (list RawAccount)) (e : exn)
    (rest : list (result AccountsPage)) (w : World)
    (Hpages : list_accounts_paginator cloud
              = map accounts_page good ++ Raise e :: rest)
    (Hlisted : forallb well_listed (concat good) = true) :
  Rich.get_all_active_accounts rich cloud self w
  = match line_error rich (ErrorFetchingAccounts (str_exn e)) with
    | None =>
        (Ok [],
         mkWorld (results w) (progress w)
           (calls w ++ repeat ListAccountsPage (S (length good)))
           (console w ++ [FetchingAccounts; ErrorFetchingAccounts (str_exn e)]))
    | Some message =>
        (Raise (MarkupError message),
         mkWorld (results w) (progress w)
           (calls w ++ repeat ListAccountsPage (S (length good)))
           (console w ++ [FetchingAccounts]))
    end.
Proof.
  unfold Rich.get_all_active_accounts, try_except, bind at 1.
  unfold Rich.console_print at 1. cbn [Rich.markup_error console_print].
  unfold bind at 1.
  rewrite Hpages, paginate_accounts_after_listed by exact Hlisted.
  cbn [paginate_accounts]. unfold bind at 1. rewrite request_with_calls.
  unfold_m. unfold Rich.console_print. cbn [Rich.markup_error].
  rewrite with_calls_app. unfold with_calls. cbn [results progress calls console].
  rewrite <- repeat_cons.
  destruct (line_error rich (ErrorFetchingAccounts (str_exn e))) as [message|].
  - reflexivity.
  - cbn. now rewrite <- app_assoc.
Qed.

Lemma listing_failure_discards_pages_witness :
  Rich.get_all_active_accounts Tagged.rich
    (Sample.with_directory
       [accounts_page [Demo.raw Demo.denied "ACTIVE"];
        Raise (ClientError Tagged.text);
        accounts_page [Demo.raw Demo.missing "ACTIVE"]])
    default_scanner fresh_world
  = (Raise (MarkupError
              "closing tag '[/organizations]' at position 38 doesn't match any open tag"),
     mkWorld [] 0 [ListAccountsPage; ListAccountsPage] [FetchingAccounts]).
Proof.
  apply (listing_failure_discards_pages Tagged.rich
           (Sample.with_directory
              [accounts_page [Demo.raw Demo.denied "ACTIVE"];
               Raise (ClientError Tagged.text);
               accounts_page [Demo.raw Demo.missing "ACTIVE"]])
           default_scanner
           [[Demo.raw Demo.denied "ACTIVE"]]
           (ClientError Tagged.text)
           [accounts_page [Demo.raw Demo.missing "ACTIVE"]] fresh_world);
    reflexivity.
Defined.

(** ** What a run prints and counts *)

(** X14: a run over a directory with at least one active account, in a pool
    with at least one worker, on a console where rich renders the two names
    announced, the table and the line about a report file that could not be
    written, prints exactly these lines, in this order: the two lines of the
    listing, the three lines that announce the scan, the table of the report,
    the summary, and the line about the report file.  No line about a worker
    that failed is ever printed, and the progress counter ends at the number
    of accounts. *)
Theorem run_transcript (rich : Markup) (cloud : Cloud) (self : Scanner)
    (max_workers : Z) (w : World)
    (Hsome : active_accounts cloud <> [])
    (Hpool : (0 < max_workers)%Z)
    (Horder : Permutation (active_accounts cloud)
                (completion_order cloud (active_accounts cloud)))
    (Hrenders : renders_run rich cloud self w) :
  exists returned w' line,
    Rich.scan_all_accounts rich cloud self max_workers w
    = (Ok (Some returned), w') /\
    progress w' = Z.of_nat (length (active_accounts cloud)) /\
    console w'
    = console w ++
      [FetchingAccounts;
       FoundAccounts (length (active_accounts cloud));
       StartingScan (length (active_accounts cloud)) max_workers;
       TargetBoundary (target_permission_boundary self);
       AssumingRole (role_to_assume self);
       ResultsTable (map table_row (sorted_by_key returned));
       ScanSummary (length (active_accounts cloud))
         (count_status (fun s => negb (String.eqb s "N/A")) returned)
         (length returned)
         (count_status (fun s => String.eqb s "Exists") returned);
       line] /\
    (line = ResultsSaved \/ exists e, line = ErrorSavingCsv e).
Proof.
  rewrite (rich_scan_all_accounts_rendered rich cloud self max_workers w
             Hsome Hrenders).
  destruct (scan_all_accounts_transcript cloud self max_workers w Hsome Hpool)
    as (w' & line & E & _ & Hp & Hc & Hline).
  exists (results w'), w', line. split; [exact E|].
  split; [|split; [exact Hc|exact Hline]].
  rewrite Hp. f_equal. symmetry. now apply Permutation_length.
Qed.

Lemma run_transcript_witness :
  exists returned w' line,
    Rich.scan_all_accounts Tagged.rich Demo.cloud default_scanner 50 fresh_world
    = (Ok (Some returned), w') /\
    progress w' = 4%Z /\
    console w'
    = [] ++
      [FetchingAccounts; FoundAccounts 4; StartingScan 4 50;
       TargetBoundary "syf-Sandbox-permission-boundary";
       AssumingRole "ca-iam-cie-engineer";
       ResultsTable (map table_row (sorted_by_key returned));
       ScanSummary 4
         (count_status (fun s => negb (String.eqb s "N/A")) returned)
         (length returned)
         (count_status (fun s => String.eqb s "Exists") returned);
       line] /\
    (line = ResultsSaved \/ exists e, line = ErrorSavingCsv e).
Proof.
  apply (run_transcript Tagged.rich Demo.cloud default_scanner 50 fresh_world).
  - rewrite demo_directory. discriminate.
  - reflexivity.
  - rewrite demo_directory. apply Permutation_rev.
  - repeat split.
Defined.

(** X15: the summary a fresh scanner's run prints.  Its first figure is the
    number of active accounts and its third the number of records returned.
    The second, printed as accessible accounts, counts records, not accounts:
    it is the number of records returned less the number of accounts whose
    delegation was denied.  It is at least the number of accounts that were
    entered and at least the fourth figure, the number of roles found with the
    boundary; the number of records is at least the number of accounts. *)
Theorem summary_figures (rich : Markup) (cloud : Cloud) (self : Scanner)
    (max_workers : Z) (w : World)
    (Hfresh : results w = [])
    (Hsome : active_accounts cloud <> [])
    (Hpool : (0 < max_workers)%Z)
    (Horder : Permutation (active_accounts cloud)
                (completion_order cloud (active_accounts cloud)))
    (Hrenders : renders_run rich cloud self w) :
  exists returned w' before accessible compliant line,
    Rich.scan_all_accounts rich cloud self max_workers w
    = (Ok (Some returned), w') /\
    console w'
    = console w ++ before ++
      [ScanSummary (length (active_accounts cloud)) accessible
         (length returned) compliant;
       line] /\
    accessible = count_status (fun s => negb (String.eqb s "N/A")) returned /\
    compliant = count_status (fun s => String.eqb s "Exists") returned /\
    let denied :=
      length (filter (delegation_denied cloud self) (active_accounts cloud)) in
    accessible + denied = length returned /\
    length (active_accounts cloud) - denied <= accessible /\
    compliant <= accessible /\
    length (active_accounts cloud) <= length returned.
Proof.
  rewrite (rich_scan_all_accounts_rendered rich cloud self max_workers w
             Hsome Hrenders).
  destruct (scan_all_accounts_transcript cloud self max_workers w Hsome Hpool)
    as (w' & line & E & Hr & _ & Hc & _).
  rewrite Hfresh in Hr. cbn [app] in Hr.
  exists (results w'), w'.
  exists [FetchingAccounts;
          FoundAccounts (length (active_accounts cloud));
          StartingScan (length (active_accounts cloud)) max_workers;
          TargetBoundary (target_permission_boundary self);
          AssumingRole (role_to_assume self);
          ResultsTable (map table_row (sorted_by_key (results w')))].
  exists (count_status (fun s => negb (String.eqb s "N/A")) (results w')),
         (count_status (fun s => String.eqb s "Exists") (results w')), line.
  split; [exact E|]. split; [exact Hc|].
  split; [reflexivity|]. split; [reflexivity|]. cbn zeta.
  rewrite Hr.
  set (completed := completion_order cloud (active_accounts cloud)) in *.
  destruct (run_records_counts cloud self completed) as [Hna Hlen].
  pose proof (count_status_split (fun s => String.eqb s "N/A")
                (flat_map (account_records cloud self) completed)) as Hsplit.
  assert (Hden : length (filter (delegation_denied cloud self)
                           (active_accounts cloud))
                 = length (filter (delegation_denied cloud self) completed)).
  { apply filter_length_permutation. exact Horder. }
  assert (Hn : length (active_accounts cloud) = length completed)
    by now apply Permutation_length.
  rewrite Hden, Hn.
  assert (Hle : count_status (fun s => String.eqb s "Exists")
                  (flat_map (account_records cloud self) completed)
                <= count_status (fun s => negb (String.eqb s "N/A"))
                     (flat_map (account_records cloud self) completed)).
  { apply count_status_le. intros s Hs. apply String.eqb_eq in Hs. now subst. }
  lia.
Qed.

Lemma summary_figures_witness :
  exists returned w' before accessible compliant line,
    Rich.scan_all_accounts Tagged.rich Demo.cloud default_scanner 50 fresh_world
    = (Ok (Some returned), w') /\
    console w'
    = [] ++ before ++
      [ScanSummary (length (active_accounts Demo.cloud)) accessible
         (length returned) compliant;
       line] /\
    accessible = count_status (fun s => negb (String.eqb s "N/A")) returned /\
    compliant = count_status (fun s => String.eqb s "Exists") returned /\
    let denied :=
      length (filter (delegation_denied Demo.cloud default_scanner)
                (active_accounts Demo.cloud)) in
    accessible + denied = length returned /\
    length (active_accounts Demo.cloud) - denied <= accessible /\
    compliant <= accessible /\
    length (active_accounts Demo.cloud) <= length returned.
Proof.
  apply (summary_figures Tagged.rich Demo.cloud default_scanner 50 fresh_world).
  - reflexivity.
  - rewrite demo_directory. discriminate.
  - reflexivity.
  - rewrite demo_directory. apply Permutation_rev.
  - repeat split.
Defined.

(** In the provider of [Demo] one delegation of four is denied: the summary
    reads four accounts, three accessible, four records, one role under the
    boundary. *)
Example demo_summary :
  In (ScanSummary 4 3 4 1)
    (console (snd (Rich.scan_all_accounts Tagged.rich Demo.cloud
                     default_scanner 50 fresh_world))).
Proof. vm_compute. tauto. Qed.

(** ** What a run raises *)

Lemma filter_assume_role_directory (n : nat) :
  filter is_assume_role (repeat ListAccountsPage n) = [].
Proof. induction n as [|n IH]; [reflexivity|exact IH]. Qed.

(** X16: the exceptions of [scan_all_accounts].  What it raises is the pool's
    [ValueError] or the [MarkupError] of a line rich refuses, and nothing
    else.  It raises the [ValueError] in one case only: the directory lists an
    active account, rich renders the two names announced, and [max_workers] is
    zero or negative.  The exception then comes after the scan has been
    announced and before any account is touched: no role is assumed and the
    collection is as it was. *)
Theorem run_raises_only_without_workers (rich : Markup) (cloud : Cloud)
    (self : Scanner) (max_workers : Z) (w : World) :
  (forall e,
     fst (Rich.scan_all_accounts rich cloud self max_workers w) = Raise e ->
     e = ValueError "max_workers must be greater than 0" \/
     exists message, e = MarkupError message) /\
  (fst (Rich.scan_all_accounts rich cloud self max_workers w)
   = Raise (ValueError "max_workers must be greater than 0") <->
   active_accounts cloud <> [] /\ (max_workers <= 0)%Z /\
   line_error rich (TargetBoundary (target_permission_boundary self)) = None /\
   line_error rich (AssumingRole (role_to_assume self)) = None) /\
  (fst (Rich.scan_all_accounts rich cloud self max_workers w)
   = Raise (ValueError "max_workers must be greater than 0") ->
   results (snd (Rich.scan_all_accounts rich cloud self max_workers w))
   = results w /\
   filter is_assume_role
     (calls (snd (Rich.scan_all_accounts rich cloud self max_workers w)))
   = filter is_assume_role (calls w)).
Proof.
  assert (Hplain : forall e,
            fst (scan_all_accounts cloud self max_workers w) = Raise e ->
            e = ValueError "max_workers must be greater than 0" /\
            active_accounts cloud <> [] /\ (max_workers <= 0)%Z).
  { intros e He.
    destruct (active_accounts cloud) as [|a accounts] eqn:Ha.
    - destruct (scan_all_accounts_none cloud self max_workers w Ha)
        as (n & msgs & E).
      rewrite E in He. discriminate.
    - assert (Hsome : active_accounts cloud <> [])
        by (rewrite Ha; discriminate).
      destruct (Z.lt_ge_cases 0 max_workers) as [Hpool|Hpool].
      + destruct (scan_all_accounts_some cloud self max_workers w Hsome Hpool)
          as (w' & E & _).
        rewrite E in He. discriminate.
      + destruct (scan_all_accounts_no_pool_world cloud self max_workers w
                    Hsome Hpool) as [n E].
        rewrite E in He. injection He as <-. rewrite <- Ha. now repeat split. }
  assert (Hvalue :
            fst (Rich.scan_all_accounts rich cloud self max_workers w)
            = Raise (ValueError "max_workers must be greater than 0") ->
            (active_accounts cloud <> [] /\ (max_workers <= 0)%Z /\
             line_error rich (TargetBoundary (target_permission_boundary self))
             = None /\
             line_error rich (AssumingRole (role_to_assume self)) = None) /\
            results (snd (Rich.scan_all_accounts rich cloud self max_workers w))
            = results w /\
            filter is_assume_role
              (calls (snd (Rich.scan_all_accounts rich cloud self max_workers w)))
            = filter is_assume_role (calls w)).
  { intros He.
    assert (Hs : active_accounts cloud <> [] /\ (max_workers <= 0)%Z).
    { destruct (same_or_refused_scan_all_accounts rich cloud self max_workers w)
        as [E|(message & w' & E)].
      - rewrite E in He. now destruct (Hplain _ He) as (_ & H1 & H2).
      - rewrite E in He. discriminate. }
    destruct Hs as [Hsome Hpool].
    destruct (rich_scan_all_accounts_announced rich cloud self max_workers w
                Hsome) as [n E].
    cbn zeta in E.
    destruct (line_error rich (TargetBoundary _)) as [message|];
      [rewrite E in He; discriminate|].
    destruct (line_error rich (AssumingRole _)) as [message|];
      [rewrite E in He; discriminate|].
    rewrite (E Hpool). cbn [fst snd results calls].
    rewrite filter_app, filter_assume_role_directory, app_nil_r.
    now repeat split. }
  split; [|split].
  - intros e He.
    destruct (same_or_refused_scan_all_accounts rich cloud self max_workers w)
      as [E|(message & w' & E)].
    + rewrite E in He. left. now destruct (Hplain _ He).
    + rewrite E in He. injection He as <-. right. now exists message.
  - split; [intros He; now destruct (Hvalue He)|].
    intros (Hsome & Hpool & Htarget & Hrole).
    destruct (rich_scan_all_accounts_announced rich cloud self max_workers w
                Hsome) as [n E].
    cbn zeta in E. rewrite Htarget, Hrole in E. now rewrite (E Hpool).
  - intros He. now destruct (Hvalue He).
Qed.

Lemma run_raises_only_without_workers_witness :
  results (snd (Rich.scan_all_accounts Tagged.rich Demo.cloud default_scanner 0
                  fresh_world))
  = [] /\
  filter is_assume_role
    (calls (snd (Rich.scan_all_accounts Tagged.rich Demo.cloud default_scanner 0
                   fresh_world)))
  = [].
Proof.
  apply (proj2 (proj2 (run_raises_only_without_workers Tagged.rich Demo.cloud
                         default_scanner 0 fresh_world))).
  reflexivity.
Defined.

(** ** [main] *)

Lemma main_verdict (cloud : Cloud) (w : World) :
  Permutation (active_accounts cloud)
    (completion_order cloud (active_accounts cloud)) ->
  exists verdict w',
    main cloud w = (Ok verdict, w') /\
    (verdict = ScanCompleted <-> active_accounts cloud <> []) /\
    (verdict = ScanFailedOrEmpty <-> active_accounts cloud = []).
Proof.
  intros Horder. unfold main. unfold bind at 1. cbn [new_scanner].
  destruct (active_accounts cloud) as [|a accounts] eqn:Ha.
  - destruct (scan_all_accounts_none cloud default_scanner 50
                (mkWorld [] (progress w) (calls w) (console w)) Ha)
      as (n & msgs & E).
    unfold default_scanner in E.
    erewrite bind_ok by exact E. cbn [truthy ret].
    do 2 eexists. split; [reflexivity|]. split; split; congruence.
  - assert (Hsome : active_accounts cloud <> []) by (rewrite Ha; discriminate).
    destruct (scan_all_accounts_some cloud default_scanner 50
                (mkWorld [] (progress w) (calls w) (console w)) Hsome eq_refl)
      as (w' & E & Hr).
    unfold default_scanner in E, Hr.
    erewrite bind_ok by exact E.
    assert (Hne : results w' <> []).
    { rewrite Hr, Ha. cbn [results app].
      destruct (completion_order cloud (a :: accounts)) as [|b rest].
      - apply Permutation_sym, Permutation_nil in Horder. discriminate.
      - cbn [flat_map].
        pose proof (account_records_nonempty cloud
                      (mkScanner "syf-Sandbox-permission-boundary"
                         "ca-iam-cie-engineer") b) as Hb.
        destruct (account_records cloud _ b); [cbn in Hb; lia|discriminate]. }
    destruct (results w') as [|r rs]; [congruence|]. cbn [truthy ret].
    do 2 eexists. split; [reflexivity|]. split; split; congruence.
Qed.

Lemma rich_listing_rendered (rich : Markup) (cloud : Cloud) (self : Scanner)
    (w : World) :
  (forall e, directory_listing cloud = Raise e ->
             line_error rich (ErrorFetchingAccounts (str_exn e)) = None) ->
  Rich.get_all_active_accounts rich cloud self w = get_all_active_accounts cloud w.
Proof.
  unfold directory_listing, Rich.get_all_active_accounts,
    get_all_active_accounts. intros H.
  unfold Rich.console_print. cbn [Rich.markup_error]. unfold_m.
  cbn [console_print]. revert H.
  rewrite (log_only_paginate_accounts (list_accounts_paginator cloud) []
             (mkWorld _ _ _ _)).
  destruct (paginate_accounts _ _ fresh_world) as [[listed|e] d];
    [reflexivity|]. cbn [fst]. intros H. now rewrite (H e eq_refl).
Qed.

(** When rich renders every line of [main] that carries text, [main] is the
    one of the scanner over a console that takes every line. *)
Lemma rich_main_rendered (rich : Markup) (cloud : Cloud) (w : World) :
  (forall e, directory_listing cloud = Raise e ->
             line_error rich (ErrorFetchingAccounts (str_exn e)) = None) ->
  (active_accounts cloud <> [] ->
   renders_run rich cloud default_scanner fresh_world) ->
  Rich.main rich cloud w = main cloud w.
Proof.
  intros Hlisting Hrun. unfold Rich.main, main.
  apply bind_same; [reflexivity|]. intros [] w0 [= <-].
  apply bind_same; [|reflexivity].
  destruct (active_accounts cloud) as [|a accounts] eqn:Ha.
  - unfold Rich.scan_all_accounts, scan_all_accounts. apply bind_same.
    + now apply rich_listing_rendered.
    + intros accounts w1 E. rewrite get_all_active_accounts_eq, Ha in E.
      now injection E as <- <-.
  - apply rich_scan_all_accounts_rendered; [congruence|].
    apply Hrun. discriminate.
Qed.

(** X17: [main], once its scanner is built.  Whenever it returns, what it
    reports depends on the directory alone: a completed scan exactly when the
    directory lists at least one active account, even if no account could be
    entered, and a failed or empty scan exactly when the listing failed or
    listed none.  The only exception that leaves it is the [MarkupError] of a
    line rich refuses; when rich renders the lines that carry text, those of
    a failed listing and those of the run, [main] returns. *)
Theorem main_reports_by_directory (rich : Markup) (cloud : Cloud) (w : World)
    (Horder : Permutation (active_accounts cloud)
                (completion_order cloud (active_accounts cloud))) :
  (forall verdict w',
     Rich.main rich cloud w = (Ok verdict, w') ->
     (verdict = ScanCompleted <-> active_accounts cloud <> []) /\
     (verdict = ScanFailedOrEmpty <-> active_accounts cloud = [])) /\
  (forall e w',
     Rich.main rich cloud w = (Raise e, w') ->
     exists message, e = MarkupError message) /\
  ((forall e, directory_listing cloud = Raise e ->
              line_error rich (ErrorFetchingAccounts (str_exn e)) = None) ->
   (active_accounts cloud <> [] ->
    renders_run rich cloud default_scanner fresh_world) ->
   exists verdict w', Rich.main rich cloud w = (Ok verdict, w')).
Proof.
  destruct (main_verdict cloud w Horder) as (verdict0 & w0 & E0 & Hverdict).
  split; [|split].
  - intros verdict w' E.
    destruct (same_or_refused_main rich cloud w) as [Hs|(message & w1 & Hs)].
    + rewrite Hs, E0 in E. now injection E as <- <-.
    + rewrite Hs in E. discriminate.
  - intros e w' E.
    destruct (same_or_refused_main rich cloud w) as [Hs|(message & w1 & Hs)].
    + rewrite Hs, E0 in E. discriminate.
    + rewrite Hs in E. injection E as <- <-. now exists message.
  - intros Hlisting Hrun. exists verdict0, w0.
    now rewrite (rich_main_rendered rich cloud w Hlisting Hrun).
Qed.

Lemma main_reports_by_directory_witness :
  exists verdict w',
    Rich.main Tagged.rich Sample2.all_denied fresh_world = (Ok verdict, w').
Proof.
  apply (proj2 (proj2 (main_reports_by_directory Tagged.rich Sample2.all_denied
                         fresh_world (Permutation_rev _)))).
  - intros e H. vm_compute in H. discriminate H.
  - intros _. repeat split.
Defined.

(** Where every delegation is denied [main] still reports a completed scan,
    and a failure of the listing whose text closes a tag leaves [main] as a
    [MarkupError]. *)
Example main_all_denied_rendered :
  fst (Rich.main Tagged.rich Sample2.all_denied fresh_world) = Ok ScanCompleted.
Proof. reflexivity. Qed.

Example main_tagged_failure :
  fst (Rich.main Tagged.rich Tagged.cloud fresh_world)
  = Raise (MarkupError
             "closing tag '[/organizations]' at position 38 doesn't match any open tag").
Proof. reflexivity. Qed.

(** ** The console that takes every line *)

(** The methods over a console that takes every line are those of [Rich] on a
    console where every line renders. *)
Lemma rich_every_line (cloud : Cloud) (self : Scanner) (max_workers : Z)
    (w : World) :
  Rich.get_all_active_accounts every_line cloud self w
  = get_all_active_accounts cloud w /\
  Rich.save_to_csv every_line cloud self w = save_to_csv cloud w /\
  Rich.scan_all_accounts every_line cloud self max_workers w
  = scan_all_accounts cloud self max_workers w /\
  Rich.main every_line cloud w = main cloud w.
Proof.
  assert (Hlisting : forall w0,
            Rich.get_all_active_accounts every_line cloud self w0
            = get_all_active_accounts cloud w0)
    by (intros w0; now apply rich_listing_rendered).
  split; [apply Hlisting|]. split; [now apply rich_save_to_csv_rendered|].
  split; [|now apply rich_main_rendered].
  destruct (active_accounts cloud) as [|a accounts] eqn:Ha.
  - unfold Rich.scan_all_accounts, scan_all_accounts. apply bind_same.
    + apply Hlisting.
    + intros accounts w1 E. rewrite get_all_active_accounts_eq, Ha in E.
      now injection E as <- <-.
  - apply rich_scan_all_accounts_rendered; [congruence|]. now repeat split.
Qed.

(** * The pool, once more *)

(** ** The counter and the records *)

(** C7, amended: lines 160 and 161 of a worker run inside [with self.lock:],
    in this order, and a thread that is inside holds the lock, so no two
    threads are inside together.  At every moment of a run the collection
    holds exactly the record sets published so far, and the counter is their
    number, or one less while the holder of the lock is between its append
    and its advance: the counter is never ahead of the records, and it has
    caught up whenever the lock is free.  The record sets published are
    those of the workers that have run line 160, one for each, and a worker
    that has returned has published the record set of its account.  A reader
    that takes the lock to look at both sees [k] record sets and a count of
    [k]. *)
Theorem counter_never_ahead_of_records (cloud : Cloud) (self : Scanner)
    (p0 p : Pool.pool)
    (Hinit : Pool.initial p0)
    (Hreach : Pool.reachable cloud self p0 p) :
  (forall i t,
     Pool.threads p i = Some t -> Pool.in_lock t = true ->
     Pool.lock p = Some i) /\
  results (Pool.shared p)
  = results (Pool.shared p0) ++ concat (Pool.published p) /\
  (progress (Pool.shared p) + (if Pool.between_updates p then 1 else 0)
   = progress (Pool.shared p0) + Z.of_nat (length (Pool.published p)))%Z /\
  (Pool.lock p = None ->
   progress (Pool.shared p)
   = (progress (Pool.shared p0) + Z.of_nat (length (Pool.published p)))%Z) /\
  published_once cloud self p0 p /\
  (forall i account rs,
     Pool.threads p i = Some (Pool.Worker account (Pool.Returned rs)) ->
     rs = account_records cloud self account /\ In rs (Pool.published p)) /\
  (forall i rs n,
     Pool.threads p i = Some (Pool.Reader (Pool.SawBoth rs n)) \/
     Pool.threads p i = Some (Pool.Reader (Pool.Finished rs n)) ->
     Pool.consistent_pair p0 p rs n).
Proof.
  pose proof (PoolFacts.invariant_reachable cloud self p0 p Hinit Hreach) as I.
  split; [|split; [|split; [|split; [|split; [|split]]]]].
  - intros i t Ht Hin. exact (Pool.inv_holder I _ Ht Hin).
  - apply (Pool.inv_results I).
  - apply (Pool.inv_progress I).
  - intros Hfree. pose proof (Pool.inv_progress I) as Hp.
    unfold Pool.between_updates in Hp. rewrite Hfree in Hp. lia.
  - now apply published_once_reachable.
  - intros i account rs Ht. split.
    + exact (Pool.inv_carried I _ Ht eq_refl).
    + exact (Pool.inv_appended I _ Ht eq_refl).
  - intros i rs n [Ht|Ht]; [|exact (Pool.inv_finished I _ Ht)].
    destruct (Pool.inv_saw_both I _ Ht) as [-> ->].
    pose proof (Pool.inv_holder I _ Ht eq_refl) as Hlock.
    exists (length (Pool.published p)). split; [lia|].
    rewrite firstn_all. split; [apply (Pool.inv_results I)|].
    pose proof (Pool.inv_progress I) as Hp.
    rewrite (PoolFacts.between_updates_at _ _ _ Hlock Ht) in Hp. cbn in Hp. lia.
Qed.

Lemma demo_pool_initial : Pool.initial PoolDemo.start.
Proof. repeat split. intros [|[|[|i]]] t [= <-]; reflexivity. Qed.

Lemma counter_never_ahead_of_records_witness :
  match Pool.run Demo.cloud default_scanner PoolDemo.interleaved PoolDemo.start with
  | Some p =>
      results (Pool.shared p)
      = results (Pool.shared PoolDemo.start) ++ concat (Pool.published p) /\
      (progress (Pool.shared p) + (if Pool.between_updates p then 1 else 0)
       = progress (Pool.shared PoolDemo.start)
         + Z.of_nat (length (Pool.published p)))%Z
  | None => False
  end.
Proof.
  destruct (Pool.run Demo.cloud default_scanner PoolDemo.interleaved
              PoolDemo.start) as [p|] eqn:E.
  - assert (Hreach : Pool.reachable Demo.cloud default_scanner PoolDemo.start p).
    { apply (PoolFacts.run_reachable Demo.cloud default_scanner PoolDemo.start
               PoolDemo.interleaved PoolDemo.start p);
        [apply Pool.reachable_refl | exact E]. }
    destruct (counter_never_ahead_of_records Demo.cloud default_scanner
                PoolDemo.start p demo_pool_initial Hreach)
      as (_ & Hrecords & Hcounter & _).
    split; [exact Hrecords|exact Hcounter].
  - vm_compute in E. discriminate E.
Defined.

(** C7, as stated, fails: a reader can meet records whose count has not
    advanced.  The pool of [PoolDemo] reaches a moment at which the second
    worker holds the lock between lines 160 and 161: the collection holds the
    records of both accounts and the counter reads one.  Nothing in the code
    makes a reader take [self.lock], and the thread that redraws the progress
    bar does not: what such a thread finds at this moment is not a collection
    of [k] record sets with a count of [k]. *)
Lemma records_seen_before_their_count :
  exists p,
    Pool.reachable Demo.cloud default_scanner PoolDemo.start p /\
    Pool.lock p = Some 1 /\
    length (results (Pool.shared p)) = 2 /\
    progress (Pool.shared p) = 1%Z /\
    ~ Pool.consistent_pair PoolDemo.start p
        (results (Pool.shared p)) (progress (Pool.shared p)).
Proof.
  destruct (Pool.run Demo.cloud default_scanner PoolDemo.interleaved
              PoolDemo.start) as [p|] eqn:E;
    [|vm_compute in E; discriminate E].
  exists p. split.
  { apply (PoolFacts.run_reachable Demo.cloud default_scanner PoolDemo.start
             PoolDemo.interleaved PoolDemo.start p);
      [apply Pool.reachable_refl | exact E]. }
  vm_compute in E. injection E as <-.
  split; [reflexivity|]. split; [reflexivity|]. split; [reflexivity|].
  intros (k & _ & Hrs & Hn). cbn in Hn. assert (k = 1) as -> by lia.
  cbn in Hrs. discriminate Hrs.
Qed.

(** ** The exchanges of a pool *)

Section RequestedOnce.

Variable cloud : Cloud.
Variable self : Scanner.
Variable p0 : Pool.pool.
Hypothesis Hclient : sts_client cloud = Ok tt.






End RequestedOnce.



(** In the pool above the second worker is the first to run line 157, and its
    exchange is the first to be sent. *)
Example demo_exchanges :
  option_map (fun p => filter is_assume_role (calls (Pool.shared p)))
    (Pool.run Demo.cloud default_scanner
       [1; 0; 1; 1; 1; 1; 2; 2; 2; 2; 0; 0; 0; 0] PoolDemo.start)
  = Some [exchange_of Demo.cloud default_scanner Demo.denied;
          exchange_of Demo.cloud default_scanner Demo.compliant].
Proof. reflexivity. Qed.
